(** * DiscoveryProviderSelector: health classification, backup selection
      and regressed mode

    A shallow embedding of
    [libs/services/discoveryProvider/DiscoveryProviderSelector.ts].
    The selector's fields and the parts of the JavaScript runtime it touches
    (the timer queue, the console, the calls made to the on-chain version
    registry) are threaded explicitly through a state-and-exception monad;
    a JavaScript call either returns a value or throws.  The two functions
    that follow the selector, [recoverWallet] and [sortObjectKeys], work on
    plain data and are embedded as functions on values. *)

From Stdlib Require Import ZArith NArith String Ascii List Sorted Lia.
From stdpp Require Import base option list gmap strings pretty.

Local Open Scope string_scope.
Local Open Scope Z_scope.
Local Open Scope list_scope.

(** ** Completions *)

Inductive Exn : Type :=
| TypeError (msg : string)
| Rejection (msg : string).

Inductive Completion (A : Type) : Type :=
| Normal (a : A)
| Throw (e : Exn).
Arguments Normal {A} a.
Arguments Throw {A} e.

Definition cbind {A B} (c : Completion A) (k : A → Completion B) : Completion B :=
  match c with
  | Normal a => k a
  | Throw e => Throw e
  end.

(** ** Comparisons *)

Definition lex (c1 c2 : comparison) : comparison :=
  match c1 with Eq => c2 | _ => c1 end.

(** Lexicographic comparison of lists, the shorter list first on a common
    prefix. *)
Fixpoint compare_list {A} (cmp : A → A → comparison) (l1 l2 : list A) : comparison :=
  match l1, l2 with
  | [], [] => Eq
  | [], _ :: _ => Lt
  | _ :: _, [] => Gt
  | x :: l1', y :: l2' => lex (cmp x y) (compare_list cmp l1' l2')
  end.

Definition compare_pair {A B} (cmpA : A → A → comparison)
  (cmpB : B → B → comparison) (p q : A * B) : comparison :=
  lex (cmpA p.1 q.1) (cmpB p.2 q.2).

(** A comparison is a total order when equal means identical, swapping the
    arguments flips the answer, and "less than" is transitive. *)
Class StrictCompare {A : Type} (cmp : A → A → comparison) : Prop := {
  cmp_eq : ∀ a b, cmp a b = Eq ↔ a = b;
  cmp_antisym : ∀ a b, cmp b a = CompOpp (cmp a b);
  cmp_lt_trans : ∀ a b c, cmp a b = Lt → cmp b c = Lt → cmp a c = Lt
}.
Arguments cmp_eq {A} cmp {_} a b.
Arguments cmp_antisym {A} cmp {_} a b.
Arguments cmp_lt_trans {A} cmp {_} a b c.

(** ** Data *)

(** Modelled from the spec: [DecisionTreeStage] is declared by the base class
    [ServiceSelector], which is not among the sources.  An entry of the
    decision trace records a candidate, the verdict on it and the reason. *)
Record DecisionTreeStage : Type := {
  candidate : option string;
  verdict : string;
  reason : string
}.

(** [response.data.data], the body of a health check. *)
Record TxInfo : Type := { slot_diff : option Z }.
Record Plays : Type := { tx_info : option TxInfo }.
Record DbInfo : Type := { number : Z }.
Record WebInfo : Type := { blocknumber : Z }.

Record HealthData : Type := {
  block_difference : Z;
  service : string;
  version : string;
  plays : option Plays;
  git : string;
  db : option DbInfo;
  web : option WebInfo;
  database_size : Z;
  database_connections : Z;
  total_memory : Z;
  used_memory : Z;
  filesystem_size : Z;
  filesystem_used : Z
}.

Record ResponseData : Type := {
  data : HealthData;
  received_bytes_per_sec : Z;
  transferred_bytes_per_sec : Z;
  challenge_last_event_age_sec : Z
}.

(** [response.config.url] is the address the probe was sent to; [new URL]
    splits it into the parts below, [href] being the address itself. *)
Record URL : Type := {
  href : string;
  origin : string;
  pathname : string;
  search : string
}.

Record Response : Type := {
  status : Z;
  response_data : ResponseData;
  config_url : URL
}.

(** The record handed to [monitoringCallbacks.healthCheck]. *)
Record HealthCheckArgs : Type := {
  hc_endpoint : string;
  hc_pathname : string;
  hc_queryString : string;
  hc_version : string;
  hc_git : string;
  hc_blockDifference : Z;
  hc_slotDifferencePlays : option Z;
  hc_databaseBlockNumber : Z;
  hc_webBlockNumber : Z;
  hc_databaseSize : Z;
  hc_databaseConnections : Z;
  hc_totalMemory : Z;
  hc_usedMemory : Z;
  hc_totalStorage : Z;
  hc_usedStorage : Z;
  hc_receivedBytesPerSec : Z;
  hc_transferredBytesPerSec : Z;
  hc_challengeLastEventAgeSec : Z
}.

Inductive LogEntry : Type :=
| ConsoleInfo (msg : string)
| ConsoleError (e : Exn).

Inductive RegistryCall : Type :=
| GetNumberOfVersions (serviceName : string)
| GetVersion (serviceName : string) (index : Z).

(** A pending [setTimeout]: the time at which it is due.  The only callback
    this class ever schedules is the one that leaves regressed mode. *)
Record Timer : Type := { due : Z }.

(** The fields of the selector, followed by the pieces of the runtime that
    its methods read or write. *)
Record State : Type := {
  (* fields of DiscoveryProviderSelector *)
  currentVersion : string;
  regressedMode : bool;
  validVersions : option (list string);
  (* fields inherited from ServiceSelector; an object's own keys are kept
     in [Object.keys] order *)
  backups : list (string * HealthData);
  decisionTree : list DecisionTreeStage;
  (* runtime *)
  clock : Z;
  timers : list Timer;
  console : list LogEntry;
  registryCalls : list RegistryCall
}.

(** ** The selector monad *)

Definition M (A : Type) : Type := State → Completion A * State.

Global Instance M_ret : MRet M := λ A a s, (Normal a, s).
Global Instance M_bind : MBind M := λ A B k m s,
  match m s with
  | (Normal a, s') => k a s'
  | (Throw e, s') => (Throw e, s')
  end.

Definition throw {A} (e : Exn) : M A := λ s, (Throw e, s).
Definition liftC {A} (c : Completion A) : M A := λ s, (c, s).
Definition get : M State := λ s, (Normal s, s).

(** [try { body } catch (e) { handler(e) }] *)
Definition try_catch {A} (body : M A) (handler : Exn → M A) : M A := λ s,
  match body s with
  | (Normal a, s') => (Normal a, s')
  | (Throw e, s') => handler e s'
  end.

Fixpoint forM_ {A} (l : list A) (f : A → M unit) : M unit :=
  match l with
  | [] => mret tt
  | x :: l' => f x ;; forM_ l' f
  end.

Definition set_regressedMode (b : bool) : M unit := λ s,
  (Normal tt,
   {| currentVersion := currentVersion s; regressedMode := b;
      validVersions := validVersions s; backups := backups s;
      decisionTree := decisionTree s; clock := clock s; timers := timers s;
      console := console s; registryCalls := registryCalls s |}).

Definition set_validVersions (v : option (list string)) : M unit := λ s,
  (Normal tt,
   {| currentVersion := currentVersion s; regressedMode := regressedMode s;
      validVersions := v; backups := backups s;
      decisionTree := decisionTree s; clock := clock s; timers := timers s;
      console := console s; registryCalls := registryCalls s |}).

Definition set_backups (b : list (string * HealthData)) : M unit := λ s,
  (Normal tt,
   {| currentVersion := currentVersion s; regressedMode := regressedMode s;
      validVersions := validVersions s; backups := b;
      decisionTree := decisionTree s; clock := clock s; timers := timers s;
      console := console s; registryCalls := registryCalls s |}).

Definition set_timers (t : list Timer) : M unit := λ s,
  (Normal tt,
   {| currentVersion := currentVersion s; regressedMode := regressedMode s;
      validVersions := validVersions s; backups := backups s;
      decisionTree := decisionTree s; clock := clock s; timers := t;
      console := console s; registryCalls := registryCalls s |}).

Definition set_clock (t : Z) : M unit := λ s,
  (Normal tt,
   {| currentVersion := currentVersion s; regressedMode := regressedMode s;
      validVersions := validVersions s; backups := backups s;
      decisionTree := decisionTree s; clock := t; timers := timers s;
      console := console s; registryCalls := registryCalls s |}).

Definition console_log (e : LogEntry) : M unit := λ s,
  (Normal tt,
   {| currentVersion := currentVersion s; regressedMode := regressedMode s;
      validVersions := validVersions s; backups := backups s;
      decisionTree := decisionTree s; clock := clock s; timers := timers s;
      console := console s ++ [e]; registryCalls := registryCalls s |}).

Definition record_call (c : RegistryCall) : M unit := λ s,
  (Normal tt,
   {| currentVersion := currentVersion s; regressedMode := regressedMode s;
      validVersions := validVersions s; backups := backups s;
      decisionTree := decisionTree s; clock := clock s; timers := timers s;
      console := console s; registryCalls := registryCalls s ++ [c] |}).

(** The state [s] with another version cache and registry log. *)
Definition with_cache (s : State) (v : option (list string))
  (calls : list RegistryCall) : State :=
  {| currentVersion := currentVersion s; regressedMode := regressedMode s;
     validVersions := v; backups := backups s;
     decisionTree := decisionTree s; clock := clock s; timers := timers s;
     console := console s; registryCalls := calls |}.

(** The state [s] after further lines were written to the console. *)
Definition logged (s : State) (out : list LogEntry) : State :=
  {| currentVersion := currentVersion s; regressedMode := regressedMode s;
     validVersions := validVersions s; backups := backups s;
     decisionTree := decisionTree s; clock := clock s; timers := timers s;
     console := console s ++ out; registryCalls := registryCalls s |}.

(** [setTimeout(callback, delay)] *)
Definition setTimeout (delay : Z) : M unit :=
  s ← get; set_timers (timers s ++ [{| due := clock s + delay |}]).

(** Running a computation for its final state. *)
Definition exec {A} (m : M A) (s : State) : State := (m s).2.

(** ** JavaScript objects used as maps *)

(** [Object.keys(o)] and [o[k]] for an object kept as an association list. *)
Definition Object_keys {V} (o : list (string * V)) : list string := o.*1.

Fixpoint prop {V} (o : list (string * V)) (k : string) : option V :=
  match o with
  | [] => None
  | (k', v) :: o' => if decide (k' = k) then Some v else prop o' k
  end.

(** [o[k] = v]: an existing key keeps its place, a new key goes last (keys
    that are array indices would be listed first; endpoints are not). *)
Fixpoint assign {V} (o : list (string * V)) (k : string) (v : V) : list (string * V) :=
  match o with
  | [] => [(k, v)]
  | (k', v') :: o' => if decide (k' = k) then (k, v) :: o' else (k', v') :: assign o' k v
  end.

(** Truthiness of a string-or-null value: [null] and [""] are falsy. *)
Definition truthy (o : option string) : bool :=
  match o with
  | Some s => negb (String.eqb s "")
  | None => false
  end.

(** ** [Array.prototype.sort]

    The sort is stable; with a comparator that is a total preorder the
    result is the one stable ordering, computed here by insertion.  The
    comparator may throw, which aborts the sort. *)

Fixpoint insertC {A} (cmp : A → A → Completion comparison) (x : A) (l : list A)
  : Completion (list A) :=
  match l with
  | [] => Normal [x]
  | y :: l' =>
      cbind (cmp x y) (λ c,
        match c with
        | Lt => Normal (x :: y :: l')
        | _ => cbind (insertC cmp x l') (λ l'', Normal (y :: l''))
        end)
  end.

Fixpoint sortC_from {A} (cmp : A → A → Completion comparison) (acc l : list A)
  : Completion (list A) :=
  match l with
  | [] => Normal acc
  | x :: l' => cbind (insertC cmp x acc) (λ acc', sortC_from cmp acc' l')
  end.

Definition sortC {A} (cmp : A → A → Completion comparison) (l : list A)
  : Completion (list A) := sortC_from cmp [] l.

(** The default comparator of [sort()]: elements are converted to strings
    and compared by code units. *)
Definition default_compare (a b : Z) : Completion comparison :=
  Normal (String.compare (pretty a) (pretty b)).

(** The same sort without exceptions, for comparators that cannot throw. *)
Fixpoint insert_by {A} (cmp : A → A → comparison) (x : A) (l : list A) : list A :=
  match l with
  | [] => [x]
  | y :: l' =>
      match cmp x y with
      | Lt => x :: y :: l'
      | _ => y :: insert_by cmp x l'
      end
  end.

Fixpoint sort_from {A} (cmp : A → A → comparison) (acc l : list A) : list A :=
  match l with
  | [] => acc
  | x :: l' => sort_from cmp (insert_by cmp x acc) l'
  end.

(** ** Semantic versions (the [semver] package)

    [semver] is a dependency of the library.  A parsed version has the
    three numbers and the prerelease identifiers; build metadata plays no
    part in comparisons.  Parsing itself is left to the package: the
    selector below takes the parser as a parameter. *)

Module SemVer.

Inductive Identifier : Type :=
| Numeric (n : N)
| Alphanumeric (s : string).

Record t : Type := {
  major : N;
  minor : N;
  patch : N;
  prerelease : list Identifier
}.

(** Numeric identifiers compare as numbers and sort before alphanumeric
    ones, which compare as strings. *)
Definition compareIdentifiers (a b : Identifier) : comparison :=
  match a, b with
  | Numeric n, Numeric m => N.compare n m
  | Numeric _, Alphanumeric _ => Lt
  | Alphanumeric _, Numeric _ => Gt
  | Alphanumeric x, Alphanumeric y => String.compare x y
  end.

Definition compareMain (a b : t) : comparison :=
  lex (N.compare (major a) (major b))
    (lex (N.compare (minor a) (minor b)) (N.compare (patch a) (patch b))).

(** A version without prerelease tags is greater than one with them. *)
Definition comparePrerelease (l1 l2 : list Identifier) : comparison :=
  match l1, l2 with
  | [], [] => Eq
  | _ :: _, [] => Lt
  | [], _ :: _ => Gt
  | _, _ => compare_list compareIdentifiers l1 l2
  end.

Definition comparePre (a b : t) : comparison :=
  comparePrerelease (prerelease a) (prerelease b).

Definition compare (a b : t) : comparison :=
  lex (compareMain a b) (comparePre a b).

End SemVer.

(** ** The collaborators of the selector *)

(** The values imported from [./constants]. *)
Record Constants : Type := {
  DISCOVERY_SERVICE_NAME : string;
  UNHEALTHY_BLOCK_DIFF : Z;
  REGRESSED_MODE_TIMEOUT : Z
}.

Definition PREVIOUS_VERSIONS_TO_CHECK : Z := 5.

(** The two registry reads of [ethContracts] that go to the chain; either
    may be rejected. *)
Record EthContracts : Type := {
  getNumberOfVersions : string → Completion Z;
  getVersion : string → Z → Completion string
}.

(** The constructor's [config].  An [unhealthySlotDiffPlays] that is absent
    and one that is [null] both switch the slot check off, and are both
    [None] here. *)
Record Config : Type := {
  selectionCallback :
    option (option string → list DecisionTreeStage → Completion unit);
  monitoringCallbacks_healthCheck : option (HealthCheckArgs → Completion unit);
  unhealthySlotDiffPlays : option Z
}.

Record Acc : Type := {
  versions : list string;
  blockDiffs : list Z;
  versionMap : gmap string (list string);
  blockDiffMap : gmap Z (list string)
}.

(** [if (k in m) m[k].push(backup) else m[k] = [backup]] *)
Definition push_to `{Countable K} (m : gmap K (list string)) (k : K)
  (backup : string) : gmap K (list string) :=
  match m !! k with
  | Some l => <[k := l ++ [backup]]> m
  | None => <[k := [backup]]> m
  end.

Definition show_endpoint (e : option string) : string := default "null" e.

Module Selector.

Section selector.
Context (semver_parse : string → option SemVer.t).
Context (K : Constants) (ethContracts : EthContracts) (config : Config).
(** [super.select()], the selection round of the base class. *)
Context (super_select : M (option string)).

(** *** [semver] on version strings *)

Definition semver_valid (v : string) : bool :=
  match semver_parse v with Some _ => true | None => false end.

Definition semver_patch (v : string) : Completion N :=
  match semver_parse v with
  | Some x => Normal (SemVer.patch x)
  | None => Throw (TypeError "Invalid Version")
  end.

(** [rcompare(a, b)] is [compare(b, a)]. *)
Definition semver_rcompare (a b : string) : Completion comparison :=
  match semver_parse b with
  | None => Throw (TypeError "Invalid Version")
  | Some vb =>
      match semver_parse a with
      | None => Throw (TypeError "Invalid Version")
      | Some va => Normal (SemVer.compare vb va)
      end
  end.

(** Modelled from the spec: [ethContracts.hasSameMajorAndMinorVersion] is not
    among the sources.  The specification gives it as a predicate
    [(a, b) → bool] for major/minor compatibility, two versions being of the
    same generation when their major and minor numbers are equal. *)
Definition hasSameMajorAndMinorVersion (version1 version2 : string) : bool :=
  match semver_parse version1, semver_parse version2 with
  | Some a, Some b =>
      N.eqb (SemVer.major a) (SemVer.major b)
      && N.eqb (SemVer.minor a) (SemVer.minor b)
  | _, _ => false
  end.

(** Modelled from the spec: [addBackup] belongs to the base class
    [ServiceSelector], which is not among the sources.  A BackupRecord is the
    rejected candidate's health data keyed by its canonical endpoint. *)
Definition addBackup (endpoint : string) (response : HealthData) : M unit :=
  s ← get; set_backups (assign (backups s) endpoint response).

(** *** [select] *)

Definition select : M (option string) :=
  endpoint ← super_select;
  console_log (ConsoleInfo ("Selected discprov " +:+ show_endpoint endpoint));;
  match selectionCallback config with
  | Some callback =>
      s ← get;
      liftC (callback endpoint (decisionTree s));;
      mret endpoint
  | None => mret endpoint
  end.

(** *** [isHealthy] *)

Definition slotDiffPlays_of (d : HealthData) : option Z :=
  match plays d with
  | Some p =>
      match tx_info p with
      | Some t => slot_diff t
      | None => None
      end
  | None => None
  end.

(** The argument of the monitoring callback; reading [db.number] or
    [web.blocknumber] of a body without them throws. *)
Definition healthCheckArgs (response : Response) (url : URL) : Completion HealthCheckArgs :=
  let rd := response_data response in
  let d := data rd in
  match db d with
  | None => Throw (TypeError "Cannot read properties of undefined (reading 'number')")
  | Some dbi =>
      match web d with
      | None =>
          Throw (TypeError "Cannot read properties of undefined (reading 'blocknumber')")
      | Some w =>
          Normal
            {| hc_endpoint := origin url;
               hc_pathname := pathname url;
               hc_queryString := search url;
               hc_version := version d;
               hc_git := git d;
               hc_blockDifference := block_difference d;
               hc_slotDifferencePlays := slotDiffPlays_of d;
               hc_databaseBlockNumber := number dbi;
               hc_webBlockNumber := blocknumber w;
               hc_databaseSize := database_size d;
               hc_databaseConnections := database_connections d;
               hc_totalMemory := total_memory d;
               hc_usedMemory := used_memory d;
               hc_totalStorage := filesystem_size d;
               hc_usedStorage := filesystem_used d;
               hc_receivedBytesPerSec := received_bytes_per_sec rd;
               hc_transferredBytesPerSec := transferred_bytes_per_sec rd;
               hc_challengeLastEventAgeSec := challenge_last_event_age_sec rd |}
      end
  end.

Definition report_healthCheck (response : Response) : M unit :=
  match monitoringCallbacks_healthCheck config with
  | Some healthCheck =>
      let url := config_url response in
      try_catch
        (args ← liftC (healthCheckArgs response url); liftC (healthCheck args))
        (* Swallow errors -- this method should not throw generally *)
        (λ e, console_log (ConsoleError e))
  | None => mret tt
  end.

(** [slotDiffPlays !== null && this.unhealthySlotDiffPlays !== null
     && slotDiffPlays > this.unhealthySlotDiffPlays] *)
Definition slotDiffUnhealthy (slotDiffPlays : option Z) : bool :=
  match slotDiffPlays, unhealthySlotDiffPlays config with
  | Some sd, Some limit => bool_decide (sd > limit)
  | _, _ => false
  end.

(** The canonical endpoint [urlMap[response.config.url]]; a missing entry
    is [undefined], which as a property key reads "undefined". *)
Definition canonical (urlMap : gmap string string) (response : Response) : string :=
  default "undefined" (urlMap !! href (config_url response)).

Definition isHealthy (response : Response) (urlMap : gmap string string) : M bool :=
  let d := data (response_data response) in
  let blockDiff := block_difference d in
  let slotDiffPlays := slotDiffPlays_of d in
  report_healthCheck response;;
  if negb (Z.eqb (status response) 200) then mret false
  else if negb (String.eqb (service d) (DISCOVERY_SERVICE_NAME K)) then mret false
  else if negb (semver_valid (version d)) then mret false
  else
    s ← get;
    (* If this service is not the same major/minor as what's on chain, reject *)
    if negb (hasSameMajorAndMinorVersion (currentVersion s) (version d))
    then mret false
    else
      p ← liftC (semver_patch (version d));
      pc ← liftC (semver_patch (currentVersion s));
      (* If this service is behind by patches, add it as a backup and reject *)
      if bool_decide (p < pc)%N then
        addBackup (canonical urlMap response) d;; mret false
      (* If this service is an unhealthy block diff behind, add it as a
         backup and reject *)
      else if bool_decide (blockDiff > UNHEALTHY_BLOCK_DIFF K) then
        addBackup (canonical urlMap response) d;; mret false
      (* If this service is an unhealthy slot diff behind on the plays
         table, add it as a backup and reject *)
      else if slotDiffUnhealthy slotDiffPlays then
        addBackup (canonical urlMap response) d;; mret false
      else mret true.

(** *** Regressed mode *)

(** The callback scheduled by [enterRegressedMode]. *)
Definition leaveRegressedMode : M unit :=
  console_log (ConsoleInfo "Leaving regressed mode");;
  set_regressedMode false.

Definition enterRegressedMode : M unit :=
  console_log (ConsoleInfo "Entering regressed mode");;
  set_regressedMode true;;
  setTimeout (REGRESSED_MODE_TIMEOUT K).

Definition isInRegressedMode : M bool :=
  s ← get; mret (regressedMode s).

(** The event loop reaching time [t]: every timer due by then has fired, in
    the order in which the timers were set, and is gone from the queue. *)
Definition advance_to (t : Z) : M unit :=
  s ← get;
  set_clock t;;
  set_timers (filter (λ tm, t < due tm) (timers s));;
  forM_ (filter (λ tm, due tm ≤ t) (timers s)) (λ _, leaveRegressedMode).

(** *** [selectFromBackups] *)

Definition call_getNumberOfVersions : M Z :=
  record_call (GetNumberOfVersions (DISCOVERY_SERVICE_NAME K));;
  liftC (getNumberOfVersions ethContracts (DISCOVERY_SERVICE_NAME K)).

Definition call_getVersion (index : Z) : M string :=
  record_call (GetVersion (DISCOVERY_SERVICE_NAME K) index);;
  liftC (getVersion ethContracts (DISCOVERY_SERVICE_NAME K) index).

(** [this.validVersions.push(v)] *)
Definition push_validVersion (v : string) : M unit :=
  s ← get;
  match validVersions s with
  | Some l => set_validVersions (Some (l ++ [v]))
  | None => throw (TypeError "Cannot read properties of null (reading 'push')")
  end.

(** Lines 200-218: go backwards in time on chain and get the registered
    versions up to PREVIOUS_VERSIONS_TO_CHECK. *)
Definition ensureValidVersions : M unit :=
  s ← get;
  match validVersions s with
  | Some _ => mret tt
  | None =>
      set_validVersions (Some [currentVersion s]);;
      numberOfVersions ← call_getNumberOfVersions;
      forM_ (seqZ 0 (Z.min PREVIOUS_VERSIONS_TO_CHECK (numberOfVersions - 1)))
        (λ i,
          (* Exclude the latest version when querying older versions *)
          pastServiceVersion ← call_getVersion (numberOfVersions - 2 - i);
          push_validVersion pastServiceVersion)
  end.

Definition isVersionOk (valid : list string) (version : string) : bool :=
  existsb (λ v, hasSameMajorAndMinorVersion v version) valid.

(** Lines 223-255, the body of the [forEach] callback.  The keys of
    [blockDiffMap] are numbers, told apart exactly as their string forms
    are. *)
Definition visit (valid : list string) (bk : list (string * HealthData))
  (acc : Acc) (backup : string) : Completion Acc :=
  match prop bk backup with
  | None => Throw (TypeError "Cannot destructure property of undefined")
  | Some r =>
      (* Filter out any version that wasn't valid given what's registered
         on chain *)
      if negb (isVersionOk valid (version r)) then Normal acc
      else
        Normal
          {| versions := versions acc ++ [version r];
             blockDiffs := blockDiffs acc ++ [block_difference r];
             versionMap := push_to (versionMap acc) (version r) backup;
             blockDiffMap := push_to (blockDiffMap acc) (block_difference r) backup |}
  end.

Fixpoint forEach (valid : list string) (bk : list (string * HealthData))
  (keys : list string) (acc : Acc) : Completion Acc :=
  match keys with
  | [] => Normal acc
  | backup :: keys' =>
      cbind (visit valid bk acc backup) (forEach valid bk keys')
  end.

Definition emptyAcc : Acc :=
  {| versions := []; blockDiffs := []; versionMap := ∅; blockDiffMap := ∅ |}.

(** Lines 264-271: the first endpoint of a version whose block difference is
    under the threshold replaces [selected]. *)
Fixpoint firstUnderThreshold (bk : list (string * HealthData))
  (endpoints : list string) (selected : option string) : Completion (option string) :=
  match endpoints with
  | [] => Normal selected
  | e :: rest =>
      match prop bk e with
      | None => Throw (TypeError "Cannot read properties of undefined (reading 'block_difference')")
      | Some r =>
          if bool_decide (block_difference r < UNHEALTHY_BLOCK_DIFF K)
          then Normal (Some e)
          else firstUnderThreshold bk rest selected
      end
  end.

(** Lines 261-273: select the closest version that's a healthy # of blocks
    behind.  [Some e] is [return e]; [None] is the loop running out. *)
Fixpoint versionLoop (bk : list (string * HealthData))
  (vmap : gmap string (list string)) (sortedVersions : list string)
  (selected : option string) : Completion (option string) :=
  match sortedVersions with
  | [] => Normal None
  | version :: rest =>
      match vmap !! version with
      | None => Throw (TypeError "Cannot read properties of undefined (reading 'length')")
      | Some endpoints =>
          cbind (firstUnderThreshold bk endpoints selected) (λ selected',
            if truthy selected' then Normal selected'
            else versionLoop bk vmap rest selected')
      end
  end.

(** Lines 220-282, with [this.validVersions] in hand. *)
Definition selectAmong (valid : list string) : M (option string) :=
  s ← get;
  acc ← liftC (forEach valid (backups s) (Object_keys (backups s)) emptyAcc);
  (* Sort the versions by desc semver *)
  sortedVersions ← liftC (sortC semver_rcompare (versions acc));
  r ← liftC (versionLoop (backups s) (versionMap acc) sortedVersions None);
  match r with
  | Some selected => mret (Some selected)
  | None =>
      (* Select the best block diff provider *)
      sortedDiffs ← liftC (sortC default_compare (blockDiffs acc));
      let bestBlockDiff := head sortedDiffs in
      match bestBlockDiff ≫= (λ b, blockDiffMap acc !! b) with
      | None => throw (TypeError "Cannot read properties of undefined (reading '0')")
      | Some endpoints =>
          enterRegressedMode;;
          mret (head endpoints)
      end
  end.

Definition selectFromBackups : M (option string) :=
  ensureValidVersions;;
  s ← get;
  match validVersions s with
  | None => throw (TypeError "Cannot read properties of null (reading 'length')")
  | Some valid => selectAmong valid
  end.

(** *** Notions in which the properties are stated *)

(** The records of an object, in key order. *)
Definition entries (bk : list (string * HealthData)) : list (string * HealthData) :=
  omap (λ k, (k,.) <$> prop bk k) (Object_keys bk).

(** The BackupRecords that pass the valid-version filter. *)
Definition filteredBackups (valid : list string) (bk : list (string * HealthData))
  : list (string * HealthData) :=
  filter (λ kr, isVersionOk valid (version kr.2)) (entries bk).

Definition underThreshold (kr : string * HealthData) : Prop :=
  block_difference kr.2 < UNHEALTHY_BLOCK_DIFF K.

Global Instance underThreshold_dec kr : Decision (underThreshold kr) :=
  decide (block_difference kr.2 < UNHEALTHY_BLOCK_DIFF K).

(** The first record of version [v] whose block difference is under the
    threshold. *)
Definition pick (fl : list (string * HealthData)) (v : string)
  : option (string * HealthData) :=
  head (filter underThreshold (filter (λ kr, version kr.2 = v) fl)).

(** The outcome of the walk over the sorted versions. *)
Fixpoint firstPick (fl : list (string * HealthData)) (vs : list string)
  : option (string * HealthData) :=
  match vs with
  | [] => None
  | v :: rest =>
      match pick fl v with
      | Some kr => if truthy (Some kr.1) then Some kr else firstPick fl rest
      | None => firstPick fl rest
      end
  end.

(** The order in which [sort()] without a comparator puts numbers. *)
Definition default_order (a b : Z) : comparison :=
  String.compare (pretty a) (pretty b).

(** The state in which [enterRegressedMode] leaves [s]. *)
Definition regressed (s : State) : State :=
  {| currentVersion := currentVersion s; regressedMode := true;
     validVersions := validVersions s; backups := backups s;
     decisionTree := decisionTree s; clock := clock s;
     timers := timers s ++ [{| due := clock s + REGRESSED_MODE_TIMEOUT K |}];
     console := console s ++ [ConsoleInfo "Entering regressed mode"];
     registryCalls := registryCalls s |}.

(** [semver.rcompare] where it does not throw. *)
Definition rcompare_parsed (a b : string) : comparison :=
  match semver_parse a, semver_parse b with
  | Some va, Some vb => SemVer.compare vb va
  | Some _, None => Lt
  | None, Some _ => Gt
  | None, None => Eq
  end.

(** The endpoints grouped under one key of [versionMap] or [blockDiffMap]. *)
Definition group {X} `{EqDecision X} (key : HealthData → X)
  (fl : list (string * HealthData)) (x : X) : list string :=
  (filter (λ kr, key kr.2 = x) fl).*1.

Definition nonempty {X} (l : list X) : option (list X) :=
  match l with [] => None | _ => Some l end.

(** What the [forEach] has gathered once it has kept the records [fl]. *)
Definition gathered (fl : list (string * HealthData)) (acc : Acc) : Prop :=
  versions acc = (version ∘ snd) <$> fl
  ∧ blockDiffs acc = (block_difference ∘ snd) <$> fl
  ∧ (∀ v, versionMap acc !! v = nonempty (group version fl v))
  ∧ (∀ d, blockDiffMap acc !! d = nonempty (group block_difference fl d)).

(** *** The checks of [isHealthy], in the order of the specification

    Written after section 4.2 of the specification, to be compared with
    [isHealthy] above. *)

Inductive Check : Type :=
| StatusCheck
| ServiceCheck
| ParseCheck
| GenerationCheck
| PatchCheck
| BlockDiffCheck
| SlotDiffCheck.

Definition checks : list Check :=
  [StatusCheck; ServiceCheck; ParseCheck; GenerationCheck; PatchCheck;
   BlockDiffCheck; SlotDiffCheck].

Definition passes (current : string) (response : Response) (c : Check) : bool :=
  let d := data (response_data response) in
  match c with
  | StatusCheck => bool_decide (status response = 200)
  | ServiceCheck => bool_decide (service d = DISCOVERY_SERVICE_NAME K)
  | ParseCheck => bool_decide (is_Some (semver_parse (version d)))
  | GenerationCheck => hasSameMajorAndMinorVersion current (version d)
  | PatchCheck =>
      match semver_parse (version d), semver_parse current with
      | Some v, Some c => bool_decide (¬ (SemVer.patch v < SemVer.patch c)%N)
      | _, _ => false
      end
  | BlockDiffCheck => bool_decide (¬ (block_difference d > UNHEALTHY_BLOCK_DIFF K))
  | SlotDiffCheck =>
      match slotDiffPlays_of d, unhealthySlotDiffPlays config with
      | Some sd, Some limit => bool_decide (¬ (sd > limit))
      | _, _ => true
      end
  end.

Definition firstFailure (current : string) (response : Response) : option Check :=
  List.find (λ c, negb (passes current response c)) checks.

(** Failures that leave a BackupRecord behind. *)
Definition recordsBackup (c : Check) : bool :=
  match c with
  | PatchCheck | BlockDiffCheck | SlotDiffCheck => true
  | _ => false
  end.

End selector.

End Selector.

Import Selector.

(** ** A world to run the selector in

    Versions of the plain form MAJOR.MINOR.PATCH, on which every reading of
    [semver] agrees, and sample values for the imported constants. *)

Definition digit_of (c : ascii) : option N :=
  let n := N_of_ascii c in
  if (48 <=? n)%N && (n <=? 57)%N then Some (n - 48)%N else None.

Fixpoint digits_value (s : string) (acc : N) : option N :=
  match s with
  | EmptyString => Some acc
  | String c s' =>
      match digit_of c with
      | Some d => digits_value s' (10 * acc + d)%N
      | None => None
      end
  end.

(** A numeric identifier: "0", or digits without a leading zero. *)
Definition numeric_identifier (s : string) : option N :=
  match s with
  | EmptyString => None
  | String "0" EmptyString => Some 0%N
  | String "0" _ => None
  | _ => digits_value s 0
  end.

Fixpoint split_on (sep : ascii) (s : string) : list string :=
  match s with
  | EmptyString => [EmptyString]
  | String c s' =>
      if Ascii.eqb c sep then EmptyString :: split_on sep s'
      else
        match split_on sep s' with
        | x :: r => String c x :: r
        | [] => [String c EmptyString]
        end
  end.

Definition parse_plain (v : string) : option SemVer.t :=
  match split_on "." v with
  | [a; b; c] =>
      ma ← numeric_identifier a;
      mi ← numeric_identifier b;
      pa ← numeric_identifier c;
      Some {| SemVer.major := ma; SemVer.minor := mi; SemVer.patch := pa;
              SemVer.prerelease := [] |}
  | _ => None
  end.

Definition sampleConstants : Constants :=
  {| DISCOVERY_SERVICE_NAME := "discovery-provider";
     UNHEALTHY_BLOCK_DIFF := 15;
     REGRESSED_MODE_TIMEOUT := 120000 |}.

(** A registry holding the given versions, oldest first. *)
Definition registry (history : list string) : EthContracts :=
  {| getNumberOfVersions := λ _, Normal (Z.of_nat (length history));
     getVersion := λ _ i,
       match (if bool_decide (0 ≤ i) then history !! Z.to_nat i else None) with
       | Some v => Normal v
       | None => Throw (Rejection "execution reverted")
       end |}.

Definition noCallbacks : Config :=
  {| selectionCallback := None;
     monitoringCallbacks_healthCheck := None;
     unhealthySlotDiffPlays := None |}.

Definition healthData (v : string) (blockDiff : Z) : HealthData :=
  {| block_difference := blockDiff; service := "discovery-provider";
     version := v; plays := None; git := ""; db := Some {| number := 0 |};
     web := Some {| blocknumber := 0 |}; database_size := 0;
     database_connections := 0; total_memory := 0; used_memory := 0;
     filesystem_size := 0; filesystem_used := 0 |}.

Definition initialState (current : string) (bk : list (string * HealthData)) : State :=
  {| currentVersion := current; regressedMode := false; validVersions := None;
     backups := bk; decisionTree := []; clock := 0; timers := [];
     console := []; registryCalls := [] |}.

(** The registry of the sample worlds: 1.2.3 is current, 1.1.9 and 1.2.2
    came before it. *)
Definition sampleRegistry : EthContracts := registry ["1.1.9"; "1.2.2"; "1.2.3"].

Definition sampleSelect : State → Completion (option string) * State :=
  selectFromBackups parse_plain sampleConstants sampleRegistry.

(** The valid versions of the sample registry, as the first call caches
    them. *)
Definition sampleValid : list string := ["1.2.3"; "1.2.2"; "1.1.9"].

Definition cached (s : State) : State :=
  exec (ensureValidVersions sampleConstants sampleRegistry) s.

(** One backup, a patch behind and five blocks behind. *)
Definition oneFreshBackup : State :=
  initialState "1.2.3" [("https://dp1.example", healthData "1.2.2" 5)].

(** Two backups, both too far behind. *)
Definition twoStaleBackups : State :=
  initialState "1.2.3"
    [("https://dp1.example", healthData "1.2.3" 100);
     ("https://dp2.example", healthData "1.2.3" 20)].

(** Two backups under the threshold, the older version first. *)
Definition twoFreshBackups : State :=
  initialState "1.2.3"
    [("https://dp1.example", healthData "1.2.1" 3);
     ("https://dp2.example", healthData "1.2.2" 5)].

(** A selector that cached the valid versions while 1.2.3 was current, after
    the chain has moved on to 1.3.1: its one backup is a patch behind the
    new version. *)
Definition staleCache : State :=
  {| currentVersion := "1.3.1"; regressedMode := false;
     validVersions := Some ["1.2.3"; "1.2.2"; "1.1.9"];
     backups := [("https://dp1.example", healthData "1.3.0" 0)];
     decisionTree := []; clock := 0; timers := [];
     console := []; registryCalls := [] |}.

(** A healthy-looking response, as seen by a selector that watches the slot
    difference of the plays table. *)
Definition watchSlots : Config :=
  {| selectionCallback := None;
     monitoringCallbacks_healthCheck := None;
     unhealthySlotDiffPlays := Some 10 |}.

Definition responseOf (d : HealthData) : Response :=
  {| status := 200;
     response_data :=
       {| data := d; received_bytes_per_sec := 0;
          transferred_bytes_per_sec := 0; challenge_last_event_age_sec := 0 |};
     config_url :=
       {| href := "https://dp1.example/health_check";
          origin := "https://dp1.example"; pathname := "/health_check";
          search := "" |} |}.

Definition withSlotDiff (d : HealthData) (sd : Z) : HealthData :=
  {| block_difference := block_difference d; service := service d;
     version := version d;
     plays := Some {| tx_info := Some {| slot_diff := Some sd |} |};
     git := git d; db := db d; web := web d;
     database_size := database_size d;
     database_connections := database_connections d;
     total_memory := total_memory d; used_memory := used_memory d;
     filesystem_size := filesystem_size d;
     filesystem_used := filesystem_used d |}.

Definition sampleUrlMap : gmap string string :=
  {[ "https://dp1.example/health_check" := "https://dp1.example" ]}.

(** A registry that knows of three versions and rejects every read of one. *)
Definition failingRegistry : EthContracts :=
  {| getNumberOfVersions := λ _, Normal 3;
     getVersion := λ _ _, Throw (Rejection "request timed out") |}.

(** Two backups under the threshold, the newer one under the empty string. *)
Definition emptyEndpoint : State :=
  initialState "1.2.3"
    [("", healthData "1.2.2" 5);
     ("https://dp1.example", healthData "1.2.1" 3)].

(** A selection callback that throws. *)
Definition throwingCallback : Config :=
  {| selectionCallback := Some (λ _ _, Throw (Rejection "callback failed"));
     monitoringCallbacks_healthCheck :=
       Some (λ _, Throw (Rejection "callback failed"));
     unhealthySlotDiffPlays := None |}.

(** ** The roster supplier and the life of a selector *)

Definition set_currentVersion (v : string) : M unit := λ s,
  (Normal tt,
   {| currentVersion := v; regressedMode := regressedMode s;
      validVersions := validVersions s; backups := backups s;
      decisionTree := decisionTree s; clock := clock s; timers := timers s;
      console := console s; registryCalls := registryCalls s |}).

(** An entry of the provider list; only its endpoint is read. *)
Record ServiceProvider : Type := { sp_endpoint : string }.

(** The two reads of [ethContracts] made by [getServices]. *)
Record RosterContracts : Type := {
  getCurrentVersion : string → Completion string;
  getServiceProviderList : string → Completion (list ServiceProvider)
}.

(** Lines 46-54, the [getServices] handed to the base class: gets the
    "current" expected service version as well as the list of registered
    providers from chain. *)
Definition getServices (K : Constants) (roster : RosterContracts) : M (list string) :=
  current ← liftC (getCurrentVersion roster (DISCOVERY_SERVICE_NAME K));
  set_currentVersion current;;
  services ← liftC (getServiceProviderList roster (DISCOVERY_SERVICE_NAME K));
  mret (map sp_endpoint services).

(** What can happen to a selector once it is constructed: its methods are
    called, and time passes. *)
Inductive Operation : Type :=
| CallGetServices
| CallIsHealthy (response : Response) (urlMap : gmap string string)
| CallSelectFromBackups
| CallEnterRegressedMode
| CallIsInRegressedMode
| TimePasses (elapsed : N).

Module Life.

Section life.
Context (semver_parse : string → option SemVer.t).
Context (K : Constants) (ethContracts : EthContracts) (config : Config).
Context (roster : RosterContracts).

Definition perform (op : Operation) (s : State) : State :=
  match op with
  | CallGetServices => exec (getServices K roster) s
  | CallIsHealthy response urlMap =>
      exec (isHealthy semver_parse K config response urlMap) s
  | CallSelectFromBackups => exec (selectFromBackups semver_parse K ethContracts) s
  | CallEnterRegressedMode => exec (enterRegressedMode K) s
  | CallIsInRegressedMode => exec isInRegressedMode s
  | TimePasses elapsed => exec (advance_to (clock s + Z.of_N elapsed)) s
  end.

Definition perform_all (ops : list Operation) (s : State) : State :=
  fold_left (λ s op, perform op s) ops s.

(** Every pending timer is due within one timeout. *)
Definition timers_within_timeout (s : State) : Prop :=
  ∀ tm, tm ∈ timers s → due tm ≤ clock s + REGRESSED_MODE_TIMEOUT K.

(** Regressed mode has an expiry pending. *)
Definition regressed_mode_expires (s : State) : Prop :=
  regressedMode s = true → timers s ≠ [].

(** How one state follows from another: nothing about regressed mode
    changed, or regressed mode was entered, or time passed. *)
Definition quiet (s s' : State) : Prop :=
  regressedMode s' = regressedMode s ∧ timers s' = timers s ∧ clock s' = clock s.

Definition entered (s s' : State) : Prop :=
  regressedMode s' = true
  ∧ timers s' = timers s ++ [{| due := clock s + REGRESSED_MODE_TIMEOUT K |}]
  ∧ clock s' = clock s.

Definition passed (s s' : State) : Prop :=
  clock s ≤ clock s'
  ∧ timers s' = filter (λ tm, clock s' < due tm) (timers s)
  ∧ regressedMode s' =
      match filter (λ tm, due tm ≤ clock s') (timers s) with
      | [] => regressedMode s
      | _ => false
      end.

(** A cache that is there stays, and the registry is left alone. *)
Definition keeps_cache (s s' : State) : Prop :=
  ∀ valid, validVersions s = Some valid →
    validVersions s' = Some valid ∧ registryCalls s' = registryCalls s.

End life.

End Life.

Import Life.

(** A roster read that finds 1.2.3 current, and one made after the chain has
    moved on to 1.3.1. *)
Definition sampleRoster : RosterContracts :=
  {| getCurrentVersion := λ _, Normal "1.2.3";
     getServiceProviderList := λ _,
       Normal [{| sp_endpoint := "https://dp1.example" |};
               {| sp_endpoint := "https://dp2.example" |}] |}.

Definition upgradedRoster : RosterContracts :=
  {| getCurrentVersion := λ _, Normal "1.3.1";
     getServiceProviderList := λ _,
       Normal [{| sp_endpoint := "https://dp1.example" |}] |}.

(** A round that finds its one provider a hundred blocks behind and falls
    back on it, followed by a minute's wait, a further regression and a
    look at the flag. *)
Definition sampleLife : list Operation :=
  [CallGetServices;
   CallIsHealthy (responseOf (healthData "1.2.3" 100)) sampleUrlMap;
   CallSelectFromBackups;
   TimePasses 60000;
   CallEnterRegressedMode;
   CallIsInRegressedMode].

Definition samplePerformAll (ops : list Operation) : State → State :=
  perform_all parse_plain sampleConstants sampleRegistry noCallbacks sampleRoster ops.

(** A selector with an empty backups map whose cache dates from the time
    when 1.2.3 was current, after [getServices] has found 1.3.1. *)
Definition staleEmpty : State :=
  {| currentVersion := "1.3.1"; regressedMode := false;
     validVersions := Some ["1.2.3"; "1.2.2"; "1.1.9"];
     backups := []; decisionTree := []; clock := 0; timers := [];
     console := []; registryCalls := [] |}.

(** ** Signed responses: [sortObjectKeys] and [recoverWallet]

    The two functions that follow the selector.  Their values are plain
    data: what [JSON.parse] returns, and [undefined].  A number is never
    looked into; an object is the list of its own properties in the order
    in which [Object.keys] gives them. *)

#[warnings="-register-all"] Inductive Value : Type :=
| VUndefined
| VNull
| VBool (b : bool)
| VNumber (n : Z)
| VString (s : string)
| VArray (items : list Value)
| VObject (props : list (string * Value)).

(** [o[k]], which is [undefined] for a key that [o] does not have. *)
Definition get_prop (o : list (string * Value)) (k : string) : Value :=
  default VUndefined (prop o k).

(** An array index: the canonical decimal form of an integer below
    [2^32 - 1]. *)
Definition array_index (k : string) : option N :=
  match numeric_identifier k with
  | Some n => if (n <? 4294967295)%N then Some n else None
  | None => None
  end.

(** An object lists its array indices first, in ascending order, and then
    its other keys in the order of their creation.  So a new key [k] is
    listed before the key [k'] in these cases. *)
Definition listed_before (k k' : string) : bool :=
  match array_index k, array_index k' with
  | Some n, Some n' => (n <? n')%N
  | Some _, None => true
  | None, _ => false
  end.

(** Defining the property [k] of an object: the value of an existing key is
    replaced where it stands, a new key takes its place in the listing. *)
Fixpoint define_property (o : list (string * Value)) (k : string) (v : Value)
  : list (string * Value) :=
  match o with
  | [] => [(k, v)]
  | (k', v') :: o' =>
      if decide (k' = k) then (k, v) :: o'
      else if listed_before k k' then (k, v) :: (k', v') :: o'
      else (k', v') :: define_property o' k v
  end.

(** [{ ...o }]: the properties of [o] defined one by one on a new object. *)
Definition spread (o : list (string * Value)) : list (string * Value) :=
  fold_left (λ acc kv, define_property acc kv.1 kv.2) o [].

(** Lines 311-315.  Recursively sorts object keys alphabetically.  The inner
    [look] is [sortObjectKeys(x[k])]. *)
Fixpoint sortObjectKeys (x : Value) : Value :=
  match x with
  | VArray items => VArray (map sortObjectKeys items)
  | VObject props =>
      let look :=
        fix look (ps : list (string * Value)) (k : string) : Value :=
          match ps with
          | [] => VUndefined
          | (k', v) :: ps' =>
              if decide (k' = k) then sortObjectKeys v else look ps' k
          end in
      VObject
        (fold_left (λ o k, define_property (spread o) k (look props k))
           (sort_from String.compare [] (Object_keys props)) [])
  | _ => x
  end.

(** How an object lists keys that were created in alphabetical order: the
    array indices by their number, then the other keys as strings. *)
Definition key_order (a b : string) : comparison :=
  match array_index a, array_index b with
  | Some n, Some m => N.compare n m
  | Some _, None => Lt
  | None, Some _ => Gt
  | None, None => String.compare a b
  end.

(** Two values with the same content: they differ at most in the order in
    which their objects list their keys. *)
#[warnings="-register-all"] Inductive same_content : Value → Value → Prop :=
| same_undefined : same_content VUndefined VUndefined
| same_null : same_content VNull VNull
| same_bool b : same_content (VBool b) (VBool b)
| same_number n : same_content (VNumber n) (VNumber n)
| same_string s : same_content (VString s) (VString s)
| same_array items1 items2 :
    Forall2 same_content items1 items2 →
    same_content (VArray items1) (VArray items2)
| same_object props1 props2 :
    (∀ k, k ∈ Object_keys props1 ↔ k ∈ Object_keys props2) →
    (∀ k, k ∈ Object_keys props1 →
       same_content (get_prop props1 k) (get_prop props2 k)) →
    same_content (VObject props1) (VObject props2).

(** The keys of an object are listed in order: no key twice, and none that
    a key before it would have to follow. *)
Definition listed_in_order (ks : list string) : Prop :=
  StronglySorted (λ a b, a ≠ b ∧ listed_before b a = false) ks.

(** What is thrown, and caught, in [recoverWallet]. *)
Inductive Failure : Type :=
| Raised (e : Exn)
| SyntaxError (msg : string)
| AssertionError (actual : Value) (expected : string).

(** What a value becomes on its way through [JSON.stringify] and
    [JSON.parse].  A property whose value is [undefined] is left out, an
    element that is [undefined] becomes [null], the properties that remain
    are defined one by one in the order of the text.  The inner [look] is
    the copy of [x[k]], if [x[k]] is written to the text. *)
Fixpoint JSON_copy (x : Value) : Value :=
  match x with
  | VArray items =>
      VArray (map (λ v, match v with
                        | VUndefined => VNull
                        | _ => JSON_copy v
                        end) items)
  | VObject props =>
      let look :=
        fix look (ps : list (string * Value)) (k : string) : option Value :=
          match ps with
          | [] => None
          | (k', v) :: ps' =>
              if decide (k' = k)
              then match v with
                   | VUndefined => None
                   | _ => Some (JSON_copy v)
                   end
              else look ps' k
          end in
      VObject
        (fold_left (λ o k, match look props k with
                           | Some v => define_property o k v
                           | None => o
                           end) (Object_keys props) [])
  | _ => x
  end.

(** [JSON.parse(JSON.stringify(x))]: [JSON.stringify(undefined)] is
    [undefined], which [JSON.parse] reads as the text "undefined". *)
Definition JSON_parse_stringify (x : Value) : Failure + Value :=
  match x with
  | VUndefined =>
      inl (SyntaxError "Unexpected token u in JSON at position 0")
  | _ => inr (JSON_copy x)
  end.

(** [delete x[k]], for a key that is no array index. *)
Definition delete_prop (x : Value) (k : string) : Failure + Value :=
  match x with
  | VUndefined | VNull =>
      inl (Raised (TypeError "Cannot convert undefined or null to object"))
  | VObject props => inr (VObject (filter (λ kv, kv.1 ≠ k) props))
  | _ => inr x
  end.

(** [x.name], for a name that only an object of the response can carry. *)
Definition member (x : Value) (name : string) : Failure + Value :=
  match x with
  | VUndefined | VNull =>
      inl (Raised (TypeError "Cannot read properties of null"))
  | VObject props => inr (get_prop props name)
  | _ => inr VUndefined
  end.

(** [assert.strictEqual(actual, expected)] for a string [expected]. *)
Definition strictEqual (actual : Value) (expected : string) : bool :=
  match actual with
  | VString s => String.eqb s expected
  | _ => false
  end.

(** The two functions of [web3] that are called. *)
Record Web3 : Type := {
  utils_keccak256 : string → Completion string;
  eth_accounts_recover : string → Value → Completion string
}.

Module Signed.

Section signed.
(** The last [JSON.stringify], whose text is only hashed. *)
Context (JSON_stringify : Value → string).

(** Lines 289-306.  Recover the public wallet address given the response
    contains the signature and timestamp.  Returns what was returned or
    thrown, and what [console.error] was given. *)
Definition recoverWallet (web3 : Web3) (response : Value)
  : (Failure + option string) * list Failure :=
  match JSON_parse_stringify response with
  | inl e => (inl e, [])
  | inr dataForRecovery =>
      match delete_prop dataForRecovery "signature" with
      | inl e => (inl e, [])
      | inr dataForRecovery =>
          let dataForRecoveryStr :=
            JSON_stringify (sortObjectKeys dataForRecovery) in
          match utils_keccak256 web3 dataForRecoveryStr with
          | Throw e => (inr None, [Raised e])
          | Normal hashedData =>
              match member response "signature" with
              | inl e => (inr None, [e])
              | inr signature =>
                  match eth_accounts_recover web3 hashedData signature with
                  | Throw e => (inr None, [Raised e])
                  | Normal recoveredDelegateWallet =>
                      match member response "signer" with
                      | inl e => (inr (Some recoveredDelegateWallet), [e])
                      | inr signer =>
                          if strictEqual signer recoveredDelegateWallet
                          then (inr (Some recoveredDelegateWallet), [])
                          else (inr (Some recoveredDelegateWallet),
                                [AssertionError signer recoveredDelegateWallet])
                      end
                  end
              end
          end
      end
  end.

End signed.

End Signed.

Import Signed.

(** ** Sample responses *)

(** A signed response, and the same response with its keys in another
    order, here and in the object it holds. *)
Definition signedResponse : Value :=
  VObject
    [("data", VObject [("version", VString "1.2.3");
                       ("block_difference", VNumber 5)]);
     ("signer", VString "0xabc");
     ("signature", VString "0x1234");
     ("timestamp", VString "2021-01-01T00:00:00Z")].

Definition reorderedResponse : Value :=
  VObject
    [("timestamp", VString "2021-01-01T00:00:00Z");
     ("signature", VString "0x1234");
     ("data", VObject [("block_difference", VNumber 5);
                       ("version", VString "1.2.3")]);
     ("signer", VString "0xabc")].

(** An object with keys that are array indices. *)
Definition indexedObject : Value :=
  VObject [("b", VNumber 1); ("10", VNumber 2); ("9", VNumber 3);
           ("a", VNumber 4)].

(** The text of the sample values, whose strings need no escaping. *)
Definition quoted (s : string) : string :=
  String (ascii_of_N 34) s +:+ String (ascii_of_N 34) EmptyString.

Fixpoint sampleText (x : Value) : string :=
  match x with
  | VUndefined => "undefined"
  | VNull => "null"
  | VBool b => if b then "true" else "false"
  | VNumber n => pretty n
  | VString s => quoted s
  | VArray items => "[" +:+ String.concat "," (map sampleText items) +:+ "]"
  | VObject props =>
      "{" +:+ String.concat ","
                (map (λ kv, let '(k, v) := kv in
                            quoted k +:+ ":" +:+ sampleText v) props) +:+ "}"
  end.

(** A [web3] that takes the text for its hash and recovers the given wallet
    from every signature that is a string. *)
Definition sampleWeb3 (wallet : string) : Web3 :=
  {| utils_keccak256 := λ text, Normal text;
     eth_accounts_recover := λ _ signature,
       match signature with
       | VString _ => Normal wallet
       | _ => Throw (TypeError "signature must be a string")
       end |}.

(** * Properties *)

(** ** Orders *)

Section strict_compare.
Context {A : Type} (cmp : A → A → comparison) `{!StrictCompare cmp}.

Lemma cmp_refl a : cmp a a = Eq.
Proof. by apply (cmp_eq cmp). Qed.

Lemma cmp_le_trans a b c : cmp a b ≠ Gt → cmp b c ≠ Gt → cmp a c ≠ Gt.
Proof.
  intros Hab Hbc Hac.
  destruct (cmp a b) eqn:E1; [| |done].
  - apply (cmp_eq cmp) in E1 as ->. done.
  - destruct (cmp b c) eqn:E2; [| |done].
    + apply (cmp_eq cmp) in E2 as ->. congruence.
    + pose proof (cmp_lt_trans cmp _ _ _ E1 E2). congruence.
Qed.

End strict_compare.

Lemma lex_assoc c1 c2 c3 : lex (lex c1 c2) c3 = lex c1 (lex c2 c3).
Proof. by destruct c1. Qed.

Global Instance N_compare_strict : StrictCompare N.compare.
Proof.
  split.
  - intros a b. apply N.compare_eq_iff.
  - intros a b. apply N.compare_antisym.
  - intros a b c. rewrite !N.compare_lt_iff. lia.
Qed.

Global Instance ascii_compare_strict : StrictCompare Ascii.compare.
Proof.
  split.
  - intros a b. split; [apply Ascii.compare_eq_iff|].
    intros ->. unfold Ascii.compare. apply N.compare_refl.
  - intros a b. apply Ascii.compare_antisym.
  - intros a b c. unfold Ascii.compare. rewrite !N.compare_lt_iff. lia.
Qed.

Global Instance compare_list_strict {A} (cmp : A → A → comparison)
  `{!StrictCompare cmp} : StrictCompare (compare_list cmp).
Proof.
  split.
  - induction a as [|x a IH]; intros [|y b]; simpl; try (split; congruence).
    destruct (cmp x y) eqn:E; simpl.
    + apply (cmp_eq cmp) in E as ->. rewrite IH. split; congruence.
    + split; [done|]. intros [= -> ->]. rewrite (cmp_refl cmp) in E; done.
    + split; [done|]. intros [= -> ->]. rewrite (cmp_refl cmp) in E; done.
  - induction a as [|x a IH]; intros [|y b]; simpl; try done.
    rewrite (cmp_antisym cmp x y), IH. by destruct (cmp x y).
  - induction a as [|x a IH]; intros [|y b] [|z c]; simpl; try done.
    destruct (cmp x y) eqn:E1; simpl; [| |done].
    + apply (cmp_eq cmp) in E1 as ->. destruct (cmp y z); simpl; eauto.
    + intros _. destruct (cmp y z) eqn:E2; simpl; [| |done].
      * apply (cmp_eq cmp) in E2 as ->. by rewrite E1.
      * by rewrite (cmp_lt_trans cmp _ _ _ E1 E2).
Qed.

Global Instance string_compare_strict : StrictCompare String.compare.
Proof.
  split.
  - intros a b. split; [apply String.compare_eq_iff|].
    intros ->. induction b as [|c b IH]; simpl; [done|].
    by rewrite (cmp_refl Ascii.compare).
  - intros a b. apply String.compare_antisym.
  - induction a as [|x a IH]; intros [|y b] [|z c]; simpl; try done.
    destruct (Ascii.compare x y) eqn:E1; [| |done].
    + apply (cmp_eq Ascii.compare) in E1 as ->. destruct (Ascii.compare y z); eauto.
    + intros _. destruct (Ascii.compare y z) eqn:E2; [| |done].
      * apply (cmp_eq Ascii.compare) in E2 as ->. by rewrite E1.
      * by rewrite (cmp_lt_trans Ascii.compare _ _ _ E1 E2).
Qed.

Global Instance compare_pair_strict {A B} (cmpA : A → A → comparison)
  (cmpB : B → B → comparison) `{!StrictCompare cmpA, !StrictCompare cmpB} :
  StrictCompare (compare_pair cmpA cmpB).
Proof.
  split.
  - intros [a1 b1] [a2 b2]. unfold compare_pair; simpl.
    destruct (cmpA a1 a2) eqn:E; simpl.
    + apply (cmp_eq cmpA) in E as ->. rewrite (cmp_eq cmpB). split; congruence.
    + split; [done|]. intros [= -> ->]. by rewrite (cmp_refl cmpA) in E.
    + split; [done|]. intros [= -> ->]. by rewrite (cmp_refl cmpA) in E.
  - intros [a1 b1] [a2 b2]. unfold compare_pair; simpl.
    rewrite (cmp_antisym cmpA a1 a2), (cmp_antisym cmpB b1 b2).
    by destruct (cmpA a1 a2).
  - intros [a1 b1] [a2 b2] [a3 b3]. unfold compare_pair; simpl.
    destruct (cmpA a1 a2) eqn:E1; simpl; [| |done].
    + apply (cmp_eq cmpA) in E1 as ->.
      destruct (cmpA a2 a3); simpl; [|done..]. apply (cmp_lt_trans cmpB).
    + intros _. destruct (cmpA a2 a3) eqn:E2; simpl; [| |done].
      * apply (cmp_eq cmpA) in E2 as ->. by rewrite E1.
      * by rewrite (cmp_lt_trans cmpA _ _ _ E1 E2).
Qed.

(** Comparing through an injective view keeps the order. *)
Lemma strict_compare_via {A B} (f : A → B) (cmp : B → B → comparison)
  `{!StrictCompare cmp} :
  (∀ a b, f a = f b → a = b) → StrictCompare (λ a b, cmp (f a) (f b)).
Proof.
  intros Hinj. split.
  - intros a b. rewrite (cmp_eq cmp). split; [apply Hinj|congruence].
  - intros a b. apply (cmp_antisym cmp).
  - intros a b c. apply (cmp_lt_trans cmp).
Qed.

Global Instance compareIdentifiers_strict : StrictCompare SemVer.compareIdentifiers.
Proof.
  split.
  - intros [n|x] [m|y]; simpl; try (split; congruence).
    + rewrite N.compare_eq_iff. split; congruence.
    + rewrite (cmp_eq String.compare). split; congruence.
  - intros [n|x] [m|y]; simpl; try done.
    + apply N.compare_antisym.
    + apply String.compare_antisym.
  - intros [n|x] [m|y] [k|z]; simpl; try done.
    + apply (cmp_lt_trans N.compare).
    + apply (cmp_lt_trans String.compare).
Qed.

Global Instance comparePrerelease_strict : StrictCompare SemVer.comparePrerelease.
Proof.
  split.
  - intros [|x a] [|y b]; try (simpl; split; congruence).
    apply (cmp_eq (compare_list SemVer.compareIdentifiers)).
  - intros [|x a] [|y b]; try done.
    apply (cmp_antisym (compare_list SemVer.compareIdentifiers)).
  - intros [|x a] [|y b] [|z c]; try done.
    apply (cmp_lt_trans (compare_list SemVer.compareIdentifiers)).
Qed.

Global Instance SemVer_compare_strict : StrictCompare SemVer.compare.
Proof.
  pose (view := λ v : SemVer.t,
    (SemVer.major v, (SemVer.minor v, (SemVer.patch v, SemVer.prerelease v)))).
  assert (Hinj : ∀ a b, view a = view b → a = b).
  { intros [] []; unfold view; simpl. congruence. }
  pose proof (strict_compare_via view
    (compare_pair N.compare (compare_pair N.compare
       (compare_pair N.compare SemVer.comparePrerelease))) Hinj) as H.
  destruct H as [H1 H2 H3]. split.
  - intros a b. rewrite <- H1. unfold SemVer.compare, SemVer.compareMain,
      SemVer.comparePre, compare_pair; simpl. by rewrite !lex_assoc.
  - intros a b. specialize (H2 a b). revert H2.
    unfold SemVer.compare, SemVer.compareMain, SemVer.comparePre, compare_pair;
      simpl. by rewrite !lex_assoc.
  - intros a b c. specialize (H3 a b c). revert H3.
    unfold SemVer.compare, SemVer.compareMain, SemVer.comparePre, compare_pair;
      simpl. by rewrite !lex_assoc.
Qed.

(** ** Sorting *)

Section sorting.
Context {A : Type} (cmp : A → A → comparison).

Lemma insert_by_perm x l : insert_by cmp x l ≡ₚ x :: l.
Proof.
  induction l as [|y l IH]; simpl; [done|].
  destruct (cmp x y); [|done|]; by rewrite IH, Permutation_swap.
Qed.

Lemma sort_from_perm acc l : sort_from cmp acc l ≡ₚ acc ++ l.
Proof.
  revert acc. induction l as [|x l IH]; intros acc; simpl.
  - by rewrite app_nil_r.
  - rewrite IH, insert_by_perm. simpl. apply Permutation_middle.
Qed.

Lemma insertC_pure (cmpC : A → A → Completion comparison) x l :
  (∀ y, y ∈ l → cmpC x y = Normal (cmp x y)) →
  insertC cmpC x l = Normal (insert_by cmp x l).
Proof.
  induction l as [|y l IH]; intros H; simpl; [done|].
  rewrite (H y) by apply list_elem_of_here. simpl.
  rewrite IH by (intros; apply H; by apply list_elem_of_further). simpl.
  by destruct (cmp x y).
Qed.

Lemma sortC_from_pure (cmpC : A → A → Completion comparison) acc l :
  (∀ x y, x ∈ acc ++ l → y ∈ acc ++ l → cmpC x y = Normal (cmp x y)) →
  sortC_from cmpC acc l = Normal (sort_from cmp acc l).
Proof.
  revert acc. induction l as [|x l IH]; intros acc H; simpl; [done|].
  rewrite insertC_pure
    by (intros; apply H; rewrite elem_of_app, ?elem_of_cons; auto).
  simpl.
  assert (Hin : ∀ a, a ∈ insert_by cmp x acc ++ l → a ∈ acc ++ x :: l).
  { intros a. rewrite !elem_of_app, insert_by_perm, !elem_of_cons. tauto. }
  apply IH. intros a b Ha Hb. apply H; auto.
Qed.

Context (Hanti : ∀ a b, cmp b a = CompOpp (cmp a b)).
Context (Htrans : ∀ a b c, cmp a b ≠ Gt → cmp b c ≠ Gt → cmp a c ≠ Gt).

Lemma insert_by_sorted x l :
  StronglySorted (λ a b, cmp a b ≠ Gt) l →
  StronglySorted (λ a b, cmp a b ≠ Gt) (insert_by cmp x l).
Proof.
  induction 1 as [|y l Hl IH Hy]; simpl.
  - repeat constructor.
  - assert (Hkeep : cmp x y ≠ Lt →
      StronglySorted (λ a b, cmp a b ≠ Gt) (y :: insert_by cmp x l)).
    { intros Hxy. constructor; [auto|].
      rewrite Forall_forall in Hy |- *. intros z.
      rewrite insert_by_perm, elem_of_cons.
      intros [Hz|Hz]; [subst z|by auto].
      rewrite (Hanti x y). by destruct (cmp x y). }
    destruct (cmp x y) eqn:E; [apply Hkeep; congruence| |apply Hkeep; congruence].
    constructor; [by constructor|].
    constructor; [congruence|].
    rewrite Forall_forall in Hy |- *. intros z Hz.
    eapply Htrans; [|by apply Hy]. congruence.
Qed.

Lemma sort_from_sorted acc l :
  StronglySorted (λ a b, cmp a b ≠ Gt) acc →
  StronglySorted (λ a b, cmp a b ≠ Gt) (sort_from cmp acc l).
Proof.
  revert acc. induction l as [|x l IH]; intros acc Hacc; simpl; [done|].
  by apply IH, insert_by_sorted.
Qed.

End sorting.

(** ** Objects *)

Lemma keys_have_props {V} (o : list (string * V)) k :
  k ∈ Object_keys o → is_Some (prop o k).
Proof.
  unfold Object_keys. induction o as [|[k' v] o IH]; simpl.
  - by intros ?%elem_of_nil.
  - intros [->|Hin]%elem_of_cons; case_decide; eauto; done.
Qed.

Lemma prop_Some_elem {V} (o : list (string * V)) k v :
  prop o k = Some v → (k, v) ∈ o.
Proof.
  induction o as [|[k' v'] o IH]; simpl; [done|].
  case_decide as Hk.
  - intros [= ->]. subst. apply list_elem_of_here.
  - intros H. by apply list_elem_of_further, IH.
Qed.

Lemma prop_assign_eq {V} (o : list (string * V)) k v :
  prop (assign o k v) k = Some v.
Proof.
  induction o as [|[k' v'] o IH]; simpl.
  - by rewrite decide_True.
  - case_decide as Hk; simpl; [by rewrite decide_True|]. by rewrite decide_False.
Qed.

Lemma prop_assign_ne {V} (o : list (string * V)) k k' v :
  k ≠ k' → prop (assign o k v) k' = prop o k'.
Proof.
  intros Hne. induction o as [|[k0 v0] o IH]; simpl.
  - by rewrite decide_False.
  - destruct (decide (k0 = k)) as [->|Hk]; simpl.
    + by rewrite !decide_False.
    + by rewrite IH.
Qed.

(** ** Gathering the backups *)

Lemma push_to_lookup `{Countable X} (m : gmap X (list string)) k k' b :
  push_to m k b !! k' =
    if decide (k = k') then Some (default [] (m !! k) ++ [b]) else m !! k'.
Proof.
  unfold push_to. destruct (m !! k) as [l|] eqn:E; simpl.
  - case_decide as Hk; [subst; apply lookup_insert_eq|by apply lookup_insert_ne].
  - case_decide as Hk; [subst; apply lookup_insert_eq|by apply lookup_insert_ne].
Qed.

Lemma nonempty_snoc {X} (l : list X) x :
  Some (default [] (nonempty l) ++ [x]) = nonempty (l ++ [x]).
Proof. by destruct l. Qed.

Section gathering.
Context (semver_parse : string → option SemVer.t).
Context (K : Constants).

Local Abbreviation isVersionOk := (isVersionOk semver_parse).
Local Abbreviation filteredBackups := (filteredBackups semver_parse).
Local Abbreviation visit := (visit semver_parse).
Local Abbreviation forEach := (forEach semver_parse).

Lemma elem_of_entries bk k r :
  (k, r) ∈ entries bk ↔ k ∈ Object_keys bk ∧ prop bk k = Some r.
Proof.
  unfold entries. rewrite list_elem_of_omap. split.
  - intros (k' & Hin & Hk). destruct (prop bk k') eqn:E; simplify_eq/=. done.
  - intros [Hin Hp]. exists k. by rewrite Hp.
Qed.

Lemma elem_of_filteredBackups valid bk k r :
  (k, r) ∈ filteredBackups valid bk ↔
    k ∈ Object_keys bk ∧ prop bk k = Some r ∧ isVersionOk valid (version r) = true.
Proof.
  unfold filteredBackups. rewrite list_elem_of_filter, elem_of_entries. simpl.
  rewrite Is_true_true. tauto.
Qed.

Lemma group_snoc {X} `{EqDecision X} (key : HealthData → X) fl kr x :
  group key (fl ++ [kr]) x =
    group key fl x ++ (if decide (key kr.2 = x) then [kr.1] else []).
Proof.
  unfold group. rewrite filter_app, fmap_app. f_equal.
  rewrite filter_cons, filter_nil. by case_decide.
Qed.

Lemma gathered_empty : gathered [] emptyAcc.
Proof. repeat split; intros; apply lookup_empty. Qed.

Lemma gathered_snoc fl acc k r :
  gathered fl acc →
  gathered (fl ++ [(k, r)])
    {| versions := versions acc ++ [version r];
       blockDiffs := blockDiffs acc ++ [block_difference r];
       versionMap := push_to (versionMap acc) (version r) k;
       blockDiffMap := push_to (blockDiffMap acc) (block_difference r) k |}.
Proof.
  intros (Hv & Hd & Hvm & Hdm). repeat split; simpl.
  - by rewrite Hv, fmap_app.
  - by rewrite Hd, fmap_app.
  - intros v. rewrite push_to_lookup, group_snoc; simpl.
    case_decide as E; [subst v|by rewrite app_nil_r].
    rewrite Hvm. apply nonempty_snoc.
  - intros d. rewrite push_to_lookup, group_snoc; simpl.
    case_decide as E; [subst d|by rewrite app_nil_r].
    rewrite Hdm. apply nonempty_snoc.
Qed.

Lemma forEach_gathered valid bk keys fl acc :
  (∀ k, k ∈ keys → is_Some (prop bk k)) →
  gathered fl acc →
  ∃ acc', forEach valid bk keys acc = Normal acc'
    ∧ gathered
        (fl ++ filter (λ kr, isVersionOk valid (version kr.2))
                 (omap (λ k, (k,.) <$> prop bk k) keys)) acc'.
Proof.
  revert fl acc. induction keys as [|k keys IH]; intros fl acc Hkeys Hacc.
  - exists acc. by rewrite app_nil_r.
  - destruct (Hkeys k) as [r Hr]; [apply list_elem_of_here|].
    assert (Hrest : ∀ k', k' ∈ keys → is_Some (prop bk k'))
      by (intros; apply Hkeys; by apply list_elem_of_further).
    change (forEach valid bk (k :: keys) acc)
      with (cbind (visit valid bk acc k) (forEach valid bk keys)).
    replace (omap (λ k, (k,.) <$> prop bk k) (k :: keys))
      with ((k, r) :: omap (λ k, (k,.) <$> prop bk k) keys)
      by (simpl; by rewrite Hr).
    unfold visit. rewrite Hr.
    destruct (isVersionOk valid (version r)) eqn:Hok; simpl.
    + rewrite filter_cons_True by (apply Is_true_true; exact Hok).
      replace (fl ++ (k, r) :: filter (λ kr, isVersionOk valid (version kr.2))
                 (omap (λ k, (k,.) <$> prop bk k) keys))
        with ((fl ++ [(k, r)]) ++ filter (λ kr, isVersionOk valid (version kr.2))
                 (omap (λ k, (k,.) <$> prop bk k) keys))
        by (by rewrite <- app_assoc).
      apply IH; [done|]. by apply gathered_snoc.
    + rewrite filter_cons_False by (rewrite Is_true_true; simpl; congruence).
      by apply IH.
Qed.

Lemma forEach_backups valid bk :
  ∃ acc, forEach valid bk (Object_keys bk) emptyAcc = Normal acc
    ∧ gathered (filteredBackups valid bk) acc.
Proof.
  destruct (forEach_gathered valid bk (Object_keys bk) [] emptyAcc)
    as (acc & Hrun & Hacc); [apply keys_have_props|apply gathered_empty|].
  by exists acc.
Qed.

End gathering.

(** ** Walking the versions *)

Section walking.
Context (semver_parse : string → option SemVer.t).
Context (K : Constants).

Local Abbreviation underThreshold := (underThreshold K).
Local Abbreviation pick := (pick K).
Local Abbreviation firstPick := (firstPick K).
Local Abbreviation rcompare_parsed := (rcompare_parsed semver_parse).

Lemma truthy_Some k : truthy (Some k) = true ↔ k ≠ "".
Proof.
  simpl. rewrite negb_true_iff. split.
  - intros H ->. by rewrite String.eqb_refl in H.
  - intros H. by apply String.eqb_neq.
Qed.

Lemma head_filter_Some {X} (P : X → Prop) `{∀ x, Decision (P x)} l x :
  head (filter P l) = Some x → x ∈ l ∧ P x.
Proof.
  intros Hh. assert (Hin : x ∈ filter P l).
  { destruct (filter P l) as [|y l'] eqn:E; simplify_eq/=. apply list_elem_of_here. }
  apply list_elem_of_filter in Hin. tauto.
Qed.

Lemma head_filter_None {X} (P : X → Prop) `{∀ x, Decision (P x)} l :
  head (filter P l) = None → ∀ x, x ∈ l → ¬ P x.
Proof.
  intros Hh x Hx HP.
  assert (Hin : x ∈ filter P l) by (by apply list_elem_of_filter).
  destruct (filter P l); [by apply elem_of_nil in Hin|done].
Qed.

Lemma pick_Some fl v kr :
  pick fl v = Some kr → kr ∈ fl ∧ version kr.2 = v ∧ underThreshold kr.
Proof.
  intros [[Hv Hin]%list_elem_of_filter Hu]%head_filter_Some. done.
Qed.

Lemma pick_None fl v kr :
  pick fl v = None → kr ∈ fl → version kr.2 = v → ¬ underThreshold kr.
Proof.
  intros Hp Hin Hv. eapply head_filter_None; [exact Hp|].
  by apply list_elem_of_filter.
Qed.

Lemma firstUnderThreshold_spec bk (ps : list (string * HealthData)) sel :
  (∀ kr, kr ∈ ps → prop bk kr.1 = Some kr.2) →
  firstUnderThreshold K bk (ps.*1) sel =
    Normal (match head (filter underThreshold ps) with
            | Some kr => Some kr.1
            | None => sel
            end).
Proof.
  induction ps as [|[k r] ps IH]; intros Hps; [done|].
  rewrite fmap_cons. cbn [firstUnderThreshold fst].
  pose proof (Hps (k, r) (list_elem_of_here _ _)) as Hhere. simpl in Hhere.
  rewrite Hhere. case_bool_decide as Hu.
  - by rewrite filter_cons_True.
  - rewrite filter_cons_False by done.
    apply IH. intros kr Hkr. by apply Hps, list_elem_of_further.
Qed.

Lemma versionLoop_firstPick bk fl (vmap : gmap string (list string)) vs sel :
  (∀ kr, kr ∈ fl → prop bk kr.1 = Some kr.2) →
  (∀ v, vmap !! v = nonempty (group version fl v)) →
  (∀ v, v ∈ vs → ∃ kr, kr ∈ fl ∧ version kr.2 = v) →
  truthy sel = false →
  versionLoop K bk vmap vs sel = Normal (fst <$> firstPick fl vs).
Proof.
  intros Hbk Hmap. revert sel.
  induction vs as [|v vs IH]; intros sel Hvs Hsel; [done|].
  assert (Hrest : ∀ v', v' ∈ vs → ∃ kr, kr ∈ fl ∧ version kr.2 = v')
    by (intros; by apply Hvs, list_elem_of_further).
  cbn [versionLoop Selector.firstPick]. rewrite Hmap. unfold group.
  destruct (Hvs v) as (kr0 & Hin0 & Hv0); [apply list_elem_of_here|].
  assert (Hne : filter (λ kr, version kr.2 = v) fl ≠ []).
  { intros E. assert (Hin : kr0 ∈ filter (λ kr, version kr.2 = v) fl)
      by (by apply list_elem_of_filter).
    rewrite E in Hin. by apply elem_of_nil in Hin. }
  destruct (filter (λ kr, version kr.2 = v) fl) as [|p ps] eqn:Efl; [done|].
  change (nonempty ((p :: ps).*1)) with (Some ((p :: ps).*1)). cbv iota.
  rewrite firstUnderThreshold_spec.
  2:{ intros kr Hkr. apply Hbk. rewrite <- Efl in Hkr.
      by apply list_elem_of_filter in Hkr as [_ ?]. }
  cbn [cbind]. unfold Selector.pick. rewrite Efl.
  destruct (head (filter underThreshold (p :: ps))) as [kr|] eqn:Eh.
  - destruct (truthy (Some kr.1)) eqn:Et; [done|]. by apply IH.
  - rewrite Hsel. by apply IH.
Qed.

Lemma firstPick_Some fl vs kr :
  firstPick fl vs = Some kr →
  kr ∈ fl ∧ underThreshold kr ∧ version kr.2 ∈ vs ∧ kr.1 ≠ ""
  ∧ pick fl (version kr.2) = Some kr.
Proof.
  induction vs as [|v vs IH]; [done|]. cbn [Selector.firstPick].
  assert (Hcont : firstPick fl vs = Some kr →
    kr ∈ fl ∧ underThreshold kr ∧ version kr.2 ∈ v :: vs ∧ kr.1 ≠ ""
    ∧ pick fl (version kr.2) = Some kr).
  { intros (? & ? & ? & ? & ?)%IH. repeat split; try done.
    by apply list_elem_of_further. }
  destruct (pick fl v) as [kr'|] eqn:Ep; [|done].
  destruct (truthy (Some kr'.1)) eqn:Et; [|done].
  intros [= ->]. apply pick_Some in Ep as Hp. destruct Hp as (Hin & Hv & Hu).
  repeat split; try done.
  - rewrite Hv. apply list_elem_of_here.
  - by apply truthy_Some.
  - by rewrite Hv.
Qed.

Lemma firstPick_None fl vs kr :
  (∀ kr', kr' ∈ fl → kr'.1 ≠ "") →
  firstPick fl vs = None →
  kr ∈ fl → version kr.2 ∈ vs → ¬ underThreshold kr.
Proof.
  intros Hkeys. induction vs as [|v vs IH]; [by intros _ _ ?%elem_of_nil|].
  cbn [Selector.firstPick]. destruct (pick fl v) as [kr'|] eqn:Ep.
  - apply pick_Some in Ep as (Hin' & _ & _).
    apply Hkeys, truthy_Some in Hin'. by rewrite Hin'.
  - intros Hn Hin [Hv|Hv]%elem_of_cons; [|by apply IH].
    by eapply pick_None.
Qed.

(** On a list sorted by [rcompare], the walk returns a record whose version
    is not older than that of any record under the threshold. *)
Lemma firstPick_newest fl vs kr kr' :
  (∀ kr0, kr0 ∈ fl → kr0.1 ≠ "") →
  StronglySorted (λ a b, rcompare_parsed a b ≠ Gt) vs →
  (∀ v, v ∈ vs → rcompare_parsed v v ≠ Gt) →
  firstPick fl vs = Some kr →
  kr' ∈ fl → underThreshold kr' → version kr'.2 ∈ vs →
  rcompare_parsed (version kr.2) (version kr'.2) ≠ Gt.
Proof.
  intros Hkeys Hsorted. induction Hsorted as [|v vs Hs IH Hall]; [done|].
  intros Hrefl. cbn [Selector.firstPick].
  assert (Hrefl' : ∀ v', v' ∈ vs → rcompare_parsed v' v' ≠ Gt)
    by (intros; by apply Hrefl, list_elem_of_further).
  destruct (pick fl v) as [kr0|] eqn:Ep.
  - apply pick_Some in Ep as Hp. destruct Hp as (Hin0 & Hv0 & Hu0).
    apply Hkeys, truthy_Some in Hin0 as Ht. rewrite Ht.
    intros [= ->] Hin' Hu' [Hv'|Hv']%elem_of_cons.
    + rewrite Hv0, Hv'. apply Hrefl, list_elem_of_here.
    + rewrite Hv0. rewrite Forall_forall in Hall. by apply Hall.
  - intros Hfp Hin' Hu' [Hv'|Hv']%elem_of_cons; [|by apply IH].
    exfalso. by eapply (pick_None fl v kr').
Qed.

End walking.

(** ** The version cache *)

Lemma with_cache_id s : with_cache s (validVersions s) (registryCalls s) = s.
Proof. by destruct s. Qed.

Section cache.
Context (K : Constants) (ethContracts : EthContracts).

Local Abbreviation NAME := (DISCOVERY_SERVICE_NAME K).
Local Abbreviation ensureValidVersions := (ensureValidVersions K ethContracts).
Local Abbreviation fetch := (λ n i : Z,
  pastServiceVersion ← call_getVersion K ethContracts (n - 2 - i);
  push_validVersion pastServiceVersion).

(** The fetching loop only touches the cache and the registry log, and the
    cache stays a list. *)
Lemma fetch_loop_frame n l s vv calls :
  ∃ c vv' calls',
    forM_ l (fetch n) (with_cache s (Some vv) calls)
    = (c, with_cache s (Some vv') calls').
Proof.
  revert vv calls. induction l as [|i l IH]; intros vv calls.
  - by exists (Normal tt), vv, calls.
  - cbn [forM_]. unfold mbind, M_bind at 1.
    unfold call_getVersion, mbind, M_bind, record_call, liftC, push_validVersion,
      get, set_validVersions, with_cache; simpl.
    destruct (getVersion ethContracts NAME (n - 2 - i)) as [v|e].
    + apply (IH (vv ++ [v]) (calls ++ [GetVersion NAME (n - 2 - i)])).
    + by exists (Throw e), vv, (calls ++ [GetVersion NAME (n - 2 - i)]).
Qed.

Lemma fetch_loop_success n (history : Z → string) l s vv calls :
  (∀ i, i ∈ l → getVersion ethContracts NAME (n - 2 - i) = Normal (history (n - 2 - i))) →
  forM_ l (fetch n) (with_cache s (Some vv) calls)
  = (Normal tt,
     with_cache s (Some (vv ++ ((λ i, history (n - 2 - i)) <$> l)))
       (calls ++ ((λ i, GetVersion NAME (n - 2 - i)) <$> l))).
Proof.
  revert vv calls. induction l as [|i l IH]; intros vv calls Hl.
  - by rewrite !app_nil_r.
  - cbn [forM_]. unfold mbind, M_bind at 1.
    unfold call_getVersion, mbind, M_bind, record_call, liftC, push_validVersion,
      get, set_validVersions, with_cache; simpl.
    rewrite (Hl i) by apply list_elem_of_here.
    etrans.
    { apply (IH (vv ++ [history (n - 2 - i)])
        (calls ++ [GetVersion NAME (n - 2 - i)])).
      intros j Hj. by apply Hl, list_elem_of_further. }
    by rewrite <- !app_assoc.
Qed.

Lemma ensure_cached s valid :
  validVersions s = Some valid → ensureValidVersions s = (Normal tt, s).
Proof.
  intros H. unfold Selector.ensureValidVersions, mbind, M_bind, get. by rewrite H.
Qed.

Lemma ensure_run s :
  ∃ c vv calls,
    ensureValidVersions s = (c, with_cache s (Some vv) calls)
    ∧ (∀ valid, validVersions s = Some valid →
         c = Normal tt ∧ vv = valid ∧ calls = registryCalls s).
Proof.
  destruct (validVersions s) as [valid|] eqn:Hv.
  - exists (Normal tt), valid, (registryCalls s). split.
    + rewrite (ensure_cached s valid Hv). f_equal.
      rewrite <- Hv. symmetry. apply with_cache_id.
    + by intros ? [= <-].
  - unfold Selector.ensureValidVersions, mbind, M_bind, get. rewrite Hv.
    unfold call_getNumberOfVersions, mbind, M_bind, record_call, liftC,
      set_validVersions; simpl.
    destruct (getNumberOfVersions ethContracts NAME) as [n|e].
    + destruct (fetch_loop_frame n
        (seqZ 0 (Z.min PREVIOUS_VERSIONS_TO_CHECK (n - 1))) s
        [currentVersion s] (registryCalls s ++ [GetNumberOfVersions NAME]))
        as (c & vv & calls & Hrun).
      exists c, vv, calls. split; [exact Hrun|done].
    + exists (Throw e), [currentVersion s],
        (registryCalls s ++ [GetNumberOfVersions NAME]). done.
Qed.

Lemma ensure_first s n (history : Z → string) :
  validVersions s = None →
  getNumberOfVersions ethContracts NAME = Normal n →
  (∀ i, 0 ≤ i < Z.min PREVIOUS_VERSIONS_TO_CHECK (n - 1) →
     getVersion ethContracts NAME (n - 2 - i) = Normal (history (n - 2 - i))) →
  ensureValidVersions s
  = (Normal tt,
     with_cache s
       (Some (currentVersion s ::
                ((λ i, history (n - 2 - i))
                   <$> seqZ 0 (Z.min PREVIOUS_VERSIONS_TO_CHECK (n - 1)))))
       (registryCalls s ++ GetNumberOfVersions NAME ::
          ((λ i, GetVersion NAME (n - 2 - i))
             <$> seqZ 0 (Z.min PREVIOUS_VERSIONS_TO_CHECK (n - 1))))).
Proof.
  intros Hv Hn Hget.
  unfold Selector.ensureValidVersions, mbind, M_bind, get. rewrite Hv.
  unfold call_getNumberOfVersions, mbind, M_bind, record_call, liftC,
    set_validVersions; simpl. rewrite Hn.
  etrans.
  { apply (fetch_loop_success n history
      (seqZ 0 (Z.min PREVIOUS_VERSIONS_TO_CHECK (n - 1))) s
      [currentVersion s] (registryCalls s ++ [GetNumberOfVersions NAME])).
    intros i Hi%elem_of_seqZ. apply Hget. lia. }
  by rewrite <- app_assoc.
Qed.

End cache.

(** ** Selecting among the backups *)

Section selecting.
Context (semver_parse : string → option SemVer.t).
Context (K : Constants) (ethContracts : EthContracts).

Local Abbreviation hasSameMajorAndMinorVersion :=
  (hasSameMajorAndMinorVersion semver_parse).
Local Abbreviation isVersionOk := (isVersionOk semver_parse).
Local Abbreviation filteredBackups := (filteredBackups semver_parse).
Local Abbreviation rcompare_parsed := (rcompare_parsed semver_parse).
Local Abbreviation semver_rcompare := (semver_rcompare semver_parse).
Local Abbreviation selectAmong := (selectAmong semver_parse K).
Local Abbreviation selectFromBackups :=
  (selectFromBackups semver_parse K ethContracts).
Local Abbreviation ensureValidVersions := (ensureValidVersions K ethContracts).
Local Abbreviation enterRegressedMode := (enterRegressedMode K).
Local Abbreviation firstPick := (firstPick K).
Local Abbreviation underThreshold := (underThreshold K).

Lemma hasSame_true a b :
  hasSameMajorAndMinorVersion a b = true ↔
    ∃ va vb, semver_parse a = Some va ∧ semver_parse b = Some vb
      ∧ SemVer.major va = SemVer.major vb ∧ SemVer.minor va = SemVer.minor vb.
Proof.
  unfold Selector.hasSameMajorAndMinorVersion.
  destruct (semver_parse a) as [va|], (semver_parse b) as [vb|];
    try (split; [done|by intros (? & ? & ? & ? & _)]).
  rewrite andb_true_iff, !N.eqb_eq. split.
  - intros [? ?]. by exists va, vb.
  - by intros (? & ? & [= <-] & [= <-] & ? & ?).
Qed.

Lemma isVersionOk_true valid v :
  isVersionOk valid v = true ↔
    ∃ x, x ∈ valid ∧ hasSameMajorAndMinorVersion x v = true.
Proof.
  unfold Selector.isVersionOk. rewrite existsb_exists.
  by setoid_rewrite list_elem_of_In.
Qed.

Lemma filtered_parses valid bk kr :
  kr ∈ filteredBackups valid bk → is_Some (semver_parse (version kr.2)).
Proof.
  destruct kr as [k r]. intros (_ & _ & Hok)%elem_of_filteredBackups.
  apply isVersionOk_true in Hok as (x & _ & Hx).
  apply hasSame_true in Hx as (? & vb & _ & Hvb & _). by exists vb.
Qed.

Lemma rcompare_parsed_antisym a b :
  rcompare_parsed b a = CompOpp (rcompare_parsed a b).
Proof.
  unfold Selector.rcompare_parsed.
  destruct (semver_parse a) as [va|], (semver_parse b) as [vb|]; try done.
  apply (cmp_antisym SemVer.compare).
Qed.

Lemma rcompare_parsed_trans a b c :
  rcompare_parsed a b ≠ Gt → rcompare_parsed b c ≠ Gt → rcompare_parsed a c ≠ Gt.
Proof.
  unfold Selector.rcompare_parsed.
  destruct (semver_parse a) as [va|], (semver_parse b) as [vb|],
    (semver_parse c) as [vc|]; try done.
  intros H1 H2. by apply (cmp_le_trans SemVer.compare vc vb va).
Qed.

Lemma rcompare_parsed_refl a : rcompare_parsed a a ≠ Gt.
Proof.
  unfold Selector.rcompare_parsed. destruct (semver_parse a); [|done].
  by rewrite (cmp_refl SemVer.compare).
Qed.

Lemma semver_rcompare_parsed a b :
  is_Some (semver_parse a) → is_Some (semver_parse b) →
  semver_rcompare a b = Normal (rcompare_parsed a b).
Proof.
  intros [va Ha] [vb Hb].
  unfold Selector.semver_rcompare, Selector.rcompare_parsed. by rewrite Ha, Hb.
Qed.

Lemma sorted_versions vs :
  StronglySorted (λ a b, rcompare_parsed a b ≠ Gt) (sort_from rcompare_parsed [] vs).
Proof.
  apply sort_from_sorted;
    [apply rcompare_parsed_antisym|apply rcompare_parsed_trans|constructor].
Qed.

Lemma enterRegressedMode_run s :
  enterRegressedMode s = (Normal tt, regressed K s).
Proof. done. Qed.

(** [selectAmong] as a function of the filtered records. *)
Lemma selectAmong_run valid s :
  selectAmong valid s =
    let fl := filteredBackups valid (backups s) in
    match firstPick fl (sort_from rcompare_parsed [] ((version ∘ snd) <$> fl)) with
    | Some kr => (Normal (Some kr.1), s)
    | None =>
        match head (sort_from default_order [] ((block_difference ∘ snd) <$> fl)) with
        | None =>
            (Throw (TypeError "Cannot read properties of undefined (reading '0')"), s)
        | Some d => (Normal (head (group block_difference fl d)), regressed K s)
        end
    end.
Proof.
  cbv zeta. set (fl := filteredBackups valid (backups s)).
  destruct (forEach_backups semver_parse valid (backups s))
    as (acc & Hrun & Hv & Hd & Hvm & Hdm). fold fl in Hv, Hd, Hvm, Hdm.
  unfold Selector.selectAmong, mbind, M_bind, get, liftC, mret, M_ret, throw.
  rewrite Hrun, Hv, Hd. unfold sortC.
  rewrite (sortC_from_pure rcompare_parsed).
  2:{ intros x y [kx [-> Hx]]%list_elem_of_fmap [ky [-> Hy]]%list_elem_of_fmap.
      apply semver_rcompare_parsed; by eapply filtered_parses. }
  rewrite (versionLoop_firstPick K (backups s) fl).
  - destruct (firstPick fl _) as [kr|]; [done|]. cbn [fmap option_fmap option_map].
    rewrite (sortC_from_pure default_order) by done.
    pose proof (sort_from_perm default_order [] ((block_difference ∘ snd) <$> fl))
      as Hperm.
    destruct (sort_from default_order [] _) as [|d ds] eqn:Es; [done|].
    cbn [head mbind option_bind]. rewrite Hdm.
    assert (Hin : d ∈ (block_difference ∘ snd) <$> fl)
      by (rewrite <- Hperm; apply list_elem_of_here).
    apply list_elem_of_fmap in Hin as (kr & Hd' & Hkr).
    unfold group.
    assert (Hg : kr ∈ filter (λ kr, block_difference kr.2 = d) fl)
      by (apply list_elem_of_filter; by split).
    destruct (filter (λ kr, block_difference kr.2 = d) fl) as [|p ps] eqn:Ef;
      [by apply elem_of_nil in Hg|done].
  - intros [k r] (_ & Hp & _)%elem_of_filteredBackups. done.
  - done.
  - intros v. rewrite sort_from_perm. simpl.
    intros (kr & -> & Hkr)%list_elem_of_fmap. by exists kr.
  - done.
Qed.

Lemma head_group {X} `{EqDecision X} (key : HealthData → X) fl d :
  d ∈ (key ∘ snd) <$> fl →
  ∃ kr, kr ∈ fl ∧ key kr.2 = d ∧ head (group key fl d) = Some kr.1.
Proof.
  intros (kr0 & Hd & Hin)%list_elem_of_fmap. unfold group.
  assert (Hg : kr0 ∈ filter (λ kr, key kr.2 = d) fl)
    by (apply list_elem_of_filter; by split).
  destruct (filter (λ kr, key kr.2 = d) fl) as [|p ps] eqn:Ef;
    [by apply elem_of_nil in Hg|].
  assert (Hp : p ∈ filter (λ kr, key kr.2 = d) fl)
    by (rewrite Ef; apply list_elem_of_here).
  apply list_elem_of_filter in Hp as [Hkey Hp]. by exists p.
Qed.

(** The three ways in which [selectAmong] ends. *)
Lemma selectAmong_cases valid s :
  let fl := filteredBackups valid (backups s) in
  let vs := sort_from rcompare_parsed [] ((version ∘ snd) <$> fl) in
  (∃ kr, firstPick fl vs = Some kr
     ∧ selectAmong valid s = (Normal (Some kr.1), s))
  ∨ (firstPick fl vs = None ∧ fl = []
     ∧ selectAmong valid s
       = (Throw (TypeError "Cannot read properties of undefined (reading '0')"), s))
  ∨ (firstPick fl vs = None
     ∧ ∃ kr, kr ∈ fl
       ∧ head (sort_from default_order [] ((block_difference ∘ snd) <$> fl))
         = Some (block_difference kr.2)
       ∧ selectAmong valid s = (Normal (Some kr.1), regressed K s)).
Proof.
  intros fl vs. rewrite selectAmong_run. cbv zeta. fold fl. fold vs.
  destruct (firstPick fl vs) as [kr|] eqn:Ep; [left; by exists kr|right].
  pose proof (sort_from_perm default_order [] ((block_difference ∘ snd) <$> fl))
    as Hperm.
  destruct (sort_from default_order [] _) as [|d ds] eqn:Es.
  - left. split; [done|]. split; [|done].
    symmetry in Hperm. apply Permutation_nil_r in Hperm.
    by apply fmap_nil_inv in Hperm.
  - right. split; [done|].
    destruct (head_group block_difference fl d) as (kr & Hin & Hd & Hh).
    { rewrite <- Hperm. apply list_elem_of_here. }
    exists kr. simpl. by rewrite Hd, Hh.
Qed.

Lemma selectFromBackups_run s :
  ∃ c vv calls,
    ensureValidVersions s = (c, with_cache s (Some vv) calls)
    ∧ (∀ valid, validVersions s = Some valid →
         c = Normal tt ∧ vv = valid ∧ calls = registryCalls s)
    ∧ selectFromBackups s =
        match c with
        | Normal _ => selectAmong vv (with_cache s (Some vv) calls)
        | Throw e => (Throw e, with_cache s (Some vv) calls)
        end.
Proof.
  destruct (ensure_run K ethContracts s) as (c & vv & calls & Hrun & Hcached).
  exists c, vv, calls. split; [done|]. split; [done|].
  unfold Selector.selectFromBackups, mbind, M_bind at 1. rewrite Hrun.
  by destruct c.
Qed.

End selecting.

(** * The claims about [selectFromBackups] *)

Section backup_claims.
Context (semver_parse : string → option SemVer.t).
Context (K : Constants) (ethContracts : EthContracts).

Local Abbreviation NAME := (DISCOVERY_SERVICE_NAME K).
Local Abbreviation hasSameMajorAndMinorVersion :=
  (hasSameMajorAndMinorVersion semver_parse).
Local Abbreviation filteredBackups := (filteredBackups semver_parse).
Local Abbreviation rcompare_parsed := (rcompare_parsed semver_parse).
Local Abbreviation selectAmong := (selectAmong semver_parse K).
Local Abbreviation selectFromBackups :=
  (selectFromBackups semver_parse K ethContracts).
Local Abbreviation ensureValidVersions := (ensureValidVersions K ethContracts).
Local Abbreviation firstPick := (firstPick K).
Local Abbreviation underThreshold := (underThreshold K).

(** A call of [selectFromBackups] whose cache is in place, cached already or
    fetched without a rejection, continues as [selectAmong] on that cache;
    the state differs from the initial one in the cache and the registry log
    only. *)
Lemma selectFromBackups_ready s s1 valid :
  ensureValidVersions s = (Normal tt, s1) →
  validVersions s1 = Some valid →
  selectFromBackups s = selectAmong valid s1
  ∧ backups s1 = backups s ∧ regressedMode s1 = regressedMode s
  ∧ timers s1 = timers s ∧ clock s1 = clock s.
Proof.
  intros Hens Hvalid.
  destruct (selectFromBackups_run semver_parse K ethContracts s)
    as (c & vv & calls & Hrun & _ & Hsel).
  rewrite Hens in Hrun. injection Hrun as <- ->.
  simpl in Hvalid. injection Hvalid as ->. by rewrite Hsel.
Qed.

Lemma filtered_keys_nonempty valid bk :
  (∀ k, k ∈ Object_keys bk → k ≠ "") →
  ∀ kr, kr ∈ filteredBackups valid bk → kr.1 ≠ "".
Proof.
  intros Hkeys [k r] (Hin & _)%elem_of_filteredBackups. by apply Hkeys.
Qed.

Lemma filtered_version_sorted valid bk kr :
  kr ∈ filteredBackups valid bk →
  version kr.2 ∈ sort_from rcompare_parsed []
                   ((version ∘ snd) <$> filteredBackups valid bk).
Proof.
  intros Hin. rewrite sort_from_perm. simpl.
  apply list_elem_of_fmap. by exists kr.
Qed.

(** C1, as amended.  When at least one BackupRecord passes the valid-version
    filter, [selectFromBackups] returns a candidate, one of the records that
    pass the filter.  Regressed mode is entered on the last-resort path only:
    a candidate found by the walk over the versions has its block difference
    under the threshold and is returned with [regressedMode] and the timers
    untouched; otherwise the walk found nothing, [regressedMode] becomes true
    and one expiry timer is added. *)
Theorem selectFromBackups_enters_regressed_mode_on_last_resort s s1 valid :
  ensureValidVersions s = (Normal tt, s1) →
  validVersions s1 = Some valid →
  filteredBackups valid (backups s) ≠ [] →
  ∃ e r s',
    selectFromBackups s = (Normal (Some e), s')
    ∧ (e, r) ∈ filteredBackups valid (backups s)
    ∧ ((underThreshold (e, r)
        ∧ regressedMode s' = regressedMode s ∧ timers s' = timers s)
       ∨ (regressedMode s' = true
          ∧ timers s' = timers s ++ [{| due := clock s + REGRESSED_MODE_TIMEOUT K |}]
          ∧ ((∀ k, k ∈ Object_keys (backups s) → k ≠ "") →
             ∀ kr, kr ∈ filteredBackups valid (backups s) → ¬ underThreshold kr))).
Proof.
  intros Hens Hvalid Hne.
  destruct (selectFromBackups_ready s s1 valid Hens Hvalid)
    as (-> & Hbk & Hreg & Htm & Hclk).
  destruct (selectAmong_cases semver_parse K valid s1)
    as [(kr & Hp & ->)|[(_ & Hnil & _)|(Hp & kr & Hin & _ & ->)]];
    rewrite Hbk in *.
  - apply firstPick_Some in Hp as (Hin & Hu & _).
    exists kr.1, kr.2, s1. rewrite <- surjective_pairing.
    split; [done|]. split; [done|]. by left.
  - done.
  - exists kr.1, kr.2, (regressed K s1). rewrite <- surjective_pairing.
    split; [done|]. split; [done|]. right. simpl. rewrite Htm, Hclk.
    split; [done|]. split; [done|]. intros Hkeys kr' Hin'.
    eapply firstPick_None; [|exact Hp|exact Hin'|].
    + by apply filtered_keys_nonempty.
    + by apply filtered_version_sorted.
Qed.

(** C2.  When no BackupRecord passes the valid-version filter, the empty map
    included, [selectFromBackups] does not return null: reading the first
    endpoint of the best block difference throws a TypeError.  Regressed
    mode and the timers are left as they were. *)
Theorem selectFromBackups_throws_without_valid_backup s s1 valid :
  ensureValidVersions s = (Normal tt, s1) →
  validVersions s1 = Some valid →
  filteredBackups valid (backups s) = [] →
  selectFromBackups s
  = (Throw (TypeError "Cannot read properties of undefined (reading '0')"), s1)
  ∧ regressedMode s1 = regressedMode s ∧ timers s1 = timers s.
Proof.
  intros Hens Hvalid Hnil.
  destruct (selectFromBackups_ready s s1 valid Hens Hvalid)
    as (-> & Hbk & Hreg & Htm & _).
  split; [|done]. rewrite selectAmong_run. cbv zeta. rewrite Hbk, Hnil. done.
Qed.

(** C7.  A candidate returned by [selectFromBackups] is a key of the backups
    map whose recorded version has the same major and minor number as some
    entry of the valid-version set; a backup whose version matches no valid
    version is never the one returned, on either path. *)
Theorem selectFromBackups_candidate_has_valid_version s e s' :
  selectFromBackups s = (Normal (Some e), s') →
  ∃ valid r,
    validVersions s' = Some valid
    ∧ e ∈ Object_keys (backups s) ∧ prop (backups s) e = Some r
    ∧ (∃ v, v ∈ valid ∧ hasSameMajorAndMinorVersion v (version r) = true)
    ∧ (∀ k rk, prop (backups s) k = Some rk →
         (∀ v, v ∈ valid → hasSameMajorAndMinorVersion v (version rk) = false) →
         e ≠ k).
Proof.
  intros Hsel.
  destruct (selectFromBackups_run semver_parse K ethContracts s)
    as (c & vv & calls & _ & _ & Hrun).
  rewrite Hrun in Hsel. destruct c as [[]|err]; [|done].
  set (s1 := with_cache s (Some vv) calls) in *.
  assert (∃ r, validVersions s' = Some vv ∧ (e, r) ∈ filteredBackups vv (backups s))
    as (r & Hvv & Hin).
  { destruct (selectAmong_cases semver_parse K vv s1)
      as [(kr & Hp & Heq)|[(_ & _ & Heq)|(_ & kr & Hin & _ & Heq)]];
      rewrite Heq in Hsel; simplify_eq.
    - apply firstPick_Some in Hp as (Hin & _). exists kr.2.
      by rewrite <- surjective_pairing.
    - exists kr.2. by rewrite <- surjective_pairing. }
  apply elem_of_filteredBackups in Hin as (Hkey & Hprop & Hok).
  apply isVersionOk_true in Hok as (v & Hv & Hsame).
  exists vv, r. repeat split; eauto.
  intros k rk Hk Hnone ->. rewrite Hprop in Hk. injection Hk as <-.
  rewrite (Hnone v Hv) in Hsame. done.
Qed.

(** C8.  Among the filtered backups whose block difference is under the
    threshold, the newest version wins: with endpoints that are non-empty
    strings, and two such backups [a] and [b] of which [a] runs the higher
    version, the call returns at once, without entering regressed mode, a
    candidate under the threshold that is the first one of its version in
    key order, whose version is not lower than that of any other filtered
    backup under the threshold; it is never [b], and it is [a] when no third
    backup is under the threshold. *)
Theorem selectFromBackups_newest_version_wins s s1 valid a ra b rb va vb :
  ensureValidVersions s = (Normal tt, s1) →
  validVersions s1 = Some valid →
  (∀ k, k ∈ Object_keys (backups s) → k ≠ "") →
  (a, ra) ∈ filteredBackups valid (backups s) →
  (b, rb) ∈ filteredBackups valid (backups s) →
  underThreshold (a, ra) → underThreshold (b, rb) →
  semver_parse (version ra) = Some va →
  semver_parse (version rb) = Some vb →
  SemVer.compare va vb = Gt →
  ∃ e r ve,
    selectFromBackups s = (Normal (Some e), s1)
    ∧ regressedMode s1 = regressedMode s ∧ timers s1 = timers s
    ∧ (e, r) ∈ filteredBackups valid (backups s)
    ∧ underThreshold (e, r)
    ∧ pick K (filteredBackups valid (backups s)) (version r) = Some (e, r)
    ∧ semver_parse (version r) = Some ve
    ∧ (∀ kr v, kr ∈ filteredBackups valid (backups s) → underThreshold kr →
         semver_parse (version kr.2) = Some v → SemVer.compare v ve ≠ Gt)
    ∧ SemVer.compare ve vb = Gt
    ∧ e ≠ b
    ∧ ((∀ kr, kr ∈ filteredBackups valid (backups s) → underThreshold kr →
          kr.1 = a ∨ kr.1 = b) → e = a).
Proof.
  intros Hens Hvalid Hkeys Ha Hb Hua Hub Hva Hvb Hgt.
  destruct (selectFromBackups_ready s s1 valid Hens Hvalid)
    as (-> & Hbk & Hreg & Htm & _).
  pose proof (filtered_keys_nonempty valid (backups s) Hkeys) as Hne.
  destruct (selectAmong_cases semver_parse K valid s1)
    as [(kr & Hp & ->)|[(Hp & _)|(Hp & _)]]; rewrite Hbk in *.
  2,3: exfalso; eapply (firstPick_None K _ _ (a, ra)); eauto;
       by apply filtered_version_sorted.
  apply firstPick_Some in Hp as Hkr. destruct Hkr as (Hin & Hu & _ & _ & Hpick).
  destruct (filtered_parses semver_parse valid (backups s) kr Hin) as [ve Hve].
  assert (Hnewest : ∀ kr' v, kr' ∈ filteredBackups valid (backups s) →
    underThreshold kr' → semver_parse (version kr'.2) = Some v →
    SemVer.compare v ve ≠ Gt).
  { intros kr' v Hin' Hu' Hv'.
    pose proof (firstPick_newest semver_parse K _ _ kr kr' Hne
      (sorted_versions semver_parse _)
      (λ v _, rcompare_parsed_refl semver_parse v) Hp Hin' Hu'
      (filtered_version_sorted valid (backups s) kr' Hin')) as Hle.
    unfold Selector.rcompare_parsed in Hle. by rewrite Hve, Hv' in Hle. }
  assert (Hcmp : SemVer.compare ve vb = Gt).
  { pose proof (Hnewest (a, ra) va Ha Hua Hva) as Hle.
    assert (Hba : SemVer.compare vb va = Lt)
      by (by rewrite (cmp_antisym SemVer.compare va vb), Hgt).
    destruct (SemVer.compare va ve) eqn:E; [| |done].
    - by apply (cmp_eq SemVer.compare) in E as <-.
    - pose proof (cmp_lt_trans SemVer.compare _ _ _ Hba E) as Hlt.
      by rewrite (cmp_antisym SemVer.compare vb ve), Hlt. }
  assert (Heb : kr.1 ≠ b).
  { intros Heq.
    apply elem_of_filteredBackups in Hb as (_ & Hpb & _).
    destruct kr as [e r]. simpl in *. subst e.
    apply elem_of_filteredBackups in Hin as (_ & Hpe & _).
    rewrite Hpb in Hpe. injection Hpe as <-.
    rewrite Hvb in Hve. injection Hve as <-.
    by rewrite (cmp_refl SemVer.compare) in Hcmp. }
  exists kr.1, kr.2, ve. rewrite <- surjective_pairing.
  repeat split; try done.
  intros Honly. by destruct (Honly kr Hin Hu).
Qed.

Lemma selectFromBackups_cache s :
  ∃ c vv calls,
    ensureValidVersions s = (c, with_cache s (Some vv) calls)
    ∧ validVersions (exec selectFromBackups s) = Some vv
    ∧ registryCalls (exec selectFromBackups s) = calls.
Proof.
  destruct (selectFromBackups_run semver_parse K ethContracts s)
    as (c & vv & calls & Hens & _ & Hrun).
  exists c, vv, calls. split; [done|]. unfold exec. rewrite Hrun.
  destruct c as [[]|err]; [|done].
  by destruct (selectAmong_cases semver_parse K vv (with_cache s (Some vv) calls))
    as [(kr & _ & ->)|[(_ & _ & ->)|(_ & kr & _ & _ & ->)]].
Qed.

(** C9.  The valid-version set is computed at most once.  A call that finds
    no cache and whose registry reads are answered builds it as the current
    version followed by the [min(5, numberOfVersions - 1)] versions at the
    indices [numberOfVersions - 2], [numberOfVersions - 3], ..., asking the
    registry for the count once and for exactly those entries; a call that
    finds a cache keeps it and asks the registry nothing; and every call,
    whatever its outcome, leaves a cache behind, so that only the first call
    ever asks. *)
Theorem validVersions_computed_once :
  (∀ s n (history : Z → string),
     validVersions s = None →
     getNumberOfVersions ethContracts NAME = Normal n →
     (∀ i, 0 ≤ i < Z.min PREVIOUS_VERSIONS_TO_CHECK (n - 1) →
        getVersion ethContracts NAME (n - 2 - i) = Normal (history (n - 2 - i))) →
     validVersions (exec selectFromBackups s)
     = Some (currentVersion s ::
               ((λ i, history (n - 2 - i))
                  <$> seqZ 0 (Z.min PREVIOUS_VERSIONS_TO_CHECK (n - 1))))
     ∧ registryCalls (exec selectFromBackups s)
       = registryCalls s ++ GetNumberOfVersions NAME ::
           ((λ i, GetVersion NAME (n - 2 - i))
              <$> seqZ 0 (Z.min PREVIOUS_VERSIONS_TO_CHECK (n - 1))))
  ∧ (∀ s valid,
       validVersions s = Some valid →
       validVersions (exec selectFromBackups s) = Some valid
       ∧ registryCalls (exec selectFromBackups s) = registryCalls s)
  ∧ (∀ s, is_Some (validVersions (exec selectFromBackups s))).
Proof.
  split; [|split].
  - intros s n history Hnone Hn Hget.
    destruct (selectFromBackups_cache s) as (c & vv & calls & Hens & -> & ->).
    rewrite (ensure_first K ethContracts s n history Hnone Hn Hget) in Hens.
    by injection Hens as <- <- <-.
  - intros s valid Hsome.
    destruct (selectFromBackups_cache s) as (c & vv & calls & Hens & -> & ->).
    rewrite (ensure_cached K ethContracts s valid Hsome) in Hens.
    rewrite <- (with_cache_id s) in Hens at 1. rewrite Hsome in Hens.
    by injection Hens as <- <- <-.
  - intros s.
    destruct (selectFromBackups_cache s) as (c & vv & calls & _ & -> & _).
    by exists vv.
Qed.

(** The walk over the versions only ever returns an endpoint whose block
    difference is strictly under the threshold. *)
Lemma firstUnderThreshold_under bk endpoints sel sel' :
  firstUnderThreshold K bk endpoints sel = Normal sel' →
  sel' = sel
  ∨ ∃ e r, sel' = Some e ∧ prop bk e = Some r
      ∧ block_difference r < UNHEALTHY_BLOCK_DIFF K.
Proof.
  induction endpoints as [|e rest IH]; simpl; [intros [= <-]; by left|].
  destruct (prop bk e) as [r|] eqn:Hr; [|done].
  case_bool_decide as Hu; [|exact IH].
  intros [= <-]. right. by exists e, r.
Qed.

Lemma versionLoop_under bk (vmap : gmap string (list string)) vs sel e :
  truthy sel = false →
  versionLoop K bk vmap vs sel = Normal (Some e) →
  ∃ r, prop bk e = Some r ∧ block_difference r < UNHEALTHY_BLOCK_DIFF K.
Proof.
  revert sel. induction vs as [|v vs IH]; intros sel Hfalsy; simpl; [done|].
  destruct (vmap !! v) as [endpoints|]; [|done].
  destruct (firstUnderThreshold K bk endpoints sel) as [sel'|] eqn:Hf; [|done].
  simpl. apply firstUnderThreshold_under in Hf as [->|(e' & r & -> & Hr & Hu)].
  - rewrite Hfalsy. by apply IH.
  - destruct (truthy (Some e')) eqn:Ht.
    + intros [= <-]. by exists r.
    + by apply IH.
Qed.

End backup_claims.

(** * The claims about [isHealthy] *)

Section health_claims.
Context (semver_parse : string → option SemVer.t).
Context (K : Constants) (config : Config).

Local Abbreviation isHealthy := (isHealthy semver_parse K config).
Local Abbreviation passes := (passes semver_parse K config).
Local Abbreviation firstFailure := (firstFailure semver_parse K config).
Local Abbreviation report_healthCheck := (report_healthCheck config).

(** The monitoring callback cannot make [isHealthy] throw: whatever it does,
    the report step returns, having written at most one line to the
    console. *)
Lemma report_healthCheck_run response s :
  ∃ out, report_healthCheck response s = (Normal tt, logged s out)
    ∧ (length out ≤ 1)%nat.
Proof.
  assert (Hid : s = logged s []) by (destruct s; unfold logged; simpl; by rewrite app_nil_r).
  unfold Selector.report_healthCheck.
  destruct (monitoringCallbacks_healthCheck config) as [healthCheck|].
  - unfold try_catch, mbind, M_bind, liftC.
    destruct (healthCheckArgs response (config_url response)) as [args|e].
    + destruct (healthCheck args) as [[]|e].
      * exists []. split; [by rewrite <- Hid|simpl; lia].
      * exists [ConsoleError e]. split; [done|simpl; lia].
    + exists [ConsoleError e]. split; [done|simpl; lia].
  - exists []. split; [by rewrite <- Hid|simpl; lia].
Qed.

Lemma firstFailure_unfold cur r :
  firstFailure cur r =
    if negb (passes cur r StatusCheck) then Some StatusCheck
    else if negb (passes cur r ServiceCheck) then Some ServiceCheck
    else if negb (passes cur r ParseCheck) then Some ParseCheck
    else if negb (passes cur r GenerationCheck) then Some GenerationCheck
    else if negb (passes cur r PatchCheck) then Some PatchCheck
    else if negb (passes cur r BlockDiffCheck) then Some BlockDiffCheck
    else if negb (passes cur r SlotDiffCheck) then Some SlotDiffCheck
    else None.
Proof. done. Qed.

Lemma firstFailure_None cur r :
  firstFailure cur r = None ↔ ∀ c, passes cur r c = true.
Proof.
  rewrite firstFailure_unfold. split.
  - intros H c.
    destruct (passes cur r StatusCheck) eqn:E1; [|done].
    destruct (passes cur r ServiceCheck) eqn:E2; [|done].
    destruct (passes cur r ParseCheck) eqn:E3; [|done].
    destruct (passes cur r GenerationCheck) eqn:E4; [|done].
    destruct (passes cur r PatchCheck) eqn:E5; [|done].
    destruct (passes cur r BlockDiffCheck) eqn:E6; [|done].
    destruct (passes cur r SlotDiffCheck) eqn:E7; [|done].
    by destruct c.
  - intros H. by rewrite !H.
Qed.

Lemma code_status cur r :
  Z.eqb (status r) 200 = passes cur r StatusCheck.
Proof.
  simpl. case_bool_decide as H; [by apply Z.eqb_eq|by apply Z.eqb_neq].
Qed.

Lemma code_service cur r :
  String.eqb (service (data (response_data r))) (DISCOVERY_SERVICE_NAME K)
  = passes cur r ServiceCheck.
Proof.
  simpl. case_bool_decide as H; [by apply String.eqb_eq|by apply String.eqb_neq].
Qed.

Lemma code_parse cur r :
  semver_valid semver_parse (version (data (response_data r)))
  = passes cur r ParseCheck.
Proof.
  unfold semver_valid. simpl.
  destruct (semver_parse (version (data (response_data r)))) as [v|].
  - by rewrite bool_decide_true.
  - rewrite bool_decide_false; [done|]. by intros [? ?].
Qed.

Lemma code_patch cur r :
  passes cur r GenerationCheck = true →
  ∃ p pc,
    semver_patch semver_parse (version (data (response_data r))) = Normal p
    ∧ semver_patch semver_parse cur = Normal pc
    ∧ bool_decide (p < pc)%N = negb (passes cur r PatchCheck).
Proof.
  simpl. intros (vc & vv & Hc & Hv & _)%hasSame_true.
  exists (SemVer.patch vv), (SemVer.patch vc).
  unfold semver_patch. rewrite Hc, Hv. repeat split.
  by rewrite bool_decide_not, negb_involutive.
Qed.

Lemma code_blockDiff cur r :
  bool_decide (block_difference (data (response_data r)) > UNHEALTHY_BLOCK_DIFF K)
  = negb (passes cur r BlockDiffCheck).
Proof. simpl. by rewrite bool_decide_not, negb_involutive. Qed.

Lemma code_slotDiff cur r :
  slotDiffUnhealthy config (slotDiffPlays_of (data (response_data r)))
  = negb (passes cur r SlotDiffCheck).
Proof.
  unfold slotDiffUnhealthy. simpl.
  destruct (slotDiffPlays_of _) as [sd|], (unhealthySlotDiffPlays config) as [l|];
    try done.
  by rewrite bool_decide_not, negb_involutive.
Qed.

(** The outcome of [isHealthy] for each first failing check. *)
Lemma isHealthy_run response urlMap s :
  ∃ out,
    (length out ≤ 1)%nat
    ∧ isHealthy response urlMap s =
      match firstFailure (currentVersion s) response with
      | None => (Normal true, logged s out)
      | Some c =>
          (Normal false,
           if recordsBackup c
           then exec (addBackup (canonical urlMap response)
                        (data (response_data response))) (logged s out)
           else logged s out)
      end.
Proof.
  destruct (report_healthCheck_run response s) as (out & Hrep & Hlen).
  exists out. split; [done|].
  rewrite firstFailure_unfold.
  unfold Selector.isHealthy. unfold mbind, M_bind at 1. rewrite Hrep.
  rewrite (code_status (currentVersion s)), (code_service (currentVersion s)),
    (code_parse (currentVersion s)), (code_blockDiff (currentVersion s)),
    (code_slotDiff (currentVersion s)).
  destruct (passes (currentVersion s) response StatusCheck); [|done].
  destruct (passes (currentVersion s) response ServiceCheck); [|done].
  destruct (passes (currentVersion s) response ParseCheck); [|done].
  cbn [negb]. unfold mbind, M_bind, get at 1. cbn [logged currentVersion].
  change (hasSameMajorAndMinorVersion semver_parse (currentVersion s)
            (version (data (response_data response))))
    with (passes (currentVersion s) response GenerationCheck).
  destruct (passes (currentVersion s) response GenerationCheck) eqn:Hgen; [|done].
  destruct (code_patch (currentVersion s) response Hgen) as (p & pc & -> & -> & Hlt).
  cbn [negb liftC]. cbv beta iota. rewrite Hlt. unfold exec.
  destruct (passes (currentVersion s) response PatchCheck); [|done].
  destruct (passes (currentVersion s) response BlockDiffCheck); [|done].
  by destruct (passes (currentVersion s) response SlotDiffCheck).
Qed.

Lemma find_first {X} (f : X → bool) l x :
  List.find f l = Some x →
  ∃ pre post, l = pre ++ x :: post ∧ f x = true ∧ ∀ y, y ∈ pre → f y = false.
Proof.
  induction l as [|y l IH]; simpl; [done|].
  destruct (f y) eqn:E.
  - intros [= <-]. exists [], l. repeat split; [done|]. by intros ? ?%elem_of_nil.
  - intros (pre & post & -> & Hx & Hpre)%IH. exists (y :: pre), post.
    repeat split; [done|]. by intros z [->|Hz]%elem_of_cons; auto.
Qed.

(** C6.  [isHealthy] always returns a verdict.  The verdict is true exactly
    when the response passes every check: status 200, expected service name,
    a version that parses, same major and minor as the current version,
    patch not behind, block difference not over the threshold, slot
    difference not over its threshold.  When it is false, the first check
    that fails in this order decides what happens to the backups: a
    BackupRecord is stored under the canonical endpoint when that check is
    the patch, block-difference or slot-difference check, and the backups
    are untouched when it is the status, service, parse or generation
    check. *)
Theorem isHealthy_verdict_and_backup response urlMap s :
  ∃ b s',
    isHealthy response urlMap s = (Normal b, s')
    ∧ (b = true ↔ ∀ c, passes (currentVersion s) response c = true)
    ∧ ((b = true ∧ backups s' = backups s)
       ∨ (∃ before c after,
            b = false
            ∧ checks = before ++ c :: after
            ∧ (∀ c', c' ∈ before → passes (currentVersion s) response c' = true)
            ∧ passes (currentVersion s) response c = false
            ∧ backups s' =
                if recordsBackup c
                then assign (backups s) (canonical urlMap response)
                       (data (response_data response))
                else backups s)).
Proof.
  destruct (isHealthy_run response urlMap s) as (out & _ & Hrun).
  pose proof (firstFailure_None (currentVersion s) response) as Hnone.
  destruct (firstFailure (currentVersion s) response) as [c|] eqn:Hff.
  - eexists false, _. split; [exact Hrun|]. split.
    + split; [done|]. intros Hall. by apply Hnone in Hall.
    + right. apply find_first in Hff as (before & after & Hchecks & Hc & Hbefore).
      exists before, c, after. split; [done|]. split; [done|]. split.
      { intros c' Hc'. apply Hbefore in Hc'. by apply negb_false_iff. }
      split; [by apply negb_true_iff|]. by destruct (recordsBackup c).
  - eexists true, _. split; [exact Hrun|]. split.
    + split; [intros _; by apply Hnone|done].
    + by left.
Qed.

(** The verdict at a block difference equal to the threshold: the
    block-difference check lets the response through, and what is left to
    decide is the slot-difference check. *)
Lemma isHealthy_at_threshold response urlMap s :
  (∀ c, c ∈ [StatusCheck; ServiceCheck; ParseCheck; GenerationCheck; PatchCheck] →
        passes (currentVersion s) response c = true) →
  block_difference (data (response_data response)) = UNHEALTHY_BLOCK_DIFF K →
  ∃ s', isHealthy response urlMap s
        = (Normal (passes (currentVersion s) response SlotDiffCheck), s').
Proof.
  intros Hearlier Hdiff.
  destruct (isHealthy_run response urlMap s) as (out & _ & Hrun).
  rewrite firstFailure_unfold in Hrun.
  rewrite !Hearlier in Hrun by (rewrite !elem_of_cons; tauto).
  assert (Hblock : passes (currentVersion s) response BlockDiffCheck = true).
  { simpl. apply bool_decide_eq_true. lia. }
  rewrite Hblock in Hrun. cbn [negb] in Hrun.
  destruct (passes (currentVersion s) response SlotDiffCheck);
    rewrite Hrun; by eexists.
Qed.

End health_claims.

(** * The threshold, seen from both sides *)

(** C10, as amended.  The threshold is inclusive for the health verdict and
    exclusive for the walk over the versions.  A response that passes the
    checks before the block-difference check, whose block difference equals
    the threshold and whose slot difference does not trip the last check, is
    healthy and leaves no BackupRecord; and the walk over the versions never
    returns an endpoint whose recorded block difference equals the
    threshold, since it asks for strictly less. *)
Theorem threshold_inclusive_for_health_exclusive_for_walk
  (semver_parse : string → option SemVer.t) (K : Constants) (config : Config) :
  (∀ response urlMap s,
     (∀ c, c ∈ [StatusCheck; ServiceCheck; ParseCheck; GenerationCheck; PatchCheck] →
           passes semver_parse K config (currentVersion s) response c = true) →
     block_difference (data (response_data response)) = UNHEALTHY_BLOCK_DIFF K →
     passes semver_parse K config (currentVersion s) response SlotDiffCheck = true →
     ∃ s', isHealthy semver_parse K config response urlMap s = (Normal true, s')
           ∧ backups s' = backups s)
  ∧ (∀ bk (vmap : gmap string (list string)) sortedVersions e r,
       versionLoop K bk vmap sortedVersions None = Normal (Some e) →
       prop bk e = Some r →
       block_difference r < UNHEALTHY_BLOCK_DIFF K
       ∧ block_difference r ≠ UNHEALTHY_BLOCK_DIFF K).
Proof.
  split.
  - intros response urlMap s Hearlier Hdiff Hslot.
    destruct (isHealthy_run semver_parse K config response urlMap s)
      as (out & _ & Hrun).
    assert (Hnone : firstFailure semver_parse K config (currentVersion s) response
                    = None).
    { apply firstFailure_None. intros c.
      destruct c; try (apply Hearlier; rewrite !elem_of_cons; tauto); [|done].
      simpl. apply bool_decide_eq_true. lia. }
    rewrite Hnone in Hrun. by exists (logged s out).
  - intros bk vmap vs e r Hwalk Hr.
    destruct (versionLoop_under K bk vmap vs None e eq_refl Hwalk) as (r' & Hr' & Hu).
    rewrite Hr in Hr'. injection Hr' as <-. lia.
Qed.

(** * Regressed mode and its timers *)

Section regressed_mode.
Context (K : Constants).

Local Abbreviation enterRegressedMode := (enterRegressedMode K).

Lemma leave_loop_run (l : list Timer) s :
  forM_ l (λ _, leaveRegressedMode) s
  = (Normal tt,
     {| currentVersion := currentVersion s;
        regressedMode := match l with [] => regressedMode s | _ => false end;
        validVersions := validVersions s; backups := backups s;
        decisionTree := decisionTree s; clock := clock s; timers := timers s;
        console := console s
                   ++ replicate (length l) (ConsoleInfo "Leaving regressed mode");
        registryCalls := registryCalls s |}).
Proof.
  revert s. induction l as [|tm l IH]; intros s.
  - simpl. rewrite app_nil_r. by destruct s.
  - cbn [forM_]. unfold mbind, M_bind at 1.
    unfold leaveRegressedMode, mbind, M_bind, console_log, set_regressedMode.
    rewrite IH. simpl. rewrite <- app_assoc. by destruct l.
Qed.

Lemma advance_to_run t s :
  advance_to t s
  = (Normal tt,
     {| currentVersion := currentVersion s;
        regressedMode :=
          match filter (λ tm, due tm ≤ t) (timers s) with
          | [] => regressedMode s
          | _ => false
          end;
        validVersions := validVersions s; backups := backups s;
        decisionTree := decisionTree s; clock := t;
        timers := filter (λ tm, t < due tm) (timers s);
        console := console s
                   ++ replicate (length (filter (λ tm, due tm ≤ t) (timers s)))
                        (ConsoleInfo "Leaving regressed mode");
        registryCalls := registryCalls s |}).
Proof.
  unfold advance_to, mbind, M_bind, get, set_clock, set_timers.
  by rewrite leave_loop_run.
Qed.

(** C4, as amended.  Every call of [enterRegressedMode] sets [regressedMode]
    and adds a timer of its own, due one timeout after the call, to the
    timers already pending; none is cancelled or replaced.  When the clock
    reaches a time, the timers due by then fire and are removed, and if
    there was one [regressedMode] is false; if none was due it is as before.
    Hence after two calls, the second within the timeout of the first, two
    timers are pending, and [regressedMode] is false from the first call
    plus the timeout on, without waiting for the second timer. *)
Theorem enterRegressedMode_stacks_timers :
  (∀ s, ∃ s',
     enterRegressedMode s = (Normal tt, s')
     ∧ regressedMode s' = true
     ∧ timers s' = timers s ++ [{| due := clock s + REGRESSED_MODE_TIMEOUT K |}])
  ∧ (∀ t s,
       timers (exec (advance_to t) s) = filter (λ tm, t < due tm) (timers s)
       ∧ ((∃ tm, tm ∈ timers s ∧ due tm ≤ t) →
          regressedMode (exec (advance_to t) s) = false)
       ∧ ((∀ tm, tm ∈ timers s → t < due tm) →
          regressedMode (exec (advance_to t) s) = regressedMode s))
  ∧ (∀ s t2 t,
       timers s = [] →
       clock s ≤ t2 < clock s + REGRESSED_MODE_TIMEOUT K →
       clock s + REGRESSED_MODE_TIMEOUT K ≤ t →
       let s2 := exec (enterRegressedMode;; advance_to t2;; enterRegressedMode) s in
       timers s2 = [{| due := clock s + REGRESSED_MODE_TIMEOUT K |};
                    {| due := t2 + REGRESSED_MODE_TIMEOUT K |}]
       ∧ regressedMode s2 = true
       ∧ regressedMode (exec (advance_to t) s2) = false).
Proof.
  split; [|split].
  - intros s. by exists (regressed K s).
  - intros t s. unfold exec. rewrite advance_to_run. simpl.
    split; [done|]. split.
    + intros (tm & Hin & Hdue).
      assert (Hf : tm ∈ filter (λ tm, due tm ≤ t) (timers s))
        by (by apply list_elem_of_filter).
      destruct (filter (λ tm, due tm ≤ t) (timers s));
        [by apply elem_of_nil in Hf|done].
    + intros Hnone.
      destruct (filter (λ tm, due tm ≤ t) (timers s)) as [|tm l] eqn:Ef; [done|].
      assert (Hf : tm ∈ filter (λ tm, due tm ≤ t) (timers s))
        by (rewrite Ef; apply list_elem_of_here).
      apply list_elem_of_filter in Hf as [Hdue Hin]. apply Hnone in Hin. lia.
  - intros s t2 t Hnil [H1 H2] Ht. cbv zeta. unfold exec.
    unfold mbind, M_bind. rewrite enterRegressedMode_run.
    rewrite advance_to_run, enterRegressedMode_run, advance_to_run. simpl.
    rewrite Hnil. simpl.
    rewrite !filter_cons, !filter_nil. simpl.
    rewrite decide_True by lia. simpl.
    rewrite filter_cons. simpl. by rewrite decide_True by lia.
Qed.

End regressed_mode.

(** * The callbacks *)

(** C5, the part of [select].  The selection callback is called outside any
    handler: when it throws, [select] throws the same exception instead of
    returning the endpoint that the round had selected. *)
Theorem select_callback_exception_propagates (config : Config)
  (super_select : M (option string)) s endpoint s1 callback e :
  super_select s = (Normal endpoint, s1) →
  selectionCallback config = Some callback →
  callback endpoint (decisionTree s1) = Throw e →
  (select config super_select s).1 = Throw e.
Proof.
  intros Hsuper Hcb Hthrow.
  unfold select, mbind, M_bind at 1. rewrite Hsuper.
  unfold mbind, M_bind, console_log, get, liftC. rewrite Hcb. simpl.
  by rewrite Hthrow.
Qed.

(** C5, the part of [isHealthy].  The monitoring callback is called inside
    a handler: two selectors that differ in that callback only, whether it
    throws or not, reach the same verdict and the same backups. *)
Lemma isHealthy_monitoring_exception_swallowed
  (semver_parse : string → option SemVer.t) (K : Constants)
  (config1 config2 : Config) response urlMap s :
  unhealthySlotDiffPlays config1 = unhealthySlotDiffPlays config2 →
  ∃ b s1 s2,
    isHealthy semver_parse K config1 response urlMap s = (Normal b, s1)
    ∧ isHealthy semver_parse K config2 response urlMap s = (Normal b, s2)
    ∧ backups s1 = backups s2.
Proof.
  intros Hslot.
  destruct (isHealthy_run semver_parse K config1 response urlMap s)
    as (out1 & _ & Hrun1).
  destruct (isHealthy_run semver_parse K config2 response urlMap s)
    as (out2 & _ & Hrun2).
  assert (Hff : firstFailure semver_parse K config1 (currentVersion s) response
                = firstFailure semver_parse K config2 (currentVersion s) response).
  { rewrite !firstFailure_unfold. simpl. by rewrite Hslot. }
  rewrite Hff in Hrun1. rewrite Hrun1, Hrun2.
  destruct (firstFailure semver_parse K config2 (currentVersion s) response) as [c|].
  - eexists false, _, _. repeat split. by destruct (recordsBackup c).
  - by eexists true, _, _.
Qed.

(** * The sample worlds *)

(** C1, counterexample.  With one backup under the threshold the call
    returns that backup and [regressedMode] stays false: not every non-null
    selection enters regressed mode. *)
Lemma selectFromBackups_walk_leaves_regressed_mode_off :
  (sampleSelect oneFreshBackup).1 = Normal (Some "https://dp1.example")
  ∧ regressedMode (sampleSelect oneFreshBackup).2 = false
  ∧ ¬ (∀ e s', sampleSelect oneFreshBackup = (Normal (Some e), s') →
               regressedMode s' = true).
Proof.
  split; [by vm_compute|]. split; [by vm_compute|].
  intros H.
  specialize (H "https://dp1.example" (sampleSelect oneFreshBackup).2).
  assert (Hrun : sampleSelect oneFreshBackup
    = (Normal (Some "https://dp1.example"), (sampleSelect oneFreshBackup).2))
    by (by vm_compute).
  apply H in Hrun. vm_compute in Hrun. done.
Qed.

(** C1, as amended, on two backups that are both too far behind. *)
Lemma selectFromBackups_enters_regressed_mode_on_last_resort_witness :
  filteredBackups parse_plain sampleValid (backups twoStaleBackups) ≠ []
  ∧ ∃ e r s',
      sampleSelect twoStaleBackups = (Normal (Some e), s')
      ∧ (e, r) ∈ filteredBackups parse_plain sampleValid (backups twoStaleBackups)
      ∧ ((underThreshold sampleConstants (e, r)
          ∧ regressedMode s' = regressedMode twoStaleBackups
          ∧ timers s' = timers twoStaleBackups)
         ∨ (regressedMode s' = true
            ∧ timers s' = timers twoStaleBackups
                ++ [{| due := clock twoStaleBackups
                              + REGRESSED_MODE_TIMEOUT sampleConstants |}]
            ∧ ((∀ k, k ∈ Object_keys (backups twoStaleBackups) → k ≠ "") →
               ∀ kr, kr ∈ filteredBackups parse_plain sampleValid
                             (backups twoStaleBackups) →
                     ¬ underThreshold sampleConstants kr))).
Proof.
  split; [by vm_compute|].
  apply (selectFromBackups_enters_regressed_mode_on_last_resort parse_plain
    sampleConstants sampleRegistry twoStaleBackups (cached twoStaleBackups)
    sampleValid).
  - reflexivity.
  - reflexivity.
  - vm_compute. discriminate.
Defined.

(** C2, on the stale cache: no backup passes the filter, and the call throws
    instead of returning null. *)
Lemma selectFromBackups_throws_without_valid_backup_witness :
  filteredBackups parse_plain sampleValid (backups staleCache) = []
  ∧ sampleSelect staleCache
    = (Throw (TypeError "Cannot read properties of undefined (reading '0')"),
       staleCache)
  ∧ regressedMode staleCache = regressedMode staleCache
  ∧ timers staleCache = timers staleCache.
Proof.
  split; [reflexivity|].
  apply (selectFromBackups_throws_without_valid_backup parse_plain
    sampleConstants sampleRegistry staleCache staleCache sampleValid);
    reflexivity.
Defined.

(** C2, on the empty map. *)
Example selectFromBackups_throws_on_empty_map :
  (sampleSelect (initialState "1.2.3" [])).1
  = Throw (TypeError "Cannot read properties of undefined (reading '0')").
Proof. by vm_compute. Qed.

(** C3.  With block differences 100 and 20, both over the threshold of 15,
    the last resort picks the endpoint that is 100 behind: sorted as
    strings, "100" comes before "20". *)
Theorem selectFromBackups_last_resort_sorts_as_strings :
  filteredBackups parse_plain sampleValid (backups twoStaleBackups)
  = [("https://dp1.example", healthData "1.2.3" 100);
     ("https://dp2.example", healthData "1.2.3" 20)]
  ∧ sort_from default_order [] [100; 20] = [100; 20]
  ∧ (sampleSelect twoStaleBackups).1 = Normal (Some "https://dp1.example")
  ∧ prop (backups twoStaleBackups) "https://dp1.example"
    = Some (healthData "1.2.3" 100)
  ∧ ¬ (∀ kr, kr ∈ filteredBackups parse_plain sampleValid (backups twoStaleBackups) →
             100 ≤ block_difference kr.2).
Proof.
  split; [by vm_compute|]. split; [by vm_compute|]. split; [by vm_compute|].
  split; [by vm_compute|].
  intros H.
  specialize (H ("https://dp2.example", healthData "1.2.3" 20)).
  assert (Hin : ("https://dp2.example", healthData "1.2.3" 20)
    ∈ filteredBackups parse_plain sampleValid (backups twoStaleBackups)).
  { apply elem_of_filteredBackups. repeat split; try by vm_compute.
    vm_compute. apply list_elem_of_further, list_elem_of_here. }
  apply H in Hin. simpl in Hin. lia.
Qed.

(** C4, counterexample.  A second call, made one minute after the first with
    a timeout of two minutes, leaves two timers pending, and [regressedMode]
    is false again two minutes after the first call, a minute before the
    second timer is due. *)
Lemma enterRegressedMode_second_call_keeps_first_timer :
  let twice :=
    exec (enterRegressedMode sampleConstants;; advance_to 60000;;
          enterRegressedMode sampleConstants) (initialState "1.2.3" []) in
  ¬ (length (timers twice) ≤ 1)%nat
  ∧ timers twice = [{| due := 120000 |}; {| due := 180000 |}]
  ∧ regressedMode twice = true
  ∧ regressedMode (exec (advance_to 120000) twice) = false
  ∧ 120000 < 60000 + REGRESSED_MODE_TIMEOUT sampleConstants.
Proof.
  cbv zeta. split; [vm_compute; lia|]. split; [by vm_compute|].
  split; [by vm_compute|]. split; [by vm_compute|]. by vm_compute.
Qed.

(** C4, as amended, on the same two calls. *)
Lemma enterRegressedMode_stacks_timers_witness :
  let s := initialState "1.2.3" [] in
  timers s = []
  ∧ (clock s ≤ 60000 < clock s + REGRESSED_MODE_TIMEOUT sampleConstants)
  ∧ clock s + REGRESSED_MODE_TIMEOUT sampleConstants ≤ 120000
  ∧ (let s2 := exec (enterRegressedMode sampleConstants;; advance_to 60000;;
                     enterRegressedMode sampleConstants) s in
     timers s2 = [{| due := clock s + REGRESSED_MODE_TIMEOUT sampleConstants |};
                  {| due := 60000 + REGRESSED_MODE_TIMEOUT sampleConstants |}]
     ∧ regressedMode s2 = true
     ∧ regressedMode (exec (advance_to 120000) s2) = false).
Proof.
  cbv zeta. split; [reflexivity|]. split; [simpl; lia|]. split; [simpl; lia|].
  apply (proj2 (proj2 (enterRegressedMode_stacks_timers sampleConstants))
           (initialState "1.2.3" []) 60000 120000).
  - reflexivity.
  - simpl. lia.
  - simpl. lia.
Defined.

(** C5: a round that selected an endpoint, followed by a selection callback
    that throws. *)
Lemma select_callback_exception_propagates_witness :
  (select throwingCallback (mret (Some "https://dp1.example"))
     (initialState "1.2.3" [])).1
  = Throw (Rejection "callback failed").
Proof.
  apply (select_callback_exception_propagates throwingCallback
    (mret (Some "https://dp1.example")) (initialState "1.2.3" [])
    (Some "https://dp1.example") (initialState "1.2.3" [])
    (λ _ _, Throw (Rejection "callback failed")) (Rejection "callback failed"));
    reflexivity.
Defined.

(** C5: the same round without a callback returns the endpoint. *)
Example select_without_callback_returns_endpoint :
  (select noCallbacks (mret (Some "https://dp1.example"))
     (initialState "1.2.3" [])).1
  = Normal (Some "https://dp1.example").
Proof. reflexivity. Qed.

(** C5: a monitoring callback that throws leaves the verdict of [isHealthy]
    alone; the exception ends up on the console. *)
Example isHealthy_with_throwing_monitor :
  isHealthy parse_plain sampleConstants throwingCallback
    (responseOf (healthData "1.2.3" 5)) sampleUrlMap (initialState "1.2.3" [])
  = (Normal true,
     logged (initialState "1.2.3" [])
       [ConsoleError (Rejection "callback failed")]).
Proof. by vm_compute. Qed.

(** C7, on the backup that is a patch behind. *)
Lemma selectFromBackups_candidate_has_valid_version_witness :
  sampleSelect oneFreshBackup
  = (Normal (Some "https://dp1.example"), cached oneFreshBackup)
  ∧ ∃ valid r,
      validVersions (cached oneFreshBackup) = Some valid
      ∧ "https://dp1.example" ∈ Object_keys (backups oneFreshBackup)
      ∧ prop (backups oneFreshBackup) "https://dp1.example" = Some r
      ∧ (∃ v, v ∈ valid
           ∧ hasSameMajorAndMinorVersion parse_plain v (version r) = true)
      ∧ (∀ k rk, prop (backups oneFreshBackup) k = Some rk →
           (∀ v, v ∈ valid →
                 hasSameMajorAndMinorVersion parse_plain v (version rk) = false) →
           "https://dp1.example" ≠ k).
Proof.
  split; [by vm_compute|].
  apply (selectFromBackups_candidate_has_valid_version parse_plain
    sampleConstants sampleRegistry oneFreshBackup "https://dp1.example"
    (cached oneFreshBackup)).
  by vm_compute.
Defined.

(** C8, on two backups under the threshold, at 1.2.1 and 1.2.2. *)
Lemma selectFromBackups_newest_version_wins_witness :
  ∃ e r ve,
    sampleSelect twoFreshBackups = (Normal (Some e), cached twoFreshBackups)
    ∧ regressedMode (cached twoFreshBackups) = regressedMode twoFreshBackups
    ∧ timers (cached twoFreshBackups) = timers twoFreshBackups
    ∧ (e, r) ∈ filteredBackups parse_plain sampleValid (backups twoFreshBackups)
    ∧ underThreshold sampleConstants (e, r)
    ∧ pick sampleConstants
        (filteredBackups parse_plain sampleValid (backups twoFreshBackups))
        (version r) = Some (e, r)
    ∧ parse_plain (version r) = Some ve
    ∧ (∀ kr v,
         kr ∈ filteredBackups parse_plain sampleValid (backups twoFreshBackups) →
         underThreshold sampleConstants kr →
         parse_plain (version kr.2) = Some v → SemVer.compare v ve ≠ Gt)
    ∧ SemVer.compare ve
        {| SemVer.major := 1; SemVer.minor := 2; SemVer.patch := 1;
           SemVer.prerelease := [] |} = Gt
    ∧ e ≠ "https://dp1.example"
    ∧ ((∀ kr,
          kr ∈ filteredBackups parse_plain sampleValid (backups twoFreshBackups) →
          underThreshold sampleConstants kr →
          kr.1 = "https://dp2.example" ∨ kr.1 = "https://dp1.example") →
       e = "https://dp2.example").
Proof.
  apply (selectFromBackups_newest_version_wins parse_plain sampleConstants
    sampleRegistry twoFreshBackups (cached twoFreshBackups) sampleValid
    "https://dp2.example" (healthData "1.2.2" 5)
    "https://dp1.example" (healthData "1.2.1" 3)
    {| SemVer.major := 1; SemVer.minor := 2; SemVer.patch := 2;
       SemVer.prerelease := [] |}
    {| SemVer.major := 1; SemVer.minor := 2; SemVer.patch := 1;
       SemVer.prerelease := [] |}).
  - reflexivity.
  - reflexivity.
  - intros k Hk. vm_compute in Hk.
    apply elem_of_cons in Hk as [->|Hk]; [discriminate|].
    apply elem_of_cons in Hk as [->|Hk]; [discriminate|].
    by apply elem_of_nil in Hk.
  - vm_compute. apply list_elem_of_further, list_elem_of_here.
  - vm_compute. apply list_elem_of_here.
  - unfold underThreshold. simpl. lia.
  - unfold underThreshold. simpl. lia.
  - reflexivity.
  - reflexivity.
  - reflexivity.
Defined.

(** C8 asks for endpoints that are not the empty string: [if (selected)]
    takes an empty string for no selection, and the walk moves on to the
    next version. *)
Example walk_passes_over_empty_endpoint :
  (sampleSelect emptyEndpoint).1 = Normal (Some "https://dp1.example").
Proof. by vm_compute. Qed.

(** C8: the two backups of the sample world; the newer one is returned
    although it comes second in the map and is further behind in blocks. *)
Example selectFromBackups_prefers_newer_version :
  (sampleSelect twoFreshBackups).1 = Normal (Some "https://dp2.example").
Proof. by vm_compute. Qed.

(** C9, on a first and a second call against the sample registry. *)
Lemma validVersions_computed_once_witness :
  (validVersions oneFreshBackup = None
   ∧ validVersions (exec sampleSelect oneFreshBackup)
     = Some ["1.2.3"; "1.2.2"; "1.1.9"]
   ∧ registryCalls (exec sampleSelect oneFreshBackup)
     = [GetNumberOfVersions "discovery-provider";
        GetVersion "discovery-provider" 1; GetVersion "discovery-provider" 0])
  ∧ (validVersions (exec sampleSelect oneFreshBackup) = Some sampleValid
     ∧ validVersions (exec sampleSelect (exec sampleSelect oneFreshBackup))
       = Some sampleValid
     ∧ registryCalls (exec sampleSelect (exec sampleSelect oneFreshBackup))
       = registryCalls (exec sampleSelect oneFreshBackup)).
Proof.
  pose proof (validVersions_computed_once parse_plain sampleConstants
    sampleRegistry) as (Hfirst & Hlater & _).
  split.
  - split; [reflexivity|].
    assert (Hget : ∀ i, 0 ≤ i < Z.min PREVIOUS_VERSIONS_TO_CHECK (3 - 1) →
      getVersion sampleRegistry (DISCOVERY_SERVICE_NAME sampleConstants) (3 - 2 - i)
      = Normal ((λ j, if Z.eqb j 1 then "1.2.2" else "1.1.9") (3 - 2 - i))).
    { intros i Hi. change (Z.min PREVIOUS_VERSIONS_TO_CHECK (3 - 1)) with 2 in Hi.
      destruct (decide (i = 0)) as [->|]; [reflexivity|].
      destruct (decide (i = 1)) as [->|]; [reflexivity|lia]. }
    exact (Hfirst oneFreshBackup 3 (λ j, if Z.eqb j 1 then "1.2.2" else "1.1.9")
             eq_refl eq_refl Hget).
  - split; [by vm_compute|].
    apply (Hlater (exec sampleSelect oneFreshBackup) sampleValid).
    by vm_compute.
Defined.

(** C9, when the registry fails: the call is rejected, the list begun with
    the current version stays in the cache, and the next call works from it
    without asking again. *)
Example rejected_read_leaves_cache_behind :
  let first :=
    selectFromBackups parse_plain sampleConstants failingRegistry oneFreshBackup in
  first.1 = Throw (Rejection "request timed out")
  ∧ validVersions first.2 = Some ["1.2.3"]
  ∧ registryCalls
      (exec (selectFromBackups parse_plain sampleConstants failingRegistry) first.2)
    = registryCalls first.2.
Proof. cbv zeta. repeat split; by vm_compute. Qed.

(** C10, counterexample.  A response of the current version whose block
    difference equals the threshold passes every check up to the
    block-difference check, and is still rejected, because its slot
    difference is over the limit. *)
Lemma isHealthy_at_threshold_rejected_by_slot_check :
  let response := responseOf (withSlotDiff (healthData "1.2.3" 15) 100) in
  let s := initialState "1.2.3" [] in
  (∀ c, c ∈ [StatusCheck; ServiceCheck; ParseCheck; GenerationCheck; PatchCheck] →
        passes parse_plain sampleConstants watchSlots (currentVersion s) response c
        = true)
  ∧ block_difference (data (response_data response))
    = UNHEALTHY_BLOCK_DIFF sampleConstants
  ∧ (isHealthy parse_plain sampleConstants watchSlots response sampleUrlMap s).1
    = Normal false.
Proof.
  cbv zeta. split; [|split; by vm_compute].
  intros c Hc. repeat (apply elem_of_cons in Hc as [->|Hc]; [by vm_compute|]).
  by apply elem_of_nil in Hc.
Qed.

(** C10, as amended, on a response at the threshold whose slot difference
    is within the limit, and on a walk over one backup. *)
Lemma threshold_inclusive_for_health_exclusive_for_walk_witness :
  let response := responseOf (withSlotDiff (healthData "1.2.3" 15) 10) in
  let s := initialState "1.2.3" [] in
  (∃ s', isHealthy parse_plain sampleConstants watchSlots response sampleUrlMap s
         = (Normal true, s')
         ∧ backups s' = backups s)
  ∧ (versionLoop sampleConstants (backups oneFreshBackup)
       {[ "1.2.2" := ["https://dp1.example"] ]} ["1.2.2"] None
     = Normal (Some "https://dp1.example")
     ∧ 5 < UNHEALTHY_BLOCK_DIFF sampleConstants
     ∧ 5 ≠ UNHEALTHY_BLOCK_DIFF sampleConstants).
Proof.
  cbv zeta.
  pose proof (threshold_inclusive_for_health_exclusive_for_walk parse_plain
    sampleConstants watchSlots) as [Hhealth Hwalk].
  split.
  - apply Hhealth.
    + intros c Hc.
      repeat (apply elem_of_cons in Hc as [->|Hc]; [by vm_compute|]).
      by apply elem_of_nil in Hc.
    + reflexivity.
    + by vm_compute.
  - split; [by vm_compute|].
    apply (Hwalk (backups oneFreshBackup) {[ "1.2.2" := ["https://dp1.example"] ]}
      ["1.2.2"] "https://dp1.example" (healthData "1.2.2" 5)).
    + by vm_compute.
    + by vm_compute.
Defined.

(** * The examples of the specification *)

(** A at the current version and five blocks behind is healthy; B, a patch
    behind, is rejected and kept as a backup. *)
Example spec_example_healthy_and_backup :
  let s := initialState "1.2.3" [] in
  (isHealthy parse_plain sampleConstants noCallbacks
     (responseOf (healthData "1.2.3" 5)) sampleUrlMap s).1 = Normal true
  ∧ isHealthy parse_plain sampleConstants noCallbacks
      (responseOf (healthData "1.2.2" 3)) sampleUrlMap s
    = (Normal false,
       initialState "1.2.3" [("https://dp1.example", healthData "1.2.2" 3)]).
Proof. split; by vm_compute. Qed.

(** With 1.1.9 among the valid versions, a backup at 1.1.9 and fifty blocks
    behind is selected and regressed mode becomes true. *)
Example spec_example_backup_of_older_generation :
  let s := initialState "1.2.3" [("https://dp2.example", healthData "1.1.9" 50)] in
  (sampleSelect s).1 = Normal (Some "https://dp2.example")
  ∧ regressedMode (sampleSelect s).2 = true.
Proof. split; by vm_compute. Qed.

(** * The life of a selector *)

Section life_facts.
Context (semver_parse : string → option SemVer.t).
Context (K : Constants) (ethContracts : EthContracts) (config : Config).
Context (roster : RosterContracts).

Local Abbreviation perform := (perform semver_parse K ethContracts config roster).
Local Abbreviation perform_all :=
  (perform_all semver_parse K ethContracts config roster).
Local Abbreviation timers_within_timeout := (timers_within_timeout K).

Local Abbreviation entered := (entered K).

Lemma getServices_shape s :
  quiet s (exec (getServices K roster) s)
  ∧ keeps_cache s (exec (getServices K roster) s).
Proof.
  unfold exec, getServices, mbind, M_bind, liftC, set_currentVersion, mret, M_ret.
  destruct (getCurrentVersion roster _) as [v|e]; [|done].
  by destruct (getServiceProviderList roster _).
Qed.

Lemma isHealthy_shape response urlMap s :
  quiet s (exec (isHealthy semver_parse K config response urlMap) s)
  ∧ keeps_cache s (exec (isHealthy semver_parse K config response urlMap) s).
Proof.
  destruct (isHealthy_run semver_parse K config response urlMap s)
    as (out & _ & Hrun).
  unfold exec. rewrite Hrun.
  destruct (firstFailure semver_parse K config (currentVersion s) response)
    as [c|]; [|done].
  by destruct (recordsBackup c).
Qed.

Lemma selectFromBackups_shape s :
  (quiet s (exec (selectFromBackups semver_parse K ethContracts) s)
   ∨ entered s (exec (selectFromBackups semver_parse K ethContracts) s))
  ∧ keeps_cache s (exec (selectFromBackups semver_parse K ethContracts) s).
Proof.
  destruct (selectFromBackups_run semver_parse K ethContracts s)
    as (c & vv & calls & _ & Hcached & Hrun).
  unfold exec. rewrite Hrun.
  assert (Hkeep : ∀ s', validVersions s' = Some vv → registryCalls s' = calls →
    keeps_cache s s').
  { intros s' Hvv Hcalls valid Hvalid.
    destruct (Hcached valid Hvalid) as (_ & -> & ->). done. }
  destruct c as [[]|err]; [|split; [by left|by apply Hkeep]].
  destruct (selectAmong_cases semver_parse K vv (with_cache s (Some vv) calls))
    as [(kr & _ & ->)|[(_ & _ & ->)|(_ & kr & _ & _ & ->)]].
  - split; [by left|by apply Hkeep].
  - split; [by left|by apply Hkeep].
  - split; [by right|by apply Hkeep].
Qed.

Lemma perform_shape op s :
  (quiet s (perform op s) ∨ entered s (perform op s) ∨ passed s (perform op s))
  ∧ keeps_cache s (perform op s).
Proof.
  destruct op as [|response urlMap| | | |elapsed]; simpl.
  - destruct (getServices_shape s). auto.
  - destruct (isHealthy_shape response urlMap s). auto.
  - destruct (selectFromBackups_shape s) as [[?|?] ?]; auto.
  - split; [right; left; done|done].
  - split; [left; done|done].
  - unfold exec. rewrite advance_to_run. split; [|done].
    right; right. unfold passed; simpl. split; [lia|done].
Qed.

Lemma regressed_mode_expires_step op s :
  regressed_mode_expires s → regressed_mode_expires (perform op s).
Proof.
  intros Hinv.
  destruct (perform_shape op s) as [[(Hr & Ht & _)|[(Hr & Ht & _)|(_ & Ht & Hr)]] _];
    unfold regressed_mode_expires.
  - rewrite Hr, Ht. exact Hinv.
  - rewrite Ht. intros _ [_ ?]%app_eq_nil. done.
  - rewrite Hr, Ht.
    destruct (filter (λ tm, due tm ≤ clock (perform op s)) (timers s))
      as [|tm l] eqn:Efired; [|done].
    intros Hreg Hnone. apply Hinv in Hreg.
    destruct (timers s) as [|tm0 l0] eqn:Etm; [done|].
    assert (Hin : tm0 ∈ tm0 :: l0) by apply list_elem_of_here.
    destruct (decide (due tm0 ≤ clock (perform op s))) as [Hdue|Hdue].
    + assert (Hf : tm0 ∈ filter (λ tm, due tm ≤ clock (perform op s)) (tm0 :: l0))
        by (by apply list_elem_of_filter).
      rewrite Efired in Hf. by apply elem_of_nil in Hf.
    + assert (Hf : tm0 ∈ filter (λ tm, clock (perform op s) < due tm) (tm0 :: l0))
        by (apply list_elem_of_filter; split; [lia|done]).
      rewrite Hnone in Hf. by apply elem_of_nil in Hf.
Qed.

Lemma timers_within_timeout_step op s :
  0 ≤ REGRESSED_MODE_TIMEOUT K →
  timers_within_timeout s → timers_within_timeout (perform op s).
Proof.
  intros HT Hinv.
  destruct (perform_shape op s) as [[(_ & Ht & Hc)|[(_ & Ht & Hc)|(Hc & Ht & _)]] _];
    unfold Life.timers_within_timeout; rewrite Ht.
  - rewrite Hc. exact Hinv.
  - rewrite Hc. intros tm [Hin|Hin]%elem_of_app; [by apply Hinv|].
    apply list_elem_of_singleton in Hin as ->. simpl. lia.
  - intros tm [_ Hin]%list_elem_of_filter. apply Hinv in Hin. lia.
Qed.

Lemma perform_all_snoc ops op s :
  perform_all (ops ++ [op]) s = perform op (perform_all ops s).
Proof. unfold Life.perform_all. by rewrite fold_left_app. Qed.

Lemma life_invariants ops s :
  0 ≤ REGRESSED_MODE_TIMEOUT K →
  regressed_mode_expires s → timers_within_timeout s →
  regressed_mode_expires (perform_all ops s)
  ∧ timers_within_timeout (perform_all ops s).
Proof.
  intros HT Hexp Hwithin. induction ops as [|op ops IH] using rev_ind; [done|].
  rewrite perform_all_snoc. destruct IH as [IH1 IH2]. split.
  - by apply regressed_mode_expires_step.
  - by apply timers_within_timeout_step.
Qed.

End life_facts.

(** * More on [selectFromBackups] *)

Section more_backup_facts.
Context (semver_parse : string → option SemVer.t).
Context (K : Constants) (ethContracts : EthContracts).

Local Abbreviation NAME := (DISCOVERY_SERVICE_NAME K).
Local Abbreviation hasSameMajorAndMinorVersion :=
  (hasSameMajorAndMinorVersion semver_parse).
Local Abbreviation isVersionOk := (isVersionOk semver_parse).
Local Abbreviation filteredBackups := (filteredBackups semver_parse).
Local Abbreviation rcompare_parsed := (rcompare_parsed semver_parse).
Local Abbreviation selectAmong := (selectAmong semver_parse K).
Local Abbreviation selectFromBackups :=
  (selectFromBackups semver_parse K ethContracts).
Local Abbreviation ensureValidVersions := (ensureValidVersions K ethContracts).
Local Abbreviation firstPick := (firstPick K).
Local Abbreviation underThreshold := (underThreshold K).
Local Abbreviation fetch := (λ n i : Z,
  pastServiceVersion ← call_getVersion K ethContracts (n - 2 - i);
  push_validVersion pastServiceVersion).

Lemma with_cache_inj s v1 c1 v2 c2 :
  with_cache s v1 c1 = with_cache s v2 c2 → v1 = v2 ∧ c1 = c2.
Proof. unfold with_cache. by intros [= -> ->]. Qed.






Lemma selectFromBackups_cached s valid :
  validVersions s = Some valid →
  selectFromBackups s = selectAmong valid s.
Proof.
  intros Hv.
  destruct (selectFromBackups_run semver_parse K ethContracts s)
    as (c & vv & calls & _ & Hcached & ->).
  destruct (Hcached valid Hv) as (-> & -> & ->).
  by rewrite <- Hv, with_cache_id.
Qed.

(** The reads made by the fetching loop are the first of the reads it was
    asked for, and it caches one version for each read but a failed one. *)
Lemma fetch_loop_prefix n l s vv calls :
  ∃ c l1 l2 vs,
    l = l1 ++ l2
    ∧ forM_ l (fetch n) (with_cache s (Some vv) calls)
      = (c, with_cache s (Some (vv ++ vs))
              (calls ++ ((λ i, GetVersion NAME (n - 2 - i)) <$> l1)))
    ∧ (length vs ≤ length l1)%nat.
Proof.
  revert vv calls. induction l as [|i l IH]; intros vv calls.
  - exists (Normal tt), [], [], []. by rewrite !app_nil_r.
  - cbn [forM_]. unfold mbind, M_bind at 1.
    unfold call_getVersion, mbind, M_bind, record_call, liftC, push_validVersion,
      get, set_validVersions, with_cache; simpl.
    destruct (getVersion ethContracts NAME (n - 2 - i)) as [v|e].
    + destruct (IH (vv ++ [v]) (calls ++ [GetVersion NAME (n - 2 - i)]))
        as (c & l1 & l2 & vs & -> & Hrun & Hlen).
      exists c, (i :: l1), l2, (v :: vs). split; [done|]. split; [|simpl; lia].
      etrans; [exact Hrun|]. unfold with_cache. simpl. by rewrite <- !app_assoc.
    + exists (Throw e), [i], l, []. split; [done|]. split; [|simpl; lia].
      by rewrite app_nil_r.
Qed.

Lemma ensure_first_reads s n :
  validVersions s = None →
  getNumberOfVersions ethContracts NAME = Normal n →
  ∃ c l1 l2 vs,
    seqZ 0 (Z.min PREVIOUS_VERSIONS_TO_CHECK (n - 1)) = l1 ++ l2
    ∧ ensureValidVersions s
      = (c, with_cache s (Some (currentVersion s :: vs))
              (registryCalls s ++ GetNumberOfVersions NAME ::
                 ((λ i, GetVersion NAME (n - 2 - i)) <$> l1)))
    ∧ (length vs ≤ length l1)%nat.
Proof.
  intros Hv Hn.
  unfold Selector.ensureValidVersions, mbind, M_bind, get. rewrite Hv.
  unfold call_getNumberOfVersions, mbind, M_bind, record_call, liftC,
    set_validVersions; simpl. rewrite Hn.
  destruct (fetch_loop_prefix n (seqZ 0 (Z.min PREVIOUS_VERSIONS_TO_CHECK (n - 1)))
    s [currentVersion s] (registryCalls s ++ [GetNumberOfVersions NAME]))
    as (c & l1 & l2 & vs & Hsplit & Hrun & Hlen).
  exists c, l1, l2, vs. split; [done|]. split; [|done].
  etrans; [exact Hrun|]. by rewrite <- app_assoc.
Qed.

Lemma hasSame_trans a b c :
  hasSameMajorAndMinorVersion a b = true →
  hasSameMajorAndMinorVersion b c = true →
  hasSameMajorAndMinorVersion a c = true.
Proof.
  rewrite !hasSame_true.
  intros (va & vb & Ha & Hb & ? & ?) (vb' & vc & Hb' & Hc & ? & ?).
  rewrite Hb in Hb'. injection Hb' as <-. exists va, vc. repeat split; congruence.
Qed.

Lemma hasSame_sym a b :
  hasSameMajorAndMinorVersion a b = true →
  hasSameMajorAndMinorVersion b a = true.
Proof.
  rewrite !hasSame_true. intros (va & vb & ? & ? & ? & ?). by exists vb, va.
Qed.

Lemma isVersionOk_same_generation valid a b :
  hasSameMajorAndMinorVersion a b = true →
  isVersionOk valid a = isVersionOk valid b.
Proof.
  intros Hab. apply eq_true_iff_eq. rewrite !isVersionOk_true.
  split; intros (x & Hx & Hsame); exists x; split; try done.
  - by eapply hasSame_trans.
  - eapply hasSame_trans; [exact Hsame|]. by apply hasSame_sym.
Qed.

End more_backup_facts.

(** * Further properties of the selector *)

Section selector_extras.
Context (semver_parse : string → option SemVer.t).
Context (K : Constants) (ethContracts : EthContracts) (config : Config).
Context (roster : RosterContracts).

Local Abbreviation NAME := (DISCOVERY_SERVICE_NAME K).
Local Abbreviation perform := (perform semver_parse K ethContracts config roster).
Local Abbreviation perform_all :=
  (perform_all semver_parse K ethContracts config roster).
Local Abbreviation timers_within_timeout := (timers_within_timeout K).
Local Abbreviation isVersionOk := (isVersionOk semver_parse).
Local Abbreviation filteredBackups := (filteredBackups semver_parse).
Local Abbreviation selectFromBackups :=
  (selectFromBackups semver_parse K ethContracts).
Local Abbreviation ensureValidVersions := (ensureValidVersions K ethContracts).
Local Abbreviation isHealthy := (isHealthy semver_parse K config).
Local Abbreviation underThreshold := (underThreshold K).

(** X1.  Regressed mode never lacks an expiry: through any sequence of calls
    of [getServices], [isHealthy], [selectFromBackups],
    [enterRegressedMode] and [isInRegressedMode], with any amounts of time
    passing in between, a selector that starts with a timer pending whenever
    it is in regressed mode, as a new selector does, is never in regressed
    mode without a pending timer that will end it. *)
Theorem regressed_mode_always_has_expiry_pending ops s :
  (regressedMode s = true → timers s ≠ []) →
  regressedMode (perform_all ops s) = true → timers (perform_all ops s) ≠ [].
Proof.
  intros Hs. induction ops as [|op ops IH] using rev_ind; [done|].
  rewrite perform_all_snoc.
  by apply (regressed_mode_expires_step semver_parse K ethContracts config roster).
Qed.

(** X2.  Regressed mode lasts at most one timeout beyond the last call: with
    a timeout that is not negative, after any sequence of operations on a
    selector whose timers are due within one timeout, as a new selector's
    are, letting one more timeout pass leaves no timer pending and
    [isInRegressedMode] answers false. *)
Theorem regressed_mode_over_one_timeout_after_last_call ops s :
  0 ≤ REGRESSED_MODE_TIMEOUT K →
  (regressedMode s = true → timers s ≠ []) →
  (∀ tm, tm ∈ timers s → due tm ≤ clock s + REGRESSED_MODE_TIMEOUT K) →
  let s' :=
    perform (TimePasses (Z.to_N (REGRESSED_MODE_TIMEOUT K))) (perform_all ops s) in
  timers s' = [] ∧ (isInRegressedMode s').1 = Normal false.
Proof.
  intros HT Hexp Hwithin. cbv zeta.
  destruct (life_invariants semver_parse K ethContracts config roster ops s
    HT Hexp Hwithin) as [Hexp' Hwithin'].
  set (s1 := perform_all ops s) in *. simpl. unfold exec.
  rewrite advance_to_run. simpl. rewrite Z2N.id by done.
  assert (Hall : filter (λ tm, clock s1 + REGRESSED_MODE_TIMEOUT K < due tm)
                   (timers s1) = []).
  { destruct (filter (λ tm, clock s1 + REGRESSED_MODE_TIMEOUT K < due tm)
      (timers s1)) as [|tm l] eqn:Elater; [done|].
    assert (Hin : tm ∈ tm :: l) by apply list_elem_of_here.
    rewrite <- Elater in Hin. apply list_elem_of_filter in Hin as [Hlt Hin].
    apply Hwithin' in Hin. lia. }
  split; [done|]. f_equal.
  destruct (filter (λ tm, due tm ≤ clock s1 + REGRESSED_MODE_TIMEOUT K) (timers s1))
    as [|tm l] eqn:Efired; [|done].
  destruct (regressedMode s1) eqn:Hreg; [|done].
  exfalso. specialize (Hexp' Hreg).
  destruct (timers s1) as [|tm l] eqn:Etm; [done|].
  assert (Hin : tm ∈ filter (λ tm, due tm ≤ clock s1 + REGRESSED_MODE_TIMEOUT K)
                  (tm :: l)).
  { apply list_elem_of_filter. split; [|apply list_elem_of_here].
    apply Hwithin'. rewrite Etm. apply list_elem_of_here. }
  rewrite Efired in Hin. by apply elem_of_nil in Hin.
Qed.

(** X3.  The cache of valid versions is never refreshed: once it is there,
    no sequence of operations changes it or reads the registry's version
    history again, not even a [getServices] that finds a new current
    version. *)
Theorem valid_versions_cache_is_never_refreshed ops s valid :
  validVersions s = Some valid →
  validVersions (perform_all ops s) = Some valid
  ∧ registryCalls (perform_all ops s) = registryCalls s.
Proof.
  intros Hs. induction ops as [|op ops IH] using rev_ind; [done|].
  rewrite perform_all_snoc. destruct IH as [IH1 IH2].
  destruct (perform_shape semver_parse K ethContracts config roster op
    (perform_all ops s)) as [_ Hkeep].
  destruct (Hkeep valid IH1) as [-> ->]. done.
Qed.

(** X4.  [selectFromBackups] never returns null: every call either throws or
    returns an endpoint, and the endpoint is a key of the backups map. *)
Theorem selectFromBackups_never_returns_null s :
  (selectFromBackups s).1 ≠ Normal None
  ∧ ((∃ e, (selectFromBackups s).1 = Throw e)
     ∨ (∃ k, (selectFromBackups s).1 = Normal (Some k)
          ∧ k ∈ Object_keys (backups s))).
Proof.
  destruct (selectFromBackups_run semver_parse K ethContracts s)
    as (c & vv & calls & _ & _ & Hrun). rewrite Hrun.
  destruct c as [[]|err]; [|split; [done|left; by eexists]].
  destruct (selectAmong_cases semver_parse K vv (with_cache s (Some vv) calls))
    as [(kr & Hp & ->)|[(_ & _ & ->)|(_ & kr & Hin & _ & ->)]]; simpl in *.
  - split; [done|]. right. exists kr.1. split; [done|].
    apply firstPick_Some in Hp as (Hin & _). destruct kr as [k r].
    by apply elem_of_filteredBackups in Hin as (? & _).
  - split; [done|]. left. by eexists.
  - split; [done|]. right. exists kr.1. split; [done|]. destruct kr as [k r].
    by apply elem_of_filteredBackups in Hin as (? & _).
Qed.


(** What [isHealthy] leaves behind when it keeps a record in an empty map. *)
Lemma isHealthy_first_record response urlMap s :
  backups s = [] →
  backups (exec (isHealthy response urlMap) s) ≠ [] →
  backups (exec (isHealthy response urlMap) s)
  = [(canonical urlMap response, data (response_data response))]
  ∧ validVersions (exec (isHealthy response urlMap) s) = validVersions s
  ∧ currentVersion (exec (isHealthy response urlMap) s) = currentVersion s
  ∧ regressedMode (exec (isHealthy response urlMap) s) = regressedMode s
  ∧ hasSameMajorAndMinorVersion semver_parse (currentVersion s)
      (version (data (response_data response))) = true.
Proof.
  intros Hempty.
  destruct (isHealthy_run semver_parse K config response urlMap s)
    as (out & _ & Hrun).
  unfold exec. rewrite Hrun.
  destruct (firstFailure semver_parse K config (currentVersion s) response)
    as [c|] eqn:Hff; [|simpl; by rewrite Hempty].
  destruct (recordsBackup c) eqn:Hrec; [|simpl; by rewrite Hempty].
  intros _. simpl. rewrite Hempty. repeat split.
  rewrite firstFailure_unfold in Hff.
  destruct (passes semver_parse K config (currentVersion s) response StatusCheck);
    cbn [negb] in Hff; [|by simplify_eq/=].
  destruct (passes semver_parse K config (currentVersion s) response ServiceCheck);
    cbn [negb] in Hff; [|by simplify_eq/=].
  destruct (passes semver_parse K config (currentVersion s) response ParseCheck);
    cbn [negb] in Hff; [|by simplify_eq/=].
  destruct (passes semver_parse K config (currentVersion s) response GenerationCheck)
    eqn:Hgen; cbn [negb] in Hff; [done|by simplify_eq/=].
Qed.

Lemma filtered_single valid k d :
  filteredBackups valid [(k, d)]
  = if isVersionOk valid (version d) then [(k, d)] else [].
Proof.
  unfold Selector.filteredBackups, entries. simpl. rewrite decide_True by done.
  simpl. rewrite filter_cons, filter_nil. simpl.
  destruct (isVersionOk valid (version d)); by simpl.
Qed.

Lemma selectFromBackups_single s valid k d :
  validVersions s = Some valid → backups s = [(k, d)] →
  (selectFromBackups s).1 =
    if isVersionOk valid (version d) then Normal (Some k)
    else Throw (TypeError "Cannot read properties of undefined (reading '0')").
Proof.
  intros Hv Hbk.
  rewrite (selectFromBackups_cached semver_parse K ethContracts s valid Hv).
  destruct (selectAmong_cases semver_parse K valid s)
    as [(kr & Hp & ->)|[(_ & Hnil & ->)|(_ & kr & Hin & _ & ->)]];
    rewrite Hbk, filtered_single in *.
  - apply firstPick_Some in Hp as (Hin & _).
    destruct (isVersionOk valid (version d)); [|by apply elem_of_nil in Hin].
    by apply list_elem_of_singleton in Hin as ->.
  - by destruct (isVersionOk valid (version d)).
  - destruct (isVersionOk valid (version d)); [|by apply elem_of_nil in Hin].
    by apply list_elem_of_singleton in Hin as ->.
Qed.

(** X6.  Probe, then fall back.  When [isHealthy] rejects a response and
    keeps it as the only backup, the next [selectFromBackups] on a cached
    set of valid versions returns that endpoint if some cached version has
    the major and minor number of the current version, and throws a
    TypeError if none has: a selector whose cache predates a change of the
    current version's generation cannot fall back at all. *)
Theorem recorded_backup_is_selected_unless_cache_is_stale response urlMap s valid :
  backups s = [] →
  validVersions s = Some valid →
  backups (exec (isHealthy response urlMap) s) ≠ [] →
  (isVersionOk valid (currentVersion s) = true →
     (selectFromBackups (exec (isHealthy response urlMap) s)).1
     = Normal (Some (canonical urlMap response)))
  ∧ (isVersionOk valid (currentVersion s) = false →
       (selectFromBackups (exec (isHealthy response urlMap) s)).1
       = Throw (TypeError "Cannot read properties of undefined (reading '0')")).
Proof.
  intros Hempty Hvalid Hkept.
  destruct (isHealthy_first_record response urlMap s Hempty Hkept)
    as (Hbk & Hvv & _ & _ & Hgen).
  rewrite (selectFromBackups_single _ valid _ _ (eq_trans Hvv Hvalid) Hbk).
  rewrite <- (isVersionOk_same_generation semver_parse valid _ _ Hgen).
  split; intros ->; done.
Qed.

(** X7.  On the first call the registry is asked for the number of versions
    once and then for at most five entries, each at an index between
    [numberOfVersions - 6] and [numberOfVersions - 2] and never below zero;
    the cache ends up as the current version followed by at most five
    versions.  With a single registered version, or none, no entry is
    read. *)
Theorem first_call_reads_at_most_five_earlier_versions s n :
  validVersions s = None →
  getNumberOfVersions ethContracts NAME = Normal n →
  ∃ reads vs,
    registryCalls (exec selectFromBackups s)
    = registryCalls s ++ GetNumberOfVersions NAME :: (GetVersion NAME <$> reads)
    ∧ validVersions (exec selectFromBackups s) = Some (currentVersion s :: vs)
    ∧ (length vs ≤ length reads ≤ 5)%nat
    ∧ (∀ j, j ∈ reads → 0 ≤ j ≤ n - 2 ∧ n - 6 ≤ j)
    ∧ (n ≤ 1 → reads = []).
Proof.
  intros Hnone Hn.
  destruct (selectFromBackups_cache semver_parse K ethContracts s)
    as (c & vv & calls & Hens & -> & ->).
  destruct (ensure_first_reads K ethContracts s n Hnone Hn)
    as (c' & l1 & l2 & vs & Hsplit & Hens' & Hlen).
  rewrite Hens' in Hens. apply (f_equal snd) in Hens. simpl in Hens.
  apply with_cache_inj in Hens as [[= <-] <-].
  exists ((λ i, n - 2 - i) <$> l1), vs.
  assert (Hl1 : ∀ i, i ∈ l1 → 0 ≤ i < Z.min PREVIOUS_VERSIONS_TO_CHECK (n - 1)).
  { intros i Hi.
    assert (Hin : i ∈ seqZ 0 (Z.min PREVIOUS_VERSIONS_TO_CHECK (n - 1)))
      by (rewrite Hsplit, elem_of_app; by left).
    apply elem_of_seqZ in Hin. lia. }
  assert (Hlen1 : (length l1 ≤ 5)%nat).
  { assert (Hlen' : length (l1 ++ l2)
      = Z.to_nat (Z.min PREVIOUS_VERSIONS_TO_CHECK (n - 1)))
      by (rewrite <- Hsplit; apply length_seqZ).
    rewrite length_app in Hlen'. unfold PREVIOUS_VERSIONS_TO_CHECK in Hlen'. lia. }
  split; [by rewrite <- list_fmap_compose|]. split; [done|].
  split; [rewrite length_fmap; lia|]. split.
  - intros j (i & -> & Hi)%list_elem_of_fmap. apply Hl1 in Hi.
    unfold PREVIOUS_VERSIONS_TO_CHECK in Hi. lia.
  - intros Hn1. destruct l1 as [|i l1]; [done|].
    specialize (Hl1 i (list_elem_of_here _ _)).
    unfold PREVIOUS_VERSIONS_TO_CHECK in Hl1. lia.
Qed.

End selector_extras.

(** ** The further properties at work in the sample worlds *)

Lemma regressed_mode_always_has_expiry_pending_witness :
  regressedMode (samplePerformAll sampleLife (initialState "" [])) = true
  ∧ timers (samplePerformAll sampleLife (initialState "" [])) ≠ [].
Proof.
  split; [by vm_compute|].
  apply (regressed_mode_always_has_expiry_pending parse_plain sampleConstants
    sampleRegistry noCallbacks sampleRoster sampleLife (initialState "" [])).
  - simpl. discriminate.
  - by vm_compute.
Defined.

Lemma regressed_mode_over_one_timeout_after_last_call_witness :
  let s' :=
    samplePerformAll (sampleLife ++ [TimePasses 120000]) (initialState "" []) in
  regressedMode (samplePerformAll sampleLife (initialState "" [])) = true
  ∧ timers s' = [] ∧ (isInRegressedMode s').1 = Normal false.
Proof.
  split; [by vm_compute|].
  unfold samplePerformAll.
  rewrite (perform_all_snoc parse_plain sampleConstants sampleRegistry
    noCallbacks sampleRoster).
  apply (regressed_mode_over_one_timeout_after_last_call parse_plain
    sampleConstants sampleRegistry noCallbacks sampleRoster sampleLife
    (initialState "" [])).
  - simpl. lia.
  - simpl. discriminate.
  - simpl. intros tm Hin. by apply elem_of_nil in Hin.
Defined.

Lemma valid_versions_cache_is_never_refreshed_witness :
  validVersions
    (perform_all parse_plain sampleConstants sampleRegistry noCallbacks
       upgradedRoster sampleLife (cached (initialState "1.2.3" [])))
  = Some sampleValid
  ∧ registryCalls
      (perform_all parse_plain sampleConstants sampleRegistry noCallbacks
         upgradedRoster sampleLife (cached (initialState "1.2.3" [])))
    = registryCalls (cached (initialState "1.2.3" [])).
Proof.
  apply (valid_versions_cache_is_never_refreshed parse_plain sampleConstants
    sampleRegistry noCallbacks upgradedRoster sampleLife
    (cached (initialState "1.2.3" [])) sampleValid).
  reflexivity.
Defined.


Lemma recorded_backup_is_selected_unless_cache_is_stale_witness :
  let s1 :=
    exec (isHealthy parse_plain sampleConstants noCallbacks
            (responseOf (healthData "1.3.0" 0)) sampleUrlMap) staleEmpty in
  backups s1 = [("https://dp1.example", healthData "1.3.0" 0)]
  ∧ (sampleSelect s1).1
    = Throw (TypeError "Cannot read properties of undefined (reading '0')").
Proof.
  split; [reflexivity|].
  apply (recorded_backup_is_selected_unless_cache_is_stale parse_plain
    sampleConstants sampleRegistry noCallbacks
    (responseOf (healthData "1.3.0" 0)) sampleUrlMap staleEmpty sampleValid).
  - reflexivity.
  - reflexivity.
  - vm_compute. discriminate.
  - reflexivity.
Defined.

Lemma first_call_reads_at_most_five_earlier_versions_witness :
  ∃ reads vs,
    registryCalls (exec sampleSelect oneFreshBackup)
    = registryCalls oneFreshBackup ++
        GetNumberOfVersions "discovery-provider" ::
        (GetVersion "discovery-provider" <$> reads)
    ∧ validVersions (exec sampleSelect oneFreshBackup)
      = Some (currentVersion oneFreshBackup :: vs)
    ∧ (length vs ≤ length reads ≤ 5)%nat
    ∧ (∀ j, j ∈ reads → 0 ≤ j ≤ 3 - 2 ∧ 3 - 6 ≤ j)
    ∧ (3 ≤ 1 → reads = []).
Proof.
  apply (first_call_reads_at_most_five_earlier_versions parse_plain
    sampleConstants sampleRegistry oneFreshBackup 3).
  - reflexivity.
  - reflexivity.
Defined.

(** * Plain values *)

(** ** Array indices *)

Lemma digit_of_lt c d : digit_of c = Some d → (d < 10)%N.
Proof.
  unfold digit_of. cbv zeta.
  destruct ((48 <=? N_of_ascii c)%N && (N_of_ascii c <=? 57)%N) eqn:E; [|done].
  intros [= <-]. apply andb_prop in E as [_ E%N.leb_le]. lia.
Qed.

Lemma digit_of_inj c1 c2 d : digit_of c1 = Some d → digit_of c2 = Some d → c1 = c2.
Proof.
  unfold digit_of. cbv zeta.
  destruct ((48 <=? N_of_ascii c1)%N && (N_of_ascii c1 <=? 57)%N) eqn:E1; [|done].
  intros [= <-].
  destruct ((48 <=? N_of_ascii c2)%N && (N_of_ascii c2 <=? 57)%N) eqn:E2; [|done].
  intros [= H].
  apply andb_prop in E1 as [E1%N.leb_le _], E2 as [E2%N.leb_le _].
  rewrite <- (ascii_N_embedding c1), <- (ascii_N_embedding c2).
  f_equal. lia.
Qed.

Lemma digits_value_bounds s acc n :
  digits_value s acc = Some n →
  (acc * 10 ^ N.of_nat (String.length s) ≤ n
   < (acc + 1) * 10 ^ N.of_nat (String.length s))%N.
Proof.
  revert acc. induction s as [|c s IH]; intros acc; simpl String.length.
  - intros [= <-]. simpl. lia.
  - simpl digits_value. destruct (digit_of c) as [d|] eqn:Ed; [|done].
    intros H%IH. apply digit_of_lt in Ed.
    rewrite Nat2N.inj_succ, N.pow_succ_r'. nia.
Qed.

Lemma digits_value_inj s1 s2 a1 a2 n :
  String.length s1 = String.length s2 →
  digits_value s1 a1 = Some n → digits_value s2 a2 = Some n →
  a1 = a2 ∧ s1 = s2.
Proof.
  revert s2 a1 a2. induction s1 as [|c1 s1 IH]; intros [|c2 s2] a1 a2; try done.
  - intros _ [= <-] [= <-]. done.
  - intros [= Hlen]. simpl.
    destruct (digit_of c1) as [d1|] eqn:E1; [|done].
    destruct (digit_of c2) as [d2|] eqn:E2; [|done].
    intros H1 H2. destruct (IH s2 _ _ Hlen H1 H2) as [Hacc ->].
    pose proof (digit_of_lt _ _ E1). pose proof (digit_of_lt _ _ E2).
    assert (d1 = d2) by lia. subst d2.
    split; [lia|]. f_equal. by eapply digit_of_inj.
Qed.

Lemma numeric_identifier_digits c s :
  c ≠ "0"%char → numeric_identifier (String c s) = digits_value (String c s) 0.
Proof.
  intros Hc.
  destruct c as [[] [] [] [] [] [] [] []]; try reflexivity. by destruct Hc.
Qed.

Lemma digits_value_leading c s n :
  c ≠ "0"%char → digits_value (String c s) 0 = Some n →
  (10 ^ N.of_nat (String.length s) ≤ n < 10 ^ N.of_nat (S (String.length s)))%N.
Proof.
  intros Hc H.
  pose proof (digits_value_bounds _ _ _ H) as Hb. simpl String.length in Hb.
  split; [|lia]. simpl in H.
  destruct (digit_of c) as [d|] eqn:Ed; [|done].
  apply digits_value_bounds in H.
  assert (d ≠ 0%N).
  { intros ->. apply Hc. by apply (digit_of_inj _ _ 0%N). }
  nia.
Qed.

Lemma numeric_identifier_inj a b n :
  numeric_identifier a = Some n → numeric_identifier b = Some n → a = b.
Proof.
  assert (Hzero : ∀ c s m, c ≠ "0"%char →
    numeric_identifier (String c s) = Some m → m ≠ 0%N).
  { intros c s m Hc. rewrite numeric_identifier_digits by done.
    intros H%digits_value_leading; [|done].
    pose proof (N.pow_nonzero 10 (N.of_nat (String.length s))). lia. }
  assert (Hlead : ∀ s m, numeric_identifier (String "0" s) = Some m →
    s = EmptyString ∧ m = 0%N).
  { intros [|c s] m; simpl; [by intros [= <-]|done]. }
  destruct a as [|ca sa]; [done|]. destruct b as [|cb sb]; [done|].
  destruct (decide (ca = "0"%char)) as [->|Ha].
  { intros [-> ->]%Hlead Hb.
    destruct (decide (cb = "0"%char)) as [->|Hcb].
    - by apply Hlead in Hb as [-> _].
    - by apply Hzero in Hb. }
  destruct (decide (cb = "0"%char)) as [->|Hb].
  { intros Hna [-> ->]%Hlead. by apply Hzero in Hna. }
  rewrite !numeric_identifier_digits by done. intros H1 H2.
  pose proof (digits_value_leading _ _ _ Ha H1) as B1.
  pose proof (digits_value_leading _ _ _ Hb H2) as B2.
  assert (Hlen : String.length sa = String.length sb).
  { destruct (Nat.lt_trichotomy (String.length sa) (String.length sb))
      as [Hlt|[Heq|Hlt]]; [|done|]; exfalso.
    - assert (10 ^ N.of_nat (S (String.length sa))
              ≤ 10 ^ N.of_nat (String.length sb))%N
        by (apply N.pow_le_mono_r; lia). lia.
    - assert (10 ^ N.of_nat (S (String.length sb))
              ≤ 10 ^ N.of_nat (String.length sa))%N
        by (apply N.pow_le_mono_r; lia). lia. }
  by destruct (digits_value_inj (String ca sa) (String cb sb) 0 0 n
    ltac:(simpl; by rewrite Hlen) H1 H2) as [_ ?].
Qed.

Lemma array_index_inj a b n :
  array_index a = Some n → array_index b = Some n → a = b.
Proof.
  unfold array_index.
  destruct (numeric_identifier a) as [na|] eqn:Ea; [|done].
  destruct (numeric_identifier b) as [nb|] eqn:Eb; [|done].
  destruct (na <? _)%N; [|done]. destruct (nb <? _)%N; [|done].
  intros [= ->] [= ->]. by eapply numeric_identifier_inj.
Qed.

(** ** The listing of keys *)

Lemma key_order_refl a : key_order a a = Eq.
Proof.
  unfold key_order. destruct (array_index a);
    [apply N.compare_refl|apply (cmp_refl String.compare)].
Qed.

Lemma key_order_asym a b : key_order a b = Lt → key_order b a = Gt.
Proof.
  unfold key_order. destruct (array_index a), (array_index b); try done.
  - rewrite (N.compare_antisym n n0). by intros ->.
  - rewrite (cmp_antisym String.compare a b). by intros ->.
Qed.

Lemma key_order_trans a b c :
  key_order a b = Lt → key_order b c = Lt → key_order a c = Lt.
Proof.
  unfold key_order.
  destruct (array_index a), (array_index b), (array_index c); try done.
  - rewrite !N.compare_lt_iff. lia.
  - apply (cmp_lt_trans String.compare).
Qed.

Lemma key_order_listed a b :
  key_order a b = Lt → a ≠ b ∧ listed_before b a = false.
Proof.
  intros H. split.
  - intros ->. by rewrite key_order_refl in H.
  - revert H. unfold key_order, listed_before.
    destruct (array_index a), (array_index b); try done.
    rewrite N.compare_lt_iff. intros H. apply N.ltb_ge. lia.
Qed.

(** A key that is not there yet, and that no key of the object has to
    follow, is placed so that the listing stays in [key_order] if it comes
    last alphabetically. *)
Lemma key_order_placed k k' :
  k' ≠ k → listed_before k k' = false → String.compare k' k ≠ Gt →
  key_order k' k = Lt.
Proof.
  unfold listed_before, key_order. intros Hne.
  destruct (array_index k) as [n|] eqn:Ek, (array_index k') as [n'|] eqn:Ek';
    try done.
  - intros H%N.ltb_ge _. apply N.compare_lt_iff.
    assert (n ≠ n'); [|lia]. intros ->. apply Hne. by eapply array_index_inj.
  - intros _ H. destruct (String.compare k' k) eqn:E; [|done|done].
    by apply (cmp_eq String.compare) in E.
Qed.

Lemma key_order_sorted_listed ks :
  StronglySorted (λ a b, key_order a b = Lt) ks → listed_in_order ks.
Proof.
  unfold listed_in_order. induction 1 as [|k ks Hks IH Hk]; constructor; [done|].
  eapply Forall_impl; [exact Hk|]. intros b. apply key_order_listed.
Qed.

(** Two listings of the same keys in [key_order] are the same listing. *)
Lemma key_order_sorted_unique l1 l2 :
  StronglySorted (λ a b, key_order a b = Lt) l1 →
  StronglySorted (λ a b, key_order a b = Lt) l2 →
  (∀ k, k ∈ l1 ↔ k ∈ l2) → l1 = l2.
Proof.
  intros H1. revert l2. induction H1 as [|a l1 Hl1 IH Ha]; intros l2 H2 Hsame.
  - destruct l2 as [|b l2]; [done|].
    assert (Hb : b ∈ []) by (apply Hsame, list_elem_of_here).
    by apply elem_of_nil in Hb.
  - destruct H2 as [|b l2 Hl2 Hb].
    { assert (Hin : a ∈ []) by (apply Hsame, list_elem_of_here).
      by apply elem_of_nil in Hin. }
    rewrite Forall_forall in Ha, Hb.
    assert (a = b) as <-.
    { assert (Hab : a ∈ b :: l2) by (apply Hsame, list_elem_of_here).
      assert (Hba : b ∈ a :: l1) by (apply Hsame, list_elem_of_here).
      apply elem_of_cons in Hab as [?|Hab]; [done|].
      apply elem_of_cons in Hba as [?|Hba]; [done|].
      apply Hb, key_order_asym in Hab. apply Ha in Hba. congruence. }
    f_equal. apply IH; [done|]. intros k. split; intros Hk.
    + assert (Hk' : k ∈ a :: l2) by (apply Hsame; by apply list_elem_of_further).
      apply elem_of_cons in Hk' as [->|?]; [|done].
      apply Ha in Hk. by rewrite key_order_refl in Hk.
    + assert (Hk' : k ∈ a :: l1) by (apply Hsame; by apply list_elem_of_further).
      apply elem_of_cons in Hk' as [->|?]; [|done].
      apply Hb in Hk. by rewrite key_order_refl in Hk.
Qed.

(** ** Defining properties *)

Lemma keys_define_property o k v k' :
  k' ∈ Object_keys (define_property o k v) ↔ k' = k ∨ k' ∈ Object_keys o.
Proof.
  unfold Object_keys. induction o as [|[k0 v0] o IH]; simpl.
  - rewrite list_elem_of_singleton. split; [by left|]. intros [?|?%elem_of_nil]; done.
  - destruct (decide (k0 = k)) as [->|Hk]; [|destruct (listed_before k k0)];
      simpl; rewrite !elem_of_cons; rewrite ?IH; tauto.
Qed.

Lemma prop_define_property o k v k' :
  prop (define_property o k v) k' = if decide (k = k') then Some v else prop o k'.
Proof.
  induction o as [|[k0 v0] o IH]; simpl.
  - done.
  - destruct (decide (k0 = k)) as [->|Hk]; simpl.
    + by destruct (decide (k = k')).
    + destruct (listed_before k k0); simpl; [done|]. rewrite IH.
      destruct (decide (k0 = k')), (decide (k = k')); congruence.
Qed.

Lemma define_property_listed o k v :
  listed_in_order (Object_keys o) →
  listed_in_order (Object_keys (define_property o k v)).
Proof.
  unfold listed_in_order, Object_keys.
  induction o as [|[k0 v0] o IH]; simpl; intros Ho.
  - repeat constructor.
  - apply StronglySorted_inv in Ho as [Ho Hk0].
    destruct (decide (k0 = k)) as [->|Hk]; [by constructor|].
    destruct (listed_before k k0) eqn:Hb; simpl.
    + constructor; [by constructor|].
      assert (Hkk0 : k ≠ k0 ∧ listed_before k0 k = false).
      { split; [done|]. revert Hb. unfold listed_before.
        destruct (array_index k), (array_index k0); try done.
        intros H%N.ltb_lt. apply N.ltb_ge. lia. }
      constructor; [done|].
      eapply Forall_impl; [exact Hk0|]. simpl. intros b [Hne Hbk0].
      revert Hb Hbk0. unfold listed_before.
      destruct (array_index k) as [n|] eqn:Ek; [|done].
      destruct (array_index b) as [m|] eqn:Eb;
        [|intros _ _; split; [congruence|done]].
      destruct (array_index k0) as [n0|]; [|done].
      intros H1%N.ltb_lt H2%N.ltb_ge. split; [|apply N.ltb_ge; lia].
      intros ->. assert (n = m) by congruence. lia.
    + constructor; [by apply IH|].
      apply Forall_forall. intros b Hin.
      apply (keys_define_property o k v b) in Hin as [->|Hin]; [done|].
      rewrite Forall_forall in Hk0. by apply Hk0.
Qed.

Lemma define_property_last o k v :
  (∀ a, a ∈ Object_keys o → a ≠ k ∧ listed_before k a = false) →
  define_property o k v = o ++ [(k, v)].
Proof.
  unfold Object_keys. induction o as [|[k0 v0] o IH]; simpl; intros H; [done|].
  destruct (H k0 (list_elem_of_here _ _)) as [Hne ->].
  rewrite decide_False by done. f_equal. apply IH.
  intros a Ha. by apply H, list_elem_of_further.
Qed.

Lemma listed_in_order_app l1 l2 a b :
  listed_in_order (l1 ++ l2) → a ∈ l1 → b ∈ l2 →
  a ≠ b ∧ listed_before b a = false.
Proof.
  unfold listed_in_order. induction l1 as [|x l1 IH]; simpl; intros H Ha Hb.
  - by apply elem_of_nil in Ha.
  - apply StronglySorted_inv in H as [H Hx].
    apply elem_of_cons in Ha as [->|Ha]; [|by apply IH].
    rewrite Forall_forall in Hx. apply Hx. rewrite elem_of_app. by right.
Qed.

(** Copying an object whose keys are listed in order gives the object. *)
Lemma spread_listed o : listed_in_order (Object_keys o) → spread o = o.
Proof.
  unfold spread. change o with ([] ++ o) at 1 3.
  generalize (@nil (string * Value)) as acc.
  induction o as [|[k v] o IH]; intros acc; simpl.
  - by rewrite app_nil_r.
  - intros H. rewrite define_property_last.
    + rewrite (IH (acc ++ [(k, v)])); rewrite <- app_assoc; done.
    + intros a Ha. unfold Object_keys in H. rewrite fmap_app in H.
      destruct (listed_in_order_app _ _ a k H Ha (list_elem_of_here _ _)).
      split; [done|done].
Qed.

(** ** Building an object key by key *)

Lemma fold_left_pointwise {X Y} (f g : X → Y → X) l a :
  (∀ a b, f a b = g a b) → fold_left f l a = fold_left g l a.
Proof.
  intros H. revert a. induction l as [|b l IH]; intros a; simpl; [done|].
  by rewrite H, IH.
Qed.

Lemma prop_not_key {V} (o : list (string * V)) k :
  k ∉ Object_keys o → prop o k = None.
Proof.
  intros Hk. destruct (prop o k) as [v|] eqn:E; [|done].
  destruct Hk. apply prop_Some_elem in E. unfold Object_keys.
  apply list_elem_of_fmap. by exists (k, v).
Qed.

Lemma build_spec (g : string → option Value) ks o :
  listed_in_order (Object_keys o) →
  let r := fold_left (λ o k, match g k with
                             | Some v => define_property o k v
                             | None => o
                             end) ks o in
  listed_in_order (Object_keys r)
  ∧ (∀ k, k ∈ Object_keys r ↔ k ∈ Object_keys o ∨ (k ∈ ks ∧ is_Some (g k)))
  ∧ (∀ k, prop r k = match g k with
                     | Some v => if decide (k ∈ ks) then Some v else prop o k
                     | None => prop o k
                     end).
Proof.
  revert o. induction ks as [|k0 ks IH]; intros o Ho; cbv zeta; cbn [fold_left].
  - split; [done|]. split.
    + intros k. split; [by left|]. by intros [?|[?%elem_of_nil _]].
    + intros k. destruct (g k); [|done]. rewrite decide_False; [done|].
      apply not_elem_of_nil.
  - set (o' := match g k0 with Some v => define_property o k0 v | None => o end).
    assert (Ho' : listed_in_order (Object_keys o')).
    { unfold o'. destruct (g k0); [by apply define_property_listed|done]. }
    destruct (IH o' Ho') as (Hlisted & Hkeys & Hprop).
    split; [done|]. split.
    + intros k. rewrite Hkeys, elem_of_cons. unfold o'.
      destruct (g k0) as [v0|] eqn:Eg0.
      * rewrite keys_define_property. split.
        -- intros [[->|?]|[? ?]]; [|by auto..]. right.
           split; [by left|by rewrite Eg0].
        -- intros [?|[[->|?] ?]]; by auto.
      * split.
        -- intros [?|[? ?]]; by auto.
        -- intros [?|[[->|?] Hs]]; [by auto| |by auto].
           rewrite Eg0 in Hs. by destruct Hs.
    + intros k. rewrite Hprop. unfold o'.
      destruct (g k0) as [v0|] eqn:Eg0.
      * rewrite prop_define_property.
        destruct (g k) as [v|] eqn:Eg.
        -- destruct (decide (k ∈ ks)) as [Hin|Hin].
           ++ rewrite decide_True; [done|]. by apply list_elem_of_further.
           ++ destruct (decide (k0 = k)) as [->|Hne].
              ** rewrite decide_True by apply list_elem_of_here. congruence.
              ** rewrite decide_False; [done|].
                 intros [->|?]%elem_of_cons; done.
        -- rewrite decide_False; [done|]. intros ->. congruence.
      * destruct (g k) as [v|] eqn:Eg; [|done].
        destruct (decide (k ∈ ks)) as [Hin|Hin].
        -- rewrite decide_True; [done|]. by apply list_elem_of_further.
        -- rewrite decide_False; [done|].
           intros [->|?]%elem_of_cons; [congruence|done].
Qed.

Lemma fold_spread (f : string → Value) ks o :
  listed_in_order (Object_keys o) →
  fold_left (λ o k, define_property (spread o) k (f k)) ks o
  = fold_left (λ o k, define_property o k (f k)) ks o.
Proof.
  revert o. induction ks as [|k ks IH]; intros o Ho; simpl; [done|].
  rewrite (spread_listed o Ho). by apply IH, define_property_listed.
Qed.

Lemma define_property_sorted o k v :
  StronglySorted (λ a b, key_order a b = Lt) (Object_keys o) →
  (∀ a, a ∈ Object_keys o → String.compare a k ≠ Gt) →
  StronglySorted (λ a b, key_order a b = Lt) (Object_keys (define_property o k v)).
Proof.
  unfold Object_keys. induction o as [|[k0 v0] o IH]; simpl; intros Ho Hle.
  - repeat constructor.
  - apply StronglySorted_inv in Ho as [Ho Hk0].
    destruct (decide (k0 = k)) as [->|Hk]; [by constructor|].
    destruct (listed_before k k0) eqn:Hb; simpl.
    + assert (Hkk0 : key_order k k0 = Lt).
      { revert Hb. unfold listed_before, key_order.
        destruct (array_index k), (array_index k0); try done.
        intros H%N.ltb_lt. by apply N.compare_lt_iff. }
      constructor; [by constructor|]. constructor; [done|].
      eapply Forall_impl; [exact Hk0|]. simpl. intros b Hb'.
      by eapply key_order_trans.
    + constructor.
      * apply IH; [done|]. intros a Ha. by apply Hle, list_elem_of_further.
      * apply Forall_forall. intros b Hin.
        apply (keys_define_property o k v b) in Hin as [->|Hin].
        -- apply key_order_placed; [done|done|]. apply Hle, list_elem_of_here.
        -- rewrite Forall_forall in Hk0. by apply Hk0.
Qed.

Lemma build_sorted (f : string → Value) ks o :
  StronglySorted (λ a b, key_order a b = Lt) (Object_keys o) →
  StronglySorted (λ a b, String.compare a b ≠ Gt) ks →
  (∀ a k, a ∈ Object_keys o → k ∈ ks → String.compare a k ≠ Gt) →
  StronglySorted (λ a b, key_order a b = Lt)
    (Object_keys (fold_left (λ o k, define_property o k (f k)) ks o)).
Proof.
  revert o. induction ks as [|k ks IH]; intros o Ho Hks Hle; simpl; [done|].
  apply StronglySorted_inv in Hks as [Hks Hk]. rewrite Forall_forall in Hk.
  apply IH; [|done|].
  - apply define_property_sorted; [done|]. intros a Ha.
    apply Hle; [done|apply list_elem_of_here].
  - intros a k' [->|Ha]%keys_define_property Hk'; [by apply Hk|].
    apply Hle; [done|by apply list_elem_of_further].
Qed.

(** ** [sortObjectKeys] *)

(** The object case as the source has it. *)
Lemma sortObjectKeys_object props :
  sortObjectKeys (VObject props)
  = VObject
      (fold_left
         (λ o k, define_property (spread o) k
                   (sortObjectKeys (get_prop props k)))
         (sort_from String.compare [] (Object_keys props)) []).
Proof.
  simpl. f_equal. apply fold_left_pointwise. intros o k. f_equal.
  unfold get_prop. induction props as [|[k' v] ps IH]; simpl; [done|].
  by destruct (decide (k' = k)).
Qed.

Lemma sortObjectKeys_object_spec props :
  ∃ sorted,
    sortObjectKeys (VObject props) = VObject sorted
    ∧ StronglySorted (λ a b, key_order a b = Lt) (Object_keys sorted)
    ∧ (∀ k, k ∈ Object_keys sorted ↔ k ∈ Object_keys props)
    ∧ (∀ k, k ∈ Object_keys props →
         prop sorted k = Some (sortObjectKeys (get_prop props k)))
    ∧ (∀ k, get_prop sorted k = sortObjectKeys (get_prop props k)).
Proof.
  pose (f := λ k, sortObjectKeys (get_prop props k)).
  pose (ks := sort_from String.compare [] (Object_keys props)).
  exists (fold_left (λ o k, define_property o k (f k)) ks []).
  split.
  { rewrite sortObjectKeys_object. f_equal. apply (fold_spread f ks []).
    constructor. }
  assert (Hks : ∀ k, k ∈ ks ↔ k ∈ Object_keys props).
  { intros k. unfold ks. by rewrite sort_from_perm. }
  destruct (build_spec (λ k, Some (f k)) ks [] ltac:(constructor))
    as (_ & Hkeys & Hprop). simpl in Hkeys, Hprop.
  assert (Hin : ∀ k, k ∈ Object_keys props →
    prop (fold_left (λ o k, define_property o k (f k)) ks []) k = Some (f k)).
  { intros k Hk. rewrite Hprop, decide_True; [done|]. by apply Hks. }
  split; [|split; [|split; [done|]]].
  - apply build_sorted; [constructor| |by intros a k ?%elem_of_nil].
    apply sort_from_sorted; [apply (cmp_antisym String.compare)| |constructor].
    apply (cmp_le_trans String.compare).
  - intros k. rewrite Hkeys, Hks. split; [|by eauto].
    by intros [?%elem_of_nil|[? _]].
  - intros k. unfold get_prop at 1.
    destruct (decide (k ∈ Object_keys props)) as [Hk|Hk].
    + by rewrite Hin.
    + rewrite Hprop, decide_False by (by rewrite Hks). simpl.
      unfold f, get_prop. by rewrite prop_not_key.
Qed.

(** ** Content *)

Lemma Value_induction (P : Value → Prop) :
  P VUndefined → P VNull → (∀ b, P (VBool b)) → (∀ n, P (VNumber n)) →
  (∀ s, P (VString s)) →
  (∀ items, Forall P items → P (VArray items)) →
  (∀ props, Forall (λ kv, P kv.2) props → P (VObject props)) →
  ∀ x, P x.
Proof.
  intros Hu Hn Hb Hz Hs Ha Ho. fix IH 1.
  intros [| |b|n|s|items|props];
    [exact Hu|exact Hn|apply Hb|apply Hz|apply Hs| |].
  - apply Ha. induction items as [|y items IHitems]; constructor.
    + apply IH.
    + exact IHitems.
  - apply Ho. induction props as [|[k v] props IHprops]; constructor.
    + apply IH.
    + exact IHprops.
Qed.

Lemma get_prop_elem props k :
  k ∈ Object_keys props → (k, get_prop props k) ∈ props.
Proof.
  intros [v Hv]%keys_have_props. unfold get_prop. rewrite Hv. simpl.
  by apply prop_Some_elem.
Qed.

Lemma get_prop_Forall (Q : string * Value → Prop) props k :
  Forall Q props → k ∈ Object_keys props → Q (k, get_prop props k).
Proof.
  intros H Hk. rewrite Forall_forall in H. by apply H, get_prop_elem.
Qed.

Lemma props_eq (o1 o2 : list (string * Value)) :
  Object_keys o1 = Object_keys o2 →
  StronglySorted (λ a b, key_order a b = Lt) (Object_keys o1) →
  (∀ k, k ∈ Object_keys o1 → prop o1 k = prop o2 k) →
  o1 = o2.
Proof.
  unfold Object_keys. revert o2.
  induction o1 as [|[k v] o1 IH]; intros [|[k' v'] o2]; simpl; try done.
  intros [= <- Hkeys] [Hsorted Hk]%StronglySorted_inv Hprop.
  rewrite Forall_forall in Hk.
  pose proof (Hprop k (list_elem_of_here _ _)) as Hv.
  rewrite !decide_True in Hv by done. injection Hv as <-.
  f_equal. apply IH; [done|done|]. intros k2 Hk2.
  specialize (Hprop k2 (list_elem_of_further _ _ _ Hk2)).
  assert (k ≠ k2) by (by apply key_order_listed, Hk).
  by rewrite !decide_False in Hprop by done.
Qed.

(** Sorting changes nothing but the order of the keys. *)
Lemma same_content_sorted x : same_content x (sortObjectKeys x).
Proof.
  induction x as [| | | | |items IH|props IH] using Value_induction;
    try (by constructor).
  - simpl. constructor. induction IH; constructor; auto.
  - destruct (sortObjectKeys_object_spec props)
      as (sorted & -> & _ & Hkeys & _ & Hget).
    constructor.
    + intros k. by rewrite Hkeys.
    + intros k Hk. rewrite Hget. apply (get_prop_Forall _ _ _ IH Hk).
Qed.

(** Values of the same content are sorted to the same value. *)
Lemma sortObjectKeys_same x y :
  same_content x y → sortObjectKeys x = sortObjectKeys y.
Proof.
  revert y.
  induction x as [| | | | |items IH|props IH] using Value_induction;
    intros y Hy; inversion Hy as [| | | | |? items2 Hitems|? props2 Hkeys Hget];
    subst; try done.
  - simpl. f_equal. clear Hy.
    induction Hitems as [|a b l1 l2 Hab Hl IHl]; simpl; [done|].
    apply Forall_cons_1 in IH as [Ha IH]. f_equal; [by apply Ha|by apply IHl].
  - destruct (sortObjectKeys_object_spec props)
      as (s1 & -> & Hs1 & Hk1 & Hp1 & _).
    destruct (sortObjectKeys_object_spec props2)
      as (s2 & -> & Hs2 & Hk2 & Hp2 & _).
    f_equal. apply props_eq; [|done|].
    + apply key_order_sorted_unique; [done|done|].
      intros k. by rewrite Hk1, Hk2.
    + intros k Hk%Hk1. rewrite Hp1 by done. rewrite Hp2 by (by apply Hkeys).
      f_equal. apply (get_prop_Forall _ _ _ IH Hk). by apply Hget.
Qed.

Lemma same_content_sym x y : same_content x y → same_content y x.
Proof.
  revert y.
  induction x as [| | | | |items IH|props IH] using Value_induction;
    intros y Hy; inversion Hy as [| | | | |? items2 Hitems|? props2 Hkeys Hget];
    subst; try (by constructor).
  - constructor. clear Hy. induction Hitems as [|a b l1 l2 Hab Hl IHl]; [done|].
    apply Forall_cons_1 in IH as [Ha IH]. constructor; [by apply Ha|by apply IHl].
  - constructor.
    + intros k. by rewrite Hkeys.
    + intros k Hk%Hkeys. apply (get_prop_Forall _ _ _ IH Hk). by apply Hget.
Qed.

Lemma same_content_trans x y z :
  same_content x y → same_content y z → same_content x z.
Proof.
  revert y z.
  induction x as [| | | | |items IH|props IH] using Value_induction;
    intros y z Hy Hz;
    inversion Hy as [| | | | |? items2 Hitems|? props2 Hkeys Hget]; subst;
    inversion Hz as [| | | | |? items3 Hitems3|? props3 Hkeys3 Hget3]; subst;
    try (by constructor).
  - constructor. clear Hy Hz. revert items3 Hitems3.
    induction Hitems as [|a b l1 l2 Hab Hl IHl]; intros items3 Hitems3.
    + by inversion Hitems3.
    + inversion Hitems3 as [|? c ? l3 Hbc Hl3]; subst.
      apply Forall_cons_1 in IH as [Ha IH].
      constructor; [by eapply Ha|by apply IHl].
  - constructor.
    + intros k. by rewrite Hkeys.
    + intros k Hk. apply (get_prop_Forall _ _ _ IH Hk _ _ (Hget k Hk)).
      by apply Hget3, Hkeys.
Qed.

Lemma same_content_refl x : same_content x x.
Proof.
  induction x as [| | | | |items IH|props IH] using Value_induction;
    try (by constructor).
  - constructor. induction IH; constructor; auto.
  - constructor; [done|]. intros k Hk. apply (get_prop_Forall _ _ _ IH Hk).
Qed.

(** ** The copy made through JSON *)

Lemma same_content_undefined x y :
  same_content x y → x = VUndefined ↔ y = VUndefined.
Proof. by destruct 1. Qed.

Lemma JSON_copy_object props :
  ∃ copied,
    JSON_copy (VObject props) = VObject copied
    ∧ (∀ k, k ∈ Object_keys copied
         ↔ k ∈ Object_keys props ∧ get_prop props k ≠ VUndefined)
    ∧ (∀ k, k ∈ Object_keys copied →
         get_prop copied k = JSON_copy (get_prop props k)).
Proof.
  pose (g := λ k, match get_prop props k with
                  | VUndefined => None
                  | v => Some (JSON_copy v)
                  end).
  exists (fold_left (λ o k, match g k with
                            | Some v => define_property o k v
                            | None => o
                            end) (Object_keys props) []).
  assert (Hg : ∀ k, is_Some (g k) ↔ get_prop props k ≠ VUndefined).
  { intros k. unfold g. destruct (get_prop props k); split; try done;
      by (intros []) || by eauto. }
  destruct (build_spec g (Object_keys props) [] ltac:(constructor))
    as (_ & Hkeys & Hprop). simpl in Hkeys, Hprop.
  assert (Hin : ∀ k, k ∈ Object_keys
      (fold_left (λ o k, match g k with
                         | Some v => define_property o k v
                         | None => o
                         end) (Object_keys props) [])
    ↔ k ∈ Object_keys props ∧ get_prop props k ≠ VUndefined).
  { intros k. rewrite Hkeys, Hg. split; [|by auto].
    by intros [?%elem_of_nil|?]. }
  split; [|split; [done|]].
  - simpl. f_equal. apply fold_left_pointwise. intros o k.
    replace (g k) with
      ((fix look (ps : list (string * Value)) (k : string) : option Value :=
          match ps with
          | [] => None
          | (k', v) :: ps' =>
              if decide (k' = k)
              then match v with
                   | VUndefined => None
                   | _ => Some (JSON_copy v)
                   end
              else look ps' k
          end) props k); [done|].
    unfold g, get_prop. clear. induction props as [|[k' v] ps IH]; simpl; [done|].
    destruct (decide (k' = k)); [by destruct v|done].
  - intros k [Hk Hdef]%Hin. unfold get_prop at 1. rewrite Hprop.
    unfold g. destruct (get_prop props k) eqn:E; try done;
      by rewrite decide_True.
Qed.

Lemma JSON_copy_same x y :
  same_content x y → same_content (JSON_copy x) (JSON_copy y).
Proof.
  revert y.
  induction x as [| | | | |items IH|props IH] using Value_induction;
    intros y Hy; inversion Hy as [| | | | |? items2 Hitems|? props2 Hkeys Hget];
    subst; try (by constructor).
  - simpl. constructor. clear Hy.
    induction Hitems as [|a b l1 l2 Hab Hl IHl]; simpl; [done|].
    apply Forall_cons_1 in IH as [Ha IH]. constructor; [|by apply IHl].
    specialize (Ha b Hab). by destruct Hab; first [exact Ha|constructor].
  - destruct (JSON_copy_object props) as (c1 & -> & Hk1 & Hg1).
    destruct (JSON_copy_object props2) as (c2 & -> & Hk2 & Hg2).
    assert (Hsame : ∀ k, k ∈ Object_keys c1 ↔ k ∈ Object_keys c2).
    { intros k. rewrite Hk1, Hk2. split.
      - intros [Hk Hdef]. split; [by apply Hkeys|].
        by rewrite <- (same_content_undefined _ _ (Hget k Hk)).
      - intros [Hk%Hkeys Hdef]. split; [done|].
        by rewrite (same_content_undefined _ _ (Hget k Hk)). }
    constructor; [done|]. intros k Hk.
    rewrite Hg1 by done. rewrite Hg2 by (by apply Hsame).
    apply Hk1 in Hk as [Hk _].
    apply (get_prop_Forall _ _ _ IH Hk). by apply Hget.
Qed.

Lemma keys_filter_ne (o : list (string * Value)) k k' :
  k' ∈ Object_keys (filter (λ kv, kv.1 ≠ k) o) ↔ k' ∈ Object_keys o ∧ k' ≠ k.
Proof.
  unfold Object_keys. rewrite !list_elem_of_fmap. split.
  - intros ([k0 v] & -> & [Hne Hin]%list_elem_of_filter). split; [|done].
    by exists (k0, v).
  - intros [([k0 v] & -> & Hin) Hne]. exists (k0, v). split; [done|].
    by apply list_elem_of_filter.
Qed.

Lemma prop_filter_ne (o : list (string * Value)) k k' :
  k' ≠ k → prop (filter (λ kv, kv.1 ≠ k) o) k' = prop o k'.
Proof.
  intros Hne. induction o as [|[k0 v] o IH]; [done|].
  rewrite filter_cons. simpl. destruct (decide (k0 ≠ k)) as [H0|H0]; simpl.
  - by rewrite IH.
  - rewrite IH. apply dec_stable in H0. rewrite decide_False; [done|]. congruence.
Qed.

Lemma delete_prop_same x y k :
  same_content x y →
  match delete_prop x k, delete_prop y k with
  | inr x', inr y' => same_content x' y'
  | inl e, inl e' => e = e'
  | _, _ => False
  end.
Proof.
  intros H. destruct H as [| | | | |l1 l2 Hl|p1 p2 Hkeys Hget]; simpl;
    try (by constructor).
  constructor.
  - intros k'. rewrite !keys_filter_ne. by rewrite Hkeys.
  - intros k' [Hk Hne]%keys_filter_ne. unfold get_prop.
    rewrite !prop_filter_ne by done. by apply Hget.
Qed.

(** ** [recoverWallet] *)

Section recover_facts.
Context (JSON_stringify : Value → string).

Local Abbreviation recoverWallet := (recoverWallet JSON_stringify).

(** What is returned or thrown does not involve the signer. *)
Lemma recoverWallet_returns web3 response :
  (recoverWallet web3 response).1 =
    match JSON_parse_stringify response with
    | inl e => inl e
    | inr d =>
        match delete_prop d "signature" with
        | inl e => inl e
        | inr d' =>
            match utils_keccak256 web3 (JSON_stringify (sortObjectKeys d')) with
            | Throw _ => inr None
            | Normal h =>
                match member response "signature" with
                | inl _ => inr None
                | inr signature =>
                    match eth_accounts_recover web3 h signature with
                    | Throw _ => inr None
                    | Normal w => inr (Some w)
                    end
                end
            end
        end
    end.
Proof.
  unfold Signed.recoverWallet.
  destruct (JSON_parse_stringify response) as [e|d]; [done|].
  destruct (delete_prop d "signature") as [e|d']; [done|].
  destruct (utils_keccak256 web3 _) as [h|e]; [|done].
  destruct (member response "signature") as [e|signature]; [done|].
  destruct (eth_accounts_recover web3 h signature) as [w|e]; [|done].
  destruct (member response "signer") as [e|signer]; [done|].
  by destruct (strictEqual signer w).
Qed.

End recover_facts.

(** * Properties of [sortObjectKeys] and [recoverWallet] *)

Lemma same_content_of_sorted x y :
  sortObjectKeys x = sortObjectKeys y → same_content x y.
Proof.
  intros H. apply same_content_trans with (sortObjectKeys x).
  - apply same_content_sorted.
  - rewrite H. apply same_content_sym, same_content_sorted.
Qed.

(** X8.  [sortObjectKeys] gives a canonical form: two values are sorted to
    the same value exactly when they have the same content, that is, when
    they differ at most in the order in which their objects, at any depth,
    list their keys. *)
Theorem sortObjectKeys_equal_iff_same_content x y :
  sortObjectKeys x = sortObjectKeys y ↔ same_content x y.
Proof. split; [apply same_content_of_sorted|apply sortObjectKeys_same]. Qed.

(** X9.  Sorting a sorted value changes nothing. *)
Theorem sortObjectKeys_idempotent x :
  sortObjectKeys (sortObjectKeys x) = sortObjectKeys x.
Proof. symmetry. apply sortObjectKeys_same, same_content_sorted. Qed.


Section recover_properties.
Context (JSON_stringify : Value → string).

Local Abbreviation recoverWallet := (recoverWallet JSON_stringify).

(** X11.  [recoverWallet] throws only when there is no response: it throws
    for [undefined] and for [null], and for every other value it returns,
    whatever [web3] does. *)
Theorem recoverWallet_throws_only_without_response web3 response :
  (∃ e, (recoverWallet web3 response).1 = inl e)
  ↔ response = VUndefined ∨ response = VNull.
Proof.
  rewrite recoverWallet_returns. split.
  - intros [e He]. destruct response as [| |b|n|s|items|props]; auto; exfalso.
    + simpl in He. by repeat case_match.
    + simpl in He. by repeat case_match.
    + simpl in He. by repeat case_match.
    + simpl in He. by repeat case_match.
    + unfold JSON_parse_stringify in He.
      destruct (JSON_copy_object props) as (c & Hc & _). rewrite Hc in He.
      simpl in He. by repeat case_match.
  - intros [->| ->]; simpl; eauto.
Qed.

(** X12.  The recovered wallet is returned whether or not it is the signer
    that the response names.  When a wallet is returned, either it is the
    signer and nothing was logged, or it is not and the failed assertion was
    logged and nothing else happened. *)
Theorem recoverWallet_signer_mismatch_is_only_logged web3 response w log :
  recoverWallet web3 response = (inr (Some w), log) →
  (member response "signer" = inr (VString w) ∧ log = [])
  ∨ (∃ signer, member response "signer" = inr signer
       ∧ signer ≠ VString w ∧ log = [AssertionError signer w]).
Proof.
  unfold Signed.recoverWallet.
  destruct (JSON_parse_stringify response) as [e|d] eqn:Ed; [done|].
  destruct (delete_prop d "signature") as [e|d'] eqn:Ed'; [done|].
  destruct (utils_keccak256 web3 _) as [h|e]; [|done].
  destruct (member response "signature") as [e|signature]; [done|].
  destruct (eth_accounts_recover web3 h signature) as [w'|e]; [|done].
  destruct (member response "signer") as [e|signer] eqn:Es.
  { exfalso. destruct response; try done; simpl in Ed; simplify_eq/=. }
  destruct (strictEqual signer w') eqn:Eeq; intros [= <- <-].
  - left. split; [|done]. destruct signer; try done. simpl in Eeq.
    by apply String.eqb_eq in Eeq as ->.
  - right. exists signer. split; [done|]. split; [|done]. intros ->.
    simpl in Eeq.
    by rewrite String.eqb_refl in Eeq.
Qed.

(** X13.  The order of the keys of a response does not matter: two
    responses with the same content and the same signature lead to the same
    wallet, or to the same failure. *)
Theorem recoverWallet_ignores_key_order web3 r1 r2 :
  same_content r1 r2 →
  member r1 "signature" = member r2 "signature" →
  (recoverWallet web3 r1).1 = (recoverWallet web3 r2).1.
Proof.
  intros Hsame Hsig. rewrite !recoverWallet_returns, <- Hsig.
  assert (Hcopy : match JSON_parse_stringify r1, JSON_parse_stringify r2 with
                  | inr d1, inr d2 => same_content d1 d2
                  | inl e, inl e' => e = e'
                  | _, _ => False
                  end).
  { pose proof (JSON_copy_same _ _ Hsame) as Hc.
    unfold JSON_parse_stringify. by destruct Hsame. }
  destruct (JSON_parse_stringify r1) as [e1|d1],
    (JSON_parse_stringify r2) as [e2|d2]; try done; [by subst|].
  pose proof (delete_prop_same _ _ "signature" Hcopy) as Hdel.
  destruct (delete_prop d1 "signature") as [e1|d1'],
    (delete_prop d2 "signature") as [e2|d2']; try done; [by subst|].
  by rewrite (sortObjectKeys_same _ _ Hdel).
Qed.

End recover_properties.

(** ** The sample responses *)

(** Keys that are array indices are not listed alphabetically: "10" comes
    before "9" in the alphabet, and after it in the sorted object. *)
Example sortObjectKeys_indexedObject :
  sortObjectKeys indexedObject
  = VObject [("9", VNumber 3); ("10", VNumber 2); ("a", VNumber 4);
             ("b", VNumber 1)]
  ∧ String.compare "10" "9" = Lt.
Proof. by vm_compute. Qed.

Example sortObjectKeys_signedResponse :
  sortObjectKeys signedResponse
  = VObject
      [("data", VObject [("block_difference", VNumber 5);
                         ("version", VString "1.2.3")]);
       ("signature", VString "0x1234");
       ("signer", VString "0xabc");
       ("timestamp", VString "2021-01-01T00:00:00Z")].
Proof. by vm_compute. Qed.

Lemma recoverWallet_signer_mismatch_is_only_logged_witness :
  recoverWallet sampleText (sampleWeb3 "0xdef") signedResponse
  = (inr (Some "0xdef"), [AssertionError (VString "0xabc") "0xdef"])
  ∧ ((member signedResponse "signer" = inr (VString "0xdef")
      ∧ [AssertionError (VString "0xabc") "0xdef"] = [])
     ∨ (∃ signer, member signedResponse "signer" = inr signer
          ∧ signer ≠ VString "0xdef"
          ∧ [AssertionError (VString "0xabc") "0xdef"]
            = [AssertionError signer "0xdef"])).
Proof.
  split; [reflexivity|].
  apply (recoverWallet_signer_mismatch_is_only_logged sampleText
    (sampleWeb3 "0xdef") signedResponse "0xdef"
    [AssertionError (VString "0xabc") "0xdef"]).
  reflexivity.
Defined.

Lemma recoverWallet_ignores_key_order_witness :
  (recoverWallet sampleText (sampleWeb3 "0xabc") signedResponse).1
  = (recoverWallet sampleText (sampleWeb3 "0xabc") reorderedResponse).1.
Proof.
  apply (recoverWallet_ignores_key_order sampleText (sampleWeb3 "0xabc")
    signedResponse reorderedResponse).
  - apply same_content_of_sorted. reflexivity.
  - reflexivity.
Defined.

(** ** Selecting again *)

Section selecting_again.
Context (semver_parse : string → option SemVer.t).
Context (K : Constants) (ethContracts : EthContracts).

Local Abbreviation selectAmong := (selectAmong semver_parse K).
Local Abbreviation selectFromBackups :=
  (selectFromBackups semver_parse K ethContracts).

(** The choice among the backups depends on the backups only. *)
Lemma selectAmong_backups valid s s' :
  backups s = backups s' → (selectAmong valid s).1 = (selectAmong valid s').1.
Proof.
  intros H. rewrite !(selectAmong_run semver_parse K). cbv zeta. rewrite H.
  destruct (firstPick _ _ _); [done|]. by destruct (head _).
Qed.

(** X14.  The choice is repeated.  After a call of [selectFromBackups] that
    returned, every later call on the same backups and the same cache of
    valid versions returns the same endpoint, whatever became of the current
    version, the clock and regressed mode in between. *)
Theorem selectFromBackups_repeats_its_choice s r s1 s2 :
  selectFromBackups s = (Normal r, s1) →
  validVersions s2 = validVersions s1 →
  backups s2 = backups s →
  (selectFromBackups s2).1 = Normal r.
Proof.
  intros Hrun Hcache Hbackups.
  destruct (selectFromBackups_run semver_parse K ethContracts s)
    as (c & vv & calls & _ & _ & Hsel).
  rewrite Hrun in Hsel. destruct c as [[]|e]; [|done].
  assert (Hs1 : validVersions s1 = Some vv).
  { destruct (selectAmong_cases semver_parse K vv (with_cache s (Some vv) calls))
      as [(kr & _ & H)|[(_ & _ & H)|(_ & kr & _ & _ & H)]];
      rewrite H in Hsel; by simplify_eq. }
  rewrite (selectFromBackups_cached semver_parse K ethContracts s2 vv)
    by congruence.
  rewrite (selectAmong_backups vv s2 (with_cache s (Some vv) calls))
    by (by rewrite Hbackups).
  by rewrite <- Hsel.
Qed.

End selecting_again.

Lemma selectFromBackups_repeats_its_choice_witness :
  (sampleSelect
     (samplePerformAll [CallGetServices; TimePasses 200000; CallIsInRegressedMode]
        (exec sampleSelect twoStaleBackups))).1
  = Normal (Some "https://dp1.example").
Proof.
  apply (selectFromBackups_repeats_its_choice parse_plain sampleConstants
    sampleRegistry twoStaleBackups (Some "https://dp1.example")
    (exec sampleSelect twoStaleBackups)).
  - by vm_compute.
  - by vm_compute.
  - by vm_compute.
Defined.

